(** * Galaxy radius pipeline (etkin-yaricap-galaxy.py)

    A shallow embedding of the script: sky-coordinate lookup, image fetch,
    square-root stretch, contour levels, isophote selection and the final
    report.  Intensities are IEEE binary64 numbers (numpy's float64), modelled
    by the kernel's primitive floats; the plotting surface and the console are
    an explicit world threaded through every call; Python exceptions are an
    outcome of the monad.  Of the plotting calls, [ax.contour] is the one
    that inspects its arguments: it refuses arrays smaller than 2 x 2 and
    levels that are not increasing. *)

From Stdlib Require Import Reals Lra Psatz.
From Stdlib Require Import ZArith List String Ascii Bool Lia Floats.
From Stdlib Require Import DecimalString.
Import ListNotations.

Set Warnings "-inexact-float".
Local Open Scope Z_scope.
Local Open Scope string_scope.

(** ** Data *)

(** A scalar handed to the plotting backend: the script mixes integer pixel
    indices with float64 values in the same argument lists. *)
Inductive scalar : Type :=
  | IntS (z : Z)
  | FloatS (f : float).

(** A two-dimensional numpy array of dtype float64: its shape and its
    row-major buffer.  The script computes in whatever dtype the survey
    delivers; this development covers float64 images, and every statement
    about pixel values below is a statement about float64 images. *)
Record ndarray : Type := mk_ndarray {
  nrows : Z;
  ncols : Z;
  pixels : list float
}.

Inductive unit_of_angle : Type := hourangle | deg | arcmin.

Record Quantity : Type := mk_Quantity { q_value : Z; q_unit : unit_of_angle }.

Record SkyCoord : Type := mk_SkyCoord {
  coord_text : string;
  coord_unit : unit_of_angle * unit_of_angle
}.

(** A catalog result table, column by column, in column order. *)
Definition Table : Type := list (string * list string).

Definition Header : Type := list (string * string).

Record HDU : Type := mk_HDU { hdu_data : ndarray; hdu_header : Header }.

Definition HDUList : Type := list HDU.

Record WCS : Type := mk_WCS { wcs_header : Header }.

(** The arguments of photutils' [EllipseGeometry(x0, y0, sma, eps, pa)] as
    the script passes them.  [pa] is a bare number; the library reads it as
    an angle in radians ([pa_radians]). *)
Record EllipseGeometry : Type := mk_EllipseGeometry {
  x0 : Z;
  y0 : Z;
  geo_sma : Z;
  eps : float;
  pa : Z
}.

(** A fitted isophote: mean intensity, semi-major axis, and the boundary
    samples that [sampled_coordinates()] hands out. *)
Record Isophote : Type := mk_Isophote {
  intens : float;
  sma : float;
  sampled_coordinates : list float * list float
}.

Record ContourSet : Type := mk_ContourSet { levels : list float }.

(** What the plotting backend receives, in call order. *)
Inductive artist : Type :=
  | Subplots (figsize : Z * Z) (projection : WCS)
  | SetMajorFormatter (axis : string) (fmt : string)
  | SetXLabel (s : string)
  | SetYLabel (s : string)
  | Imshow (img : ndarray) (cmap origin aspect : string)
  | Contour (img : ndarray) (lv : list float) (colors : list string)
  | Plot (xs ys : list scalar) (color : string) (label : option string)
  | Scatter (x y : scalar) (color : string) (s : Z) (label : string)
  | Legend
  | Show.

Inductive exn : Type := IndexError | KeyError | ValueError | TypeError.

Record World : Type := mk_World {
  canvas : list artist;
  console : list string
}.

Definition empty_world : World := mk_World [] [].

(** ** Effects: a state-and-exception monad over the world *)

Inductive outcome (A : Type) : Type :=
  | Ok (a : A) (w : World)
  | Raised (e : exn) (w : World).
Arguments Ok {A} a w.
Arguments Raised {A} e w.

Definition M (A : Type) : Type := World -> outcome A.

Definition ret {A} (a : A) : M A := fun w => Ok a w.

Definition bind {A B} (m : M A) (k : A -> M B) : M B :=
  fun w => match m w with
           | Ok a w' => k a w'
           | Raised e w' => Raised e w'
           end.

Definition raise {A} (e : exn) : M A := fun w => Raised e w.

Definition draw (a : artist) : M unit :=
  fun w => Ok tt (mk_World (canvas w ++ [a]) (console w)).

Definition print (s : string) : M unit :=
  fun w => Ok tt (mk_World (canvas w) (console w ++ [s])).

Declare Scope py_scope.
Delimit Scope py_scope with py.
Notation "x <- m ;; k" := (bind m (fun x => k))
  (at level 61, m at next level, right associativity) : py_scope.
Notation "' p <- m ;; k" := (bind m (fun x => match x with p => k end))
  (at level 61, p pattern, m at next level, right associativity) : py_scope.
Notation "m ;;; k" := (bind m (fun _ => k))
  (at level 61, right associativity) : py_scope.
Local Open Scope py_scope.

(** Python's [seq[i]]: IndexError out of range. *)
Definition getitem {A} (l : list A) (i : nat) : M A :=
  match nth_error l i with
  | Some a => ret a
  | None => raise IndexError
  end.

(** Python's [table[name]]: KeyError when the column is missing. *)
Fixpoint lookup_column (t : Table) (name : string) : option (list string) :=
  match t with
  | [] => None
  | (k, col) :: t' => if String.eqb k name then Some col else lookup_column t' name
  end.

Definition getcolumn (t : Table) (name : string) : M (list string) :=
  match lookup_column t name with
  | Some col => ret col
  | None => raise KeyError
  end.

(** ** numpy on float64 *)

Module np.

(** int64 -> float64, round to nearest even. *)
Definition float_of_Z (z : Z) : float :=
  SF2Prim (binary_normalize prec emax z 0 false).

Definition of_scalar (s : scalar) : float :=
  match s with
  | IntS z => float_of_Z z
  | FloatS f => f
  end.

Definition sqrt (x : float) : float := PrimFloat.sqrt x.

Definition isnan (x : float) : bool := negb (PrimFloat.eqb x x).

(** [np.minimum] / [np.maximum]: a NaN operand wins. *)
Definition minimum (a b : float) : float :=
  if isnan a then a else if PrimFloat.ltb a b then a else b.

Definition maximum (a b : float) : float :=
  if isnan a then a else if PrimFloat.ltb b a then a else b.

(** [np.min] / [np.max] of the whole array; an empty array has no
    identity for the reduction and raises ValueError. *)
Definition min (a : list float) : M float :=
  match a with
  | [] => raise ValueError
  | x :: rest => ret (fold_left minimum rest x)
  end.

Definition max (a : list float) : M float :=
  match a with
  | [] => raise ValueError
  | x :: rest => ret (fold_left maximum rest x)
  end.

(** [np.arange(0, num)] as float64. *)
Definition arange (num : nat) : list float :=
  map (fun i => float_of_Z (Z.of_nat i)) (seq 0 num).

(** Replace the last element: [y[-1] = stop]. *)
Definition set_last (y : list float) (stop : float) : list float :=
  match y with
  | [] => []
  | _ => removelast y ++ [stop]
  end.

(** [np.linspace(start, stop, num)] with the default [endpoint=True] on
    float64 scalars: the samples are [i * step + start] with
    [step = (stop - start) / (num - 1)]; when the step underflows to zero
    the samples are [(i / div) * delta + start]; the last sample is
    overwritten with [stop]. *)
Definition linspace (start stop : float) (num : nat) : list float :=
  let div := (num - 1)%nat in
  let fdiv := float_of_Z (Z.of_nat div) in
  let y := arange num in
  let delta := (stop - start)%float in
  let y :=
    if (0 <? div)%nat then
      let step := (delta / fdiv)%float in
      if PrimFloat.eqb step 0%float
      then map (fun yi => (yi / fdiv * delta)%float) y
      else map (fun yi => (yi * step)%float) y
    else map (fun yi => (yi * delta)%float) y in
  let y := map (fun yi => (yi + start)%float) y in
  if (1 <? num)%nat then set_last y stop else y.

(** [np.deg2rad]: multiplication by pi/180 in float64. *)
Definition deg2rad (d : float) : float :=
  (d * (0x1.921fb54442d18p+1 / 180))%float.

(** [a[1:-1]]. *)
Definition interior {A} (a : list A) : list A := removelast (tl a).

(** [np.diff]: the differences [a[i+1] - a[i]]. *)
Fixpoint diff (a : list float) : list float :=
  match a with
  | x :: (y :: _) as rest => (y - x)%float :: diff rest
  | _ => []
  end.

End np.

(** ** Python's truth value and float formatting *)

(** [bool(x)] for a float: false exactly for the two zeros. *)
Definition float_truthy (r : float) : bool := negb (PrimFloat.eqb r 0%float).

(** [if radius:] where [radius] is a float or [None]. *)
Definition truthy (radius : option float) : bool :=
  match radius with
  | None => false
  | Some r => float_truthy r
  end.

Definition string_of_nonneg (z : Z) : string :=
  NilZero.string_of_uint (N.to_uint (Z.to_N z)).

(** Round-half-even quotient of two non-negative integers. *)
Definition div_half_even (n d : Z) : Z :=
  let q := n / d in
  let r := n mod d in
  match 2 * r ?= d with
  | Lt => q
  | Gt => q + 1
  | Eq => if Z.even q then q else q + 1
  end.

(** [f"{x:.2f}"]: the exact binary value, correctly rounded to two decimals. *)
Definition format_2f (x : float) : string :=
  let fixed (s : bool) (hundredths : Z) : string :=
    (if s then "-" else "") ++
    string_of_nonneg (hundredths / 100) ++ "." ++
    string_of_nonneg (hundredths mod 100 / 10) ++
    string_of_nonneg (hundredths mod 10) in
  match Prim2SF x with
  | S754_nan => "nan"
  | S754_infinity s => if s then "-inf" else "inf"
  | S754_zero s => fixed s 0
  | S754_finite s m e =>
      fixed s (if (0 <=? e)%Z then Zpos m * 2 ^ e * 100
               else div_half_even (Zpos m * 100) (2 ^ (- e)))
  end.

(** ** photutils and matplotlib, as far as the script meets them *)


(** The test behind matplotlib's "Contour levels must be increasing":
    [len(levels) > 1 and np.min(np.diff(levels)) <= 0.0]. *)
Definition contour_levels_rejected (lv : list float) : bool :=
  match np.diff lv with
  | [] => false
  | d :: ds => PrimFloat.leb (fold_left np.minimum ds d) 0%float
  end.

(** [ax.contour(z, levels, colors=...)]: an array smaller than 2 x 2 is
    refused with TypeError, then levels that are not increasing with
    ValueError; otherwise the request reaches the backend. *)
Definition ax_contour (z : ndarray) (lv : list float) (colors : list string)
    : M unit :=
  if ((nrows z <? 2) || (ncols z <? 2))%Z then raise TypeError
  else if contour_levels_rejected lv then raise ValueError
  else draw (Contour z lv colors).

Definition failure_message : string := "Could not determine the ellipse radius.".

(** [f"Radius of the ellipse in the blue region: {radius:.2f} pixels"];
    [None] does not accept the format and raises TypeError. *)
Definition radius_message (radius : option float) : M string :=
  match radius with
  | Some r =>
      ret ("Radius of the ellipse in the blue region: " ++ format_2f r ++ " pixels")
  | None => raise TypeError
  end.

(** The console line of a successful run. *)
Definition radius_line (r : float) : string :=
  "Radius of the ellipse in the blue region: " ++ format_2f r ++ " pixels".

(** ** The script *)

Section Pipeline.

(** External collaborators: the catalog service, the image-cutout service,
    the isophote-fitting routine and numpy's libm-backed trigonometry. *)
Variable Simbad_query_object : string -> Table.
Variable SkyView_get_images : SkyCoord -> string -> Quantity -> list HDUList.
Variable Ellipse_fit_image : ndarray -> EllipseGeometry -> list Isophote.
Variable np_cos np_sin : float -> float.

Definition get_object_coordinates (object_name : string) : M SkyCoord :=
  let result_table := Simbad_query_object object_name in
  ra_col <- getcolumn result_table "RA" ;;
  ra <- getitem ra_col 0 ;;
  dec_col <- getcolumn result_table "DEC" ;;
  dec <- getitem dec_col 0 ;;
  ret (mk_SkyCoord (ra ++ " " ++ dec) (hourangle, deg)).

Definition get_image_data (coords : SkyCoord) (survey : string)
    (radius : Quantity) : M (ndarray * WCS) :=
  let image_list := SkyView_get_images coords survey radius in
  hdul <- getitem image_list 0 ;;
  hdu <- getitem hdul 0 ;;
  hdul' <- getitem image_list 0 ;;
  hdu' <- getitem hdul' 0 ;;
  ret (hdu_data hdu, mk_WCS (hdu_header hdu')).

Definition setup_plot (data : ndarray) (wcs : WCS) : M unit :=
  draw (Subplots (10, 10) wcs) ;;;
  draw (SetMajorFormatter "ra" "hh:mm:ss") ;;;
  draw (SetMajorFormatter "dec" "dd:mm:ss") ;;;
  draw (SetXLabel "RA") ;;;
  draw (SetYLabel "DEC").

Definition plot_image_and_contours (data : ndarray) : M (ndarray * ContourSet) :=
  let sqrt_data :=
    mk_ndarray (nrows data) (ncols data)
               (map (fun d => np.sqrt (d + 1)%float) (pixels data)) in
  draw (Imshow sqrt_data "gist_heat" "lower" "auto") ;;;
  min_val <- np.min (pixels sqrt_data) ;;
  max_val <- np.max (pixels sqrt_data) ;;
  let levels := np.interior (np.linspace min_val max_val 4) in
  ax_contour sqrt_data levels ["yellow"; "cyan"] ;;;
  ret (sqrt_data, mk_ContourSet levels).

(** [lower < iso.intens < upper] on [contour_levels]: a chained comparison,
    so the second index is only evaluated when the first test holds. *)
Definition in_band (contour_levels : list float) (iso : Isophote) : M bool :=
  lower <- getitem contour_levels 0 ;;
  if PrimFloat.ltb lower (intens iso) then
    upper <- getitem contour_levels 1 ;;
    ret (PrimFloat.ltb (intens iso) upper)
  else ret false.

(** The [for iso in isolist] loop with its early return. *)
Fixpoint scan_isolist (center : Z * Z) (contour_levels : list float)
    (isolist : list Isophote) : M (option float) :=
  match isolist with
  | [] => ret None
  | iso :: rest =>
      hit <- in_band contour_levels iso ;;
      if hit then
        let '(x, y) := sampled_coordinates iso in
        draw (Plot (map FloatS x) (map FloatS y) "blue" None) ;;;
        draw (Scatter (IntS (snd center)) (IntS (fst center)) "red" 10
                      "Ellipse Center") ;;;
        let angle := np.deg2rad 50 in
        let radius := sma iso in
        let end_x := (np.float_of_Z (snd center) + radius * np_cos angle)%float in
        let end_y := (np.float_of_Z (fst center) + radius * np_sin angle)%float in
        draw (Plot [IntS (snd center); FloatS (end_x - 1.5)%float]
                   [IntS (fst center); FloatS (end_y - 1.5)%float]
                   "white" (Some "Semi-major Axis")) ;;;
        ret (Some radius)
      else scan_isolist center contour_levels rest
  end.

Definition fit_and_plot_ellipse (data : ndarray) (contour_levels : list float)
    : M (option float) :=
  let center := (nrows data / 2, ncols data / 2) in
  let geometry := mk_EllipseGeometry (snd center) (fst center) 20 0.1 45 in
  let isolist := Ellipse_fit_image data geometry in
  scan_isolist center contour_levels isolist.

Definition main : M unit :=
  m88_coords <- get_object_coordinates "M88" ;;
  '(data, wcs) <- get_image_data m88_coords "DSS" (mk_Quantity 5 arcmin) ;;
  setup_plot data wcs ;;;
  '(sqrt_data, contours) <- plot_image_and_contours data ;;
  radius <- fit_and_plot_ellipse sqrt_data (levels contours) ;;
  draw Legend ;;;
  draw Show ;;;
  if truthy radius
  then line <- radius_message radius ;; print line
  else print failure_message.

End Pipeline.

(** ** Specification vocabulary *)

(** The strict band test [lower < intens < upper] as a pure predicate. *)
Definition strict_band (lower upper : float) (iso : Isophote) : bool :=
  PrimFloat.ltb lower (intens iso) && PrimFloat.ltb (intens iso) upper.

(** The world after the plotting backend received the artists [l]. *)
Definition drawn (w : World) (l : list artist) : World :=
  mk_World (canvas w ++ l) (console w).

(** The world after the console received the line [s]. *)
Definition printed (w : World) (s : string) : World :=
  mk_World (canvas w) (console w ++ [s]).

(** The seed geometry of an image: column centre, row centre, and the three
    literals of the script. *)
Definition seed_geometry (data : ndarray) : EllipseGeometry :=
  {| x0 := ncols data / 2; y0 := nrows data / 2;
     geo_sma := 20; eps := 0.1; pa := 45 |}.


(** Zero or a finite number, as a test on the specification side. *)
Definition SF_is_finite (x : spec_float) : bool :=
  match x with
  | S754_zero _ | S754_finite _ _ _ => true
  | _ => false
  end.

Section Drawing.

Variable np_cos np_sin : float -> float.

(** End point of the semi-major-axis ray: [center + sma * (cos, sin)] at the
    angle [deg2rad(50)]. *)
Definition ray_end (data : ndarray) (iso : Isophote) : float * float :=
  ((np.float_of_Z (ncols data / 2) + sma iso * np_cos (np.deg2rad 50))%float,
   (np.float_of_Z (nrows data / 2) + sma iso * np_sin (np.deg2rad 50))%float).

(** What a successful selection draws, in order: the boundary, the centre
    marker, the ray segment. *)
Definition ellipse_artists (data : ndarray) (iso : Isophote) : list artist :=
  [ Plot (map FloatS (fst (sampled_coordinates iso)))
         (map FloatS (snd (sampled_coordinates iso))) "blue" None;
    Scatter (IntS (ncols data / 2)) (IntS (nrows data / 2)) "red" 10
            "Ellipse Center";
    Plot [IntS (ncols data / 2); FloatS (fst (ray_end data iso) - 1.5)%float]
         [IntS (nrows data / 2); FloatS (snd (ray_end data iso) - 1.5)%float]
         "white" (Some "Semi-major Axis") ].

End Drawing.

Section MainStages.

Variable Simbad_query_object : string -> Table.
Variable SkyView_get_images : SkyCoord -> string -> Quantity -> list HDUList.

(** Lines 61-70 of [main]: everything that runs before the fit. *)
Definition main_before_fit : M (ndarray * ContourSet) :=
  m88_coords <- get_object_coordinates Simbad_query_object "M88" ;;
  '(data, wcs) <- get_image_data SkyView_get_images m88_coords "DSS"
                                 (mk_Quantity 5 arcmin) ;;
  setup_plot data wcs ;;;
  plot_image_and_contours data.

End MainStages.

(** ** A concrete run, used to exercise the statements below *)

Module Sample.

Definition catalog (name : string) : Table :=
  [("MAIN_ID", ["M  88"]); ("RA", ["12 31 59.216"]); ("DEC", ["+14 25 13.48"])].

(** A 2 x 2 cutout whose stretched intensities are 1, 2, 3, 4. *)
Definition cutout : ndarray := mk_ndarray 2 2 [0; 3; 8; 15]%float.

Definition stretched : ndarray := mk_ndarray 2 2 [1; 2; 3; 4]%float.

Definition survey (c : SkyCoord) (s : string) (r : Quantity) : list HDUList :=
  [[mk_HDU cutout [("SURVEY", "DSS")]]].

Definition iso (i s : float) : Isophote := mk_Isophote i s ([], []).

(** Fitters: one with an isophote in the band (2, 3), one without, one whose
    first isophote in the band has a zero semi-major axis. *)
Definition fit_hit (d : ndarray) (g : EllipseGeometry) : list Isophote :=
  [iso 1.5 4; iso 2.5 7; iso 2.75 9].

Definition fit_miss (d : ndarray) (g : EllipseGeometry) : list Isophote :=
  [iso 0.5 4; iso 3 7; iso 3.5 9].

Definition fit_zero (d : ndarray) (g : EllipseGeometry) : list Isophote :=
  [iso 1.5 4; iso 2.5 0; iso 2.75 9].

(** Stand-ins for libm's cosine and sine at the one angle the script uses. *)
Definition cos50 (a : float) : float := 0x1.491b7523c161dp-1%float.
Definition sin50 (a : float) : float := 0x1.8836fa2cf5039p-1%float.

(** A constant 2 x 2 cutout: every stretched intensity is 3. *)
Definition flat : ndarray := mk_ndarray 2 2 [8; 8; 8; 8]%float.

Definition flat_survey (c : SkyCoord) (s : string) (r : Quantity) : list HDUList :=
  [[mk_HDU flat [("SURVEY", "DSS")]]].

(** Where the run on the constant cutout stops: the set-up calls and the
    raster, nothing printed. *)
Definition flat_world : World :=
  drawn empty_world
    [ Subplots (10, 10) (mk_WCS [("SURVEY", "DSS")]);
      SetMajorFormatter "ra" "hh:mm:ss";
      SetMajorFormatter "dec" "dd:mm:ss";
      SetXLabel "RA";
      SetYLabel "DEC";
      Imshow (mk_ndarray 2 2 [3; 3; 3; 3]%float) "gist_heat" "lower" "auto" ].

Definition before_fit_world : World :=
  drawn empty_world
    [ Subplots (10, 10) (mk_WCS [("SURVEY", "DSS")]);
      SetMajorFormatter "ra" "hh:mm:ss";
      SetMajorFormatter "dec" "dd:mm:ss";
      SetXLabel "RA";
      SetYLabel "DEC";
      Imshow stretched "gist_heat" "lower" "auto";
      Contour stretched [2; 3]%float ["yellow"; "cyan"] ].

End Sample.

(** ** Binary64 arithmetic: vocabulary

    The primitive floats are specified by the operations of [SpecFloat]; what
    follows relates those operations to the real numbers they round. *)

Module B64.

Local Open Scope R_scope.

Definition bpow (e : Z) : R := powerRZ 2 e.

(** The real value [m * 2^e] of a mantissa and an exponent. *)
Definition F2R (m e : Z) : R := IZR m * bpow e.

(** Position of a real [t] relative to the integer [m] it is truncated to. *)
Definition located (t : R) (m : Z) (l : location) : Prop :=
  match l with
  | loc_Exact => t = IZR m
  | loc_Inexact Lt => IZR m < t < IZR m + / 2
  | loc_Inexact Eq => t = IZR m + / 2
  | loc_Inexact Gt => IZR m + / 2 < t < IZR m + 1
  end.

(** Exponent of the last place of a number of magnitude [2^g]:
    [max (g - 53) (-1074)]. *)
Abbreviation fexp64 := (fexp prec emax).

(** [g] is the magnitude of the positive real [x]: [2^(g-1) <= x < 2^g]. *)
Definition mag_is (x : R) (g : Z) : Prop := bpow (g - 1) <= x < bpow g.

(** [N] is the integer nearest to [t], ties to even. *)
Definition rne_int (t : R) (N : Z) : Prop :=
  (IZR N - / 2 <= t <= IZR N + / 2) /\
  (t = IZR N - / 2 \/ t = IZR N + / 2 -> Z.even N = true).

(** The last step of [binary_round_aux]: renormalise the rounded mantissa and
    detect overflow. *)
Definition pack (sx : bool) (N E : Z) : spec_float :=
  let '(mrs, e) := shr_fexp prec emax N E loc_Exact in
  match shr_m mrs with
  | Z0 => S754_zero sx
  | Zpos m => if (e <=? emax - prec)%Z then S754_finite sx m e else S754_infinity sx
  | Zneg _ => S754_nan
  end.

(** [r] is the binary64 rounding of the positive real [x]. *)
Definition rounds_to (x : R) (r : spec_float) : Prop :=
  exists g N, mag_is x g /\ rne_int (x * bpow (- fexp64 g)) N /\
              r = pack false N (fexp64 g).

(** [nonneg_finite r v]: [r] is a zero or a valid positive finite number, of
    real value [v]. *)
Definition nonneg_finite (r : spec_float) (v : R) : Prop :=
  match r with
  | S754_zero _ => v = 0
  | S754_finite false m e => bounded prec emax m e = true /\ v = F2R (Zpos m) e
  | _ => False
  end.

(** [v] is the real value of the rounding of [x]: the nearest multiple of
    the unit in the last place of [x], ties to even. *)
Definition rnd_val (x v : R) : Prop :=
  exists g N, mag_is x g /\ rne_int (x * bpow (- fexp64 g)) N /\
              v = IZR N * bpow (fexp64 g).

(** [result_of w r]: [r] carries the rounded value [w], or is [+inf] when
    [w] is beyond the format. *)
Definition result_of (w : R) (r : spec_float) : Prop :=
  nonneg_finite r w \/ (bpow 1024 <= w /\ r = S754_infinity false).

(** Rounding extended to zero. *)
Definition rnd0 (x v : R) : Prop :=
  (x = 0 /\ v = 0) \/ (0 < x /\ rnd_val x v).

(** Order of two non-negative numbers through their values. *)
Definition le_ext (r r' : spec_float) : Prop :=
  exists w w', result_of w r /\ result_of w' r' /\ w <= w'.

(** The binary64 number [1.0]. *)
Definition SF_one : spec_float := S754_finite false (2 ^ 52) (-52).

(** [sqrt(a + 1)] on the specification side. *)
Definition SF_stretch (a : spec_float) : spec_float :=
  SFsqrt prec emax (SFadd prec emax a SF_one).

(** Outputs of the square root are multiples of [2^-589]. *)
Definition on_grid (w : R) : Prop := exists k : Z, w = IZR k * bpow (-589).

(** The binary64 numbers [2.0] and [3.0]. *)
Definition SF_two : spec_float := S754_finite false (2 ^ 52) (-51).

Definition SF_three : spec_float := S754_finite false (3 * 2 ^ 51) (-51).

End B64.

(** * Properties *)

Lemma drawn_drawn w l1 l2 : drawn (drawn w l1) l2 = drawn w (l1 ++ l2).
Proof. unfold drawn; simpl. now rewrite <- app_assoc. Qed.

Lemma drawn_nil w : drawn w [] = w.
Proof. destruct w; unfold drawn; simpl. now rewrite app_nil_r. Qed.

Lemma draw_eq a w : draw a w = Ok tt (drawn w [a]).
Proof. reflexivity. Qed.

Section Selection.

Variable np_cos np_sin : float -> float.

(** With two levels on hand the band test never raises. *)
Lemma in_band_two lower upper rest iso w :
  in_band (lower :: upper :: rest) iso w = Ok (strict_band lower upper iso) w.
Proof.
  unfold in_band, strict_band, bind, getitem; simpl.
  unfold ret. destruct (PrimFloat.ltb lower (intens iso)); reflexivity.
Qed.

(** The loop is a first-match search. *)
Lemma scan_isolist_find data lower upper rest isolist w :
  scan_isolist np_cos np_sin (nrows data / 2, ncols data / 2)
               (lower :: upper :: rest) isolist w =
  match find (strict_band lower upper) isolist with
  | Some iso => Ok (Some (sma iso)) (drawn w (ellipse_artists np_cos np_sin data iso))
  | None => Ok None w
  end.
Proof.
  induction isolist as [| iso isos IH]; [reflexivity |].
  cbn [scan_isolist find]. unfold bind at 1. rewrite in_band_two.
  destruct (strict_band lower upper iso); [| exact IH].
  destruct (sampled_coordinates iso) as [x y] eqn:Hxy.
  unfold bind; rewrite !draw_eq, !drawn_drawn.
  unfold ellipse_artists, ray_end; rewrite Hxy; reflexivity.
Qed.

End Selection.

Section Fitting.

Variable Simbad_query_object : string -> Table.
Variable SkyView_get_images : SkyCoord -> string -> Quantity -> list HDUList.
Variable Ellipse_fit_image : ndarray -> EllipseGeometry -> list Isophote.
Variable np_cos np_sin : float -> float.

Lemma fit_and_plot_ellipse_find data lower upper rest w :
  fit_and_plot_ellipse Ellipse_fit_image np_cos np_sin data
                       (lower :: upper :: rest) w =
  match find (strict_band lower upper)
             (Ellipse_fit_image data (seed_geometry data)) with
  | Some iso => Ok (Some (sma iso)) (drawn w (ellipse_artists np_cos np_sin data iso))
  | None => Ok None w
  end.
Proof.
  unfold fit_and_plot_ellipse; cbn [fst snd].
  apply scan_isolist_find.
Qed.

(** [main] is its front end followed by the fit and the report. *)
Lemma main_split w :
  main Simbad_query_object SkyView_get_images Ellipse_fit_image np_cos np_sin w =
  match main_before_fit Simbad_query_object SkyView_get_images w with
  | Raised e w1 => Raised e w1
  | Ok (sqrt_data, contours) w1 =>
      match fit_and_plot_ellipse Ellipse_fit_image np_cos np_sin
                sqrt_data (levels contours) w1 with
      | Raised e w2 => Raised e w2
      | Ok radius w2 =>
          if truthy radius
          then match radius_message radius (drawn w2 [Legend; Show]) with
               | Ok line w3 => Ok tt (printed w3 line)
               | Raised e w3 => Raised e w3
               end
          else Ok tt (printed (drawn w2 [Legend; Show]) failure_message)
      end
  end.
Proof.
  unfold main, main_before_fit, bind.
  destruct (get_object_coordinates Simbad_query_object "M88" w) as [c w0 | e w0];
    [| reflexivity].
  destruct (get_image_data SkyView_get_images c "DSS" (mk_Quantity 5 arcmin) w0)
    as [[data wcs] w1 | e w1]; [| reflexivity].
  destruct (setup_plot data wcs w1) as [[] w2 | e w2]; [| reflexivity].
  destruct (plot_image_and_contours data w2) as [[sd cs] w3 | e w3]; [| reflexivity].
  destruct (fit_and_plot_ellipse Ellipse_fit_image np_cos np_sin sd (levels cs) w3)
    as [radius w4 | e w4]; [| reflexivity].
  rewrite !draw_eq, drawn_drawn; cbn [app].
  destruct (truthy radius); [| reflexivity].
  destruct (radius_message radius _); reflexivity.
Qed.

Lemma main_report w sqrt_data contours w1 radius w2 :
  main_before_fit Simbad_query_object SkyView_get_images w
    = Ok (sqrt_data, contours) w1 ->
  fit_and_plot_ellipse Ellipse_fit_image np_cos np_sin sqrt_data (levels contours) w1
    = Ok radius w2 ->
  main Simbad_query_object SkyView_get_images Ellipse_fit_image np_cos np_sin w =
  Ok tt (printed (drawn w2 [Legend; Show])
                 (match radius with
                  | Some r => if float_truthy r then radius_line r else failure_message
                  | None => failure_message
                  end)).
Proof.
  intros Hb Hf. rewrite main_split, Hb, Hf.
  destruct radius as [r |]; cbn [truthy]; [| reflexivity].
  destruct (float_truthy r); reflexivity.
Qed.

End Fitting.

(** The stages before the fit leave the console alone and, when they succeed,
    expose exactly two contour levels. *)
Lemma getitem_world {A} (l : list A) i w a w' :
  getitem l i w = Ok a w' -> w' = w.
Proof.
  unfold getitem. destruct (nth_error l i); unfold ret, raise; congruence.
Qed.

Lemma getcolumn_world t n w a w' : getcolumn t n w = Ok a w' -> w' = w.
Proof.
  unfold getcolumn. destruct (lookup_column t n); unfold ret, raise; congruence.
Qed.

Lemma get_object_coordinates_world S name w c w' :
  get_object_coordinates S name w = Ok c w' -> w' = w.
Proof.
  unfold get_object_coordinates, bind.
  destruct (getcolumn _ "RA" w) as [rc w1 | ] eqn:H1; [| discriminate].
  apply getcolumn_world in H1; subst w1.
  destruct (getitem rc 0 w) as [ra w1 | ] eqn:H2; [| discriminate].
  apply getitem_world in H2; subst w1.
  destruct (getcolumn _ "DEC" w) as [dc w1 | ] eqn:H3; [| discriminate].
  apply getcolumn_world in H3; subst w1.
  destruct (getitem dc 0 w) as [dec w1 | ] eqn:H4; [| discriminate].
  apply getitem_world in H4; subst w1.
  unfold ret; congruence.
Qed.

Lemma get_image_data_world V c s r w x w' :
  get_image_data V c s r w = Ok x w' -> w' = w.
Proof.
  unfold get_image_data, bind, getitem, ret, raise.
  destruct (nth_error (V c s r) 0) as [hdul |]; [| discriminate].
  destruct (nth_error hdul 0) as [hdu |]; [| discriminate].
  congruence.
Qed.

Lemma linspace_4 a b :
  exists e0 e1 e2, np.linspace a b 4 = [e0; e1; e2; b].
Proof.
  unfold np.linspace. cbn [Nat.sub Nat.ltb Nat.leb np.arange seq map].
  destruct (PrimFloat.eqb _ 0%float); cbn [map np.set_last removelast app];
    eauto.
Qed.

(** The body of [plot_image_and_contours], outcome by outcome. *)
Lemma plot_image_and_contours_eq data w :
  let s := map (fun d => np.sqrt (d + 1)%float) (pixels data) in
  let sd := mk_ndarray (nrows data) (ncols data) s in
  plot_image_and_contours data w =
  match s with
  | [] => Raised ValueError (drawn w [Imshow sd "gist_heat" "lower" "auto"])
  | x :: rest =>
      let lv := np.interior (np.linspace (fold_left np.minimum rest x)
                                         (fold_left np.maximum rest x) 4) in
      if ((nrows data <? 2) || (ncols data <? 2))%Z
      then Raised TypeError (drawn w [Imshow sd "gist_heat" "lower" "auto"])
      else if contour_levels_rejected lv
      then Raised ValueError (drawn w [Imshow sd "gist_heat" "lower" "auto"])
      else Ok (sd, mk_ContourSet lv)
              (drawn w [Imshow sd "gist_heat" "lower" "auto";
                        Contour sd lv ["yellow"; "cyan"]])
  end.
Proof.
  cbv zeta. unfold plot_image_and_contours, bind. rewrite draw_eq.
  cbn [pixels]. destruct (map _ (pixels data)) as [| x rest]; [reflexivity |].
  cbn [np.min np.max]. unfold ret, ax_contour, raise. cbn [nrows ncols].
  destruct (((nrows data <? 2) || (ncols data <? 2))%Z); [reflexivity |].
  destruct (contour_levels_rejected _); [reflexivity |].
  rewrite draw_eq, drawn_drawn. reflexivity.
Qed.

(** With two levels, the increasing-levels test of [ax.contour] compares
    their difference with zero. *)
Lemma contour_levels_rejected_two lower upper :
  contour_levels_rejected [lower; upper] = (upper - lower <=? 0)%float.
Proof. reflexivity. Qed.

(** What a successful call went through. *)
Lemma plot_image_and_contours_ok data w sd cs w' :
  plot_image_and_contours data w = Ok (sd, cs) w' ->
  exists x rest e0 lower upper,
    map (fun d => np.sqrt (d + 1)%float) (pixels data) = x :: rest /\
    sd = mk_ndarray (nrows data) (ncols data) (x :: rest) /\
    np.linspace (fold_left np.minimum rest x) (fold_left np.maximum rest x) 4
      = [e0; lower; upper; fold_left np.maximum rest x] /\
    cs = mk_ContourSet [lower; upper] /\
    ((nrows data <? 2) || (ncols data <? 2))%Z = false /\
    (upper - lower <=? 0)%float = false /\
    w' = drawn w [Imshow sd "gist_heat" "lower" "auto";
                  Contour sd [lower; upper] ["yellow"; "cyan"]].
Proof.
  rewrite plot_image_and_contours_eq. cbv zeta.
  destruct (map _ (pixels data)) as [| x rest]; [discriminate |].
  destruct (linspace_4 (fold_left np.minimum rest x) (fold_left np.maximum rest x))
    as (e0 & e1 & e2 & He).
  rewrite He. cbn [np.interior tl removelast].
  destruct (((nrows data <? 2) || (ncols data <? 2))%Z); [discriminate |].
  rewrite contour_levels_rejected_two.
  destruct (e2 - e1 <=? 0)%float eqn:Hrej; [discriminate |].
  intros H. inversion H; subst. exists x, rest, e0, e1, e2. repeat split; assumption.
Qed.

Lemma plot_image_and_contours_inv data w sd cs w' :
  plot_image_and_contours data w = Ok (sd, cs) w' ->
  console w' = console w /\ exists lower upper, levels cs = [lower; upper].
Proof.
  intros H. apply plot_image_and_contours_ok in H.
  destruct H as (x & rest & e0 & lo & hi & _ & _ & _ & -> & _ & _ & ->).
  cbn. eauto.
Qed.

Lemma main_before_fit_inv S V w sd cs w' :
  main_before_fit S V w = Ok (sd, cs) w' ->
  console w' = console w /\ exists lower upper, levels cs = [lower; upper].
Proof.
  unfold main_before_fit, bind.
  destruct (get_object_coordinates S "M88" w) as [c w0 |] eqn:H0; [| discriminate].
  apply get_object_coordinates_world in H0; subst w0.
  destruct (get_image_data V c "DSS" _ w) as [[data wcs] w1 |] eqn:H1; [| discriminate].
  apply get_image_data_world in H1; subst w1.
  unfold setup_plot, bind; rewrite !draw_eq.
  intros H. apply plot_image_and_contours_inv in H. exact H.
Qed.

(** ** Binary64 arithmetic: rounding *)

Module B64Facts.

Import B64.
Local Open Scope R_scope.

Lemma bpow_gt_0 e : 0 < bpow e.
Proof. apply powerRZ_lt; lra. Qed.

Lemma bpow_add a b : bpow (a + b) = bpow a * bpow b.
Proof. apply powerRZ_add; lra. Qed.

Lemma bpow_0 : bpow 0 = 1.
Proof. reflexivity. Qed.

Lemma bpow_1 : bpow 1 = 2.
Proof. unfold bpow; simpl; lra. Qed.

Lemma bpow_m1 : bpow (-1) = / 2.
Proof. unfold bpow; simpl. now rewrite Rmult_1_r. Qed.

Lemma bpow_opp e : bpow (- e) = / bpow e.
Proof. unfold bpow. apply powerRZ_neg'. Qed.

Lemma bpow_succ e : bpow (e + 1) = 2 * bpow e.
Proof. rewrite bpow_add, bpow_1; lra. Qed.

Lemma bpow_IZR k : (0 <= k)%Z -> bpow k = IZR (2 ^ k).
Proof.
  intros Hk. unfold bpow.
  rewrite <- (Z2Nat.id k) at 1 by assumption.
  rewrite <- pow_powerRZ.
  rewrite pow_IZR. now rewrite Z2Nat.id.
Qed.

Lemma bpow_ge_1 k : (0 <= k)%Z -> 1 <= bpow k.
Proof.
  intros Hk. rewrite bpow_IZR by assumption. apply IZR_le.
  pose proof (Z.pow_pos_nonneg 2 k). lia.
Qed.

Lemma bpow_le a b : (a <= b)%Z -> bpow a <= bpow b.
Proof.
  intros H. replace b with (a + (b - a))%Z by lia.
  rewrite bpow_add.
  pose proof (bpow_ge_1 (b - a)). pose proof (bpow_gt_0 a).
  assert (1 <= bpow (b - a)) by (apply H0; lia). nra.
Qed.

Lemma bpow_lt a b : (a < b)%Z -> bpow a < bpow b.
Proof.
  intros H. replace b with (a + ((b - a - 1) + 1))%Z by lia.
  rewrite bpow_add, bpow_succ.
  pose proof (bpow_ge_1 (b - a - 1)). pose proof (bpow_gt_0 a).
  assert (1 <= bpow (b - a - 1)) by (apply H0; lia). nra.
Qed.

Lemma bpow_lt_inv a b : bpow a < bpow b -> (a < b)%Z.
Proof.
  intros H. destruct (Z_lt_le_dec a b) as [|Hle]; [assumption |].
  apply bpow_le in Hle. lra.
Qed.

Lemma bpow_le_inv a b : bpow a <= bpow b -> (a <= b)%Z.
Proof.
  intros H. destruct (Z_lt_le_dec b a) as [Hlt|]; [| assumption].
  apply bpow_lt in Hlt. lra.
Qed.

Lemma bpow_cancel e : bpow e * bpow (- e) = 1.
Proof. rewrite <- bpow_add. replace (e + - e)%Z with 0%Z by lia. apply bpow_0. Qed.

(** ** Digits *)

Lemma digits2_pos_bounds m :
  (2 ^ (Zpos (digits2_pos m) - 1) <= Zpos m < 2 ^ Zpos (digits2_pos m))%Z.
Proof.
  induction m as [m IH | m IH |]; cbn [digits2_pos].
  - rewrite Pos2Z.inj_succ.
    replace (Z.succ (Z.pos (digits2_pos m)) - 1)%Z
      with ((Z.pos (digits2_pos m) - 1) + 1)%Z by lia.
    rewrite !Z.pow_succ_r, Z.pow_add_r by lia. lia.
  - rewrite Pos2Z.inj_succ.
    replace (Z.succ (Z.pos (digits2_pos m)) - 1)%Z
      with ((Z.pos (digits2_pos m) - 1) + 1)%Z by lia.
    rewrite !Z.pow_succ_r, Z.pow_add_r by lia. lia.
  - simpl. lia.
Qed.

(** ** Right shifts keep track of the position *)

Lemma loc_of_record_of_loc m l :
  loc_of_shr_record (shr_record_of_loc m l) = l.
Proof. destruct l as [| []]; reflexivity. Qed.

Lemma shr_m_record_of_loc m l : shr_m (shr_record_of_loc m l) = m.
Proof. destruct l as [| []]; reflexivity. Qed.

Lemma IZR_xI p : IZR (Zpos p~1) = 2 * IZR (Zpos p) + 1.
Proof. now rewrite Pos2Z.inj_xI, plus_IZR, mult_IZR. Qed.

Lemma IZR_xO p : IZR (Zpos p~0) = 2 * IZR (Zpos p).
Proof. now rewrite Pos2Z.inj_xO, mult_IZR. Qed.

Lemma shr_1_located mrs t :
  (0 <= shr_m mrs)%Z ->
  located t (shr_m mrs) (loc_of_shr_record mrs) ->
  (0 <= shr_m (shr_1 mrs))%Z /\
  located (t * / 2) (shr_m (shr_1 mrs)) (loc_of_shr_record (shr_1 mrs)).
Proof.
  destruct mrs as [m r s]. cbn [shr_m].
  destruct m as [| p | p]; [| | lia]; intros _.
  - destruct r, s; cbn -[IZR]; intros H; split; try lia; lra.
  - destruct p as [p | p |].
    + pose proof (IZR_xI p) as E.
      destruct r, s; cbn -[IZR]; intros H; (split; [lia |]); lra.
    + pose proof (IZR_xO p) as E.
      destruct r, s; cbn -[IZR]; intros H; (split; [lia |]); lra.
    + destruct r, s; cbn -[IZR]; intros H; (split; [lia |]); lra.
Qed.

Lemma iter_pos_shr_1_located p : forall mrs t,
  (0 <= shr_m mrs)%Z ->
  located t (shr_m mrs) (loc_of_shr_record mrs) ->
  (0 <= shr_m (iter_pos shr_1 p mrs))%Z /\
  located (t * bpow (- Zpos p)) (shr_m (iter_pos shr_1 p mrs))
          (loc_of_shr_record (iter_pos shr_1 p mrs)).
Proof.
  induction p as [p IH | p IH |]; intros mrs t Hm Hl; cbn [iter_pos].
  - destruct (shr_1_located mrs t Hm Hl) as [Hm1 Hl1].
    destruct (IH _ _ Hm1 Hl1) as [Hm2 Hl2].
    destruct (IH _ _ Hm2 Hl2) as [Hm3 Hl3].
    split; [exact Hm3 |].
    replace (t * bpow (- Z.pos p~1))
      with (t * / 2 * bpow (- Z.pos p) * bpow (- Z.pos p)); [exact Hl3 |].
    rewrite Pos2Z.inj_xI.
    replace (- (2 * Z.pos p + 1))%Z with (-1 + (- Z.pos p + - Z.pos p))%Z by lia.
    rewrite !bpow_add, bpow_m1. ring.
  - destruct (IH _ _ Hm Hl) as [Hm2 Hl2].
    destruct (IH _ _ Hm2 Hl2) as [Hm3 Hl3].
    split; [exact Hm3 |].
    replace (t * bpow (- Z.pos p~0))
      with (t * bpow (- Z.pos p) * bpow (- Z.pos p)); [exact Hl3 |].
    rewrite Pos2Z.inj_xO.
    replace (- (2 * Z.pos p))%Z with (- Z.pos p + - Z.pos p)%Z by lia.
    rewrite !bpow_add. ring.
  - destruct (shr_1_located mrs t Hm Hl) as [Hm1 Hl1].
    split; [exact Hm1 |]. change (- Z.pos 1)%Z with (-1)%Z. now rewrite bpow_m1.
Qed.

Lemma shr_located m l e n t :
  (0 <= m)%Z -> located t m l ->
  let r := shr (shr_record_of_loc m l) e n in
  snd r = (e + Z.max 0 n)%Z /\
  (0 <= shr_m (fst r))%Z /\
  located (t * bpow (- Z.max 0 n)) (shr_m (fst r)) (loc_of_shr_record (fst r)).
Proof.
  intros Hm Hl. unfold shr.
  destruct n as [| p | p]; cbn [fst snd].
  - rewrite shr_m_record_of_loc, loc_of_record_of_loc.
    replace (Z.max 0 0) with 0%Z by lia. change (- 0)%Z with 0%Z.
    rewrite bpow_0, Rmult_1_r, Z.add_0_r.
    repeat split; assumption.
  - replace (Z.max 0 (Z.pos p)) with (Z.pos p) by lia.
    split; [reflexivity |].
    apply iter_pos_shr_1_located.
    + now rewrite shr_m_record_of_loc.
    + now rewrite shr_m_record_of_loc, loc_of_record_of_loc.
  - replace (Z.max 0 (Z.neg p)) with 0%Z by lia.
    rewrite shr_m_record_of_loc, loc_of_record_of_loc.
    change (- 0)%Z with 0%Z. rewrite bpow_0, Rmult_1_r, Z.add_0_r.
    repeat split; assumption.
Qed.

(** ** Round to nearest even in binary64 *)

Lemma fexp64_eq g : fexp64 g = Z.max (g - 53) (-1074).
Proof. reflexivity. Qed.

Lemma mag_is_unique x g g' : mag_is x g -> mag_is x g' -> g = g'.
Proof.
  unfold mag_is. intros [H1 H2] [H3 H4].
  assert (bpow (g - 1) < bpow g') by lra.
  assert (bpow (g' - 1) < bpow g) by lra.
  apply bpow_lt_inv in H, H0. lia.
Qed.

Lemma mag_is_le x y g g' : mag_is x g -> mag_is y g' -> x <= y -> (g <= g')%Z.
Proof.
  unfold mag_is. intros [H1 H2] [H3 H4] Hxy.
  assert (bpow (g - 1) < bpow g') by lra.
  apply bpow_lt_inv in H. lia.
Qed.

Lemma located_bounds t m l : located t m l -> IZR m <= t < IZR m + 1.
Proof. destruct l as [| []]; cbn; lra. Qed.

Lemma rne_int_located t m l :
  located t m l -> rne_int t (round_nearest_even m l).
Proof.
  unfold rne_int. destruct l as [| []]; cbn -[IZR Z.even]; intros H.
  - split; [lra |]. intros [? | ?]; lra.
  - destruct (Z.even m) eqn:He.
    + split; [lra |]. intros _; exact He.
    + rewrite plus_IZR. split; [lra |]. intros _.
      rewrite Z.even_add, He. reflexivity.
  - split; [lra |]. intros [? | ?]; lra.
  - rewrite plus_IZR. split; [lra |]. intros [? | ?]; lra.
Qed.

Lemma rne_int_mono t t' N N' :
  rne_int t N -> rne_int t' N' -> t <= t' -> (N <= N')%Z.
Proof.
  intros [H1 E1] [H2 E2] Hle.
  destruct (Z_le_gt_dec N N') as [| Hgt]; [assumption | exfalso].
  assert (IZR N' + 1 <= IZR N).
  { rewrite <- plus_IZR. apply IZR_le. lia. }
  assert (Ht : t = IZR N - / 2) by lra.
  assert (Ht' : t' = IZR N' + / 2) by lra.
  assert (IZR N = IZR N' + 1) by lra.
  assert (N = N' + 1)%Z.
  { apply eq_IZR. now rewrite plus_IZR. }
  specialize (E1 (or_introl Ht)). specialize (E2 (or_intror Ht')).
  subst N. rewrite Z.even_add, E2 in E1. discriminate.
Qed.

Lemma rne_int_IZR m N : rne_int (IZR m) N -> N = m.
Proof.
  intros [[H1 H2] _].
  assert (IZR N < IZR m + 1) by lra.
  assert (IZR m < IZR N + 1) by lra.
  rewrite <- plus_IZR in H, H0. apply lt_IZR in H, H0. lia.
Qed.

Lemma rne_int_ge t N k : rne_int t N -> IZR k <= t -> (k <= N)%Z.
Proof.
  intros [[H1 H2] _] Hk.
  assert (IZR k < IZR N + 1) by lra.
  rewrite <- plus_IZR in H. apply lt_IZR in H. lia.
Qed.

Lemma rne_int_le t N k : rne_int t N -> t <= IZR k -> (N <= k)%Z.
Proof.
  intros [[H1 H2] _] Hk.
  assert (IZR N < IZR k + 1) by lra.
  rewrite <- plus_IZR in H. apply lt_IZR in H. lia.
Qed.

Lemma binary_round_aux_pack sx m e l :
  binary_round_aux prec emax sx m e l =
  let r := shr_fexp prec emax m e l in
  pack sx (round_nearest_even (shr_m (fst r)) (loc_of_shr_record (fst r))) (snd r).
Proof.
  unfold binary_round_aux, pack.
  destruct (shr_fexp prec emax m e l) as [mrs e']. reflexivity.
Qed.

Lemma Zdigits2_mag m e x g :
  (0 < m)%Z -> IZR m <= x * bpow (- e) < IZR m + 1 -> mag_is x g ->
  (Zdigits2 m + e)%Z = g.
Proof.
  intros Hm Ht Hg. destruct m as [| p | p]; try lia.
  cbn [Zdigits2]. pose proof (digits2_pos_bounds p) as Hd.
  set (d := Z.pos (digits2_pos p)) in *.
  assert (Hd0 : (0 < d)%Z) by (unfold d; lia).
  apply (mag_is_unique x); [| assumption].
  unfold mag_is.
  pose proof (bpow_gt_0 e) as He. pose proof (bpow_cancel e) as Hc.
  assert (H1 : bpow (d - 1) <= IZR (Z.pos p)).
  { rewrite bpow_IZR by lia. apply IZR_le. lia. }
  assert (H2 : IZR (Z.pos p) + 1 <= bpow d).
  { rewrite bpow_IZR by lia. rewrite <- plus_IZR. apply IZR_le. lia. }
  replace (d + e - 1)%Z with ((d - 1) + e)%Z by lia.
  rewrite !bpow_add.
  set (t := x * bpow (- e)) in *.
  assert (Hx : x = t * bpow e).
  { unfold t. rewrite Rmult_assoc, (Rmult_comm (bpow (- e))), Hc. ring. }
  rewrite Hx. split.
  - apply Rmult_le_compat_r; lra.
  - apply Rmult_lt_compat_r; lra.
Qed.

Lemma binary_round_aux_rounds m e l x g :
  (0 <= m)%Z -> located (x * bpow (- e)) m l -> mag_is x g ->
  (e <= fexp64 g)%Z ->
  rounds_to x (binary_round_aux prec emax false m e l).
Proof.
  intros Hm Hl Hg He.
  rewrite binary_round_aux_pack. cbv zeta.
  unfold shr_fexp.
  set (n := (fexp64 (Zdigits2 m + e) - e)%Z).
  destruct (shr_located m l e n _ Hm Hl) as (He' & Hm' & Hl').
  set (r := shr (shr_record_of_loc m l) e n) in *.
  assert (HE : (e + Z.max 0 n)%Z = fexp64 g).
  { pose proof (located_bounds _ _ _ Hl) as Hb.
    destruct (Z.eq_dec m 0) as [-> | Hnz].
    - (* the truncation is zero: the value is below the format *)
      cbn [Zdigits2] in n. destruct Hg as [Hg1 Hg2].
      assert (Hx : x < bpow e).
      { pose proof (bpow_gt_0 e). pose proof (bpow_cancel e).
        replace x with (x * bpow (- e) * bpow e)
          by (rewrite Rmult_assoc, (Rmult_comm (bpow (- e))), H0; ring).
        cbn in Hb. nra. }
      assert (bpow (g - 1) < bpow e) by lra.
      apply bpow_lt_inv in H.
      unfold n. rewrite !fexp64_eq in *. lia.
    - assert (Hd : (Zdigits2 m + e)%Z = g).
      { apply (Zdigits2_mag m e x g); [lia | assumption | assumption]. }
      unfold n. rewrite Hd. lia. }
  exists g, (round_nearest_even (shr_m (fst r)) (loc_of_shr_record (fst r))).
  split; [assumption |]. split.
  - apply rne_int_located.
    replace (x * bpow (- fexp64 g))
      with (x * bpow (- e) * bpow (- Z.max 0 n)); [exact Hl' |].
    rewrite <- HE, Rmult_assoc, <- bpow_add. f_equal. f_equal. lia.
  - now rewrite He', HE.
Qed.

(** ** What [pack] returns *)

Lemma digits2_pos_le p k :
  (0 <= k)%Z -> (Zpos p < 2 ^ k)%Z -> (Zpos (digits2_pos p) <= k)%Z.
Proof.
  intros Hk Hp. pose proof (digits2_pos_bounds p) as [Hd _].
  destruct (Z_le_gt_dec (Zpos (digits2_pos p)) k) as [| Hgt]; [assumption |].
  exfalso.
  assert (2 ^ k <= 2 ^ (Zpos (digits2_pos p) - 1))%Z
    by (apply Z.pow_le_mono_r; lia).
  lia.
Qed.

Lemma digits2_pos_ge p k :
  (2 ^ k <= Zpos p)%Z -> (k + 1 <= Zpos (digits2_pos p))%Z.
Proof.
  intros Hp. pose proof (digits2_pos_bounds p) as [_ Hd].
  destruct (Z_le_gt_dec (k + 1) (Zpos (digits2_pos p))) as [| Hgt]; [assumption |].
  exfalso.
  assert (2 ^ Zpos (digits2_pos p) <= 2 ^ k)%Z
    by (apply Z.pow_le_mono_r; lia).
  lia.
Qed.

Lemma pack_zero sx E : (-1074 <= E)%Z -> pack sx 0 E = S754_zero sx.
Proof.
  intros HE. unfold pack, shr_fexp. cbn [Zdigits2 shr_record_of_loc].
  rewrite Z.add_0_l.
  assert (Hn : (fexp64 E - E <= 0)%Z) by (rewrite fexp64_eq; lia).
  unfold shr. destruct (fexp64 E - E)%Z; try lia; reflexivity.
Qed.

Lemma pack_small sx p E :
  (-1074 <= E)%Z -> (Zpos p < 2 ^ 53)%Z ->
  pack sx (Zpos p) E =
  if (E <=? 971)%Z then S754_finite sx p E else S754_infinity sx.
Proof.
  intros HE Hp. unfold pack, shr_fexp. cbn [Zdigits2 shr_record_of_loc].
  pose proof (digits2_pos_le p 53 ltac:(lia) Hp) as Hd.
  assert (Hn : (fexp64 (Zpos (digits2_pos p) + E) - E <= 0)%Z)
    by (rewrite fexp64_eq; lia).
  unfold shr. destruct (fexp64 (Zpos (digits2_pos p) + E) - E)%Z; try lia;
    reflexivity.
Qed.

Lemma pack_top sx E :
  (-1074 <= E)%Z ->
  pack sx (2 ^ 53) E =
  if (E + 1 <=? 971)%Z then S754_finite sx (2 ^ 52) (E + 1)
  else S754_infinity sx.
Proof.
  intros HE. unfold pack, shr_fexp.
  change (Zdigits2 (2 ^ 53)) with 54%Z.
  assert (Hn : (fexp64 (54 + E) - E = 1)%Z) by (rewrite fexp64_eq; lia).
  rewrite Hn. reflexivity.
Qed.

(** ** Values of non-negative binary64 numbers *)

Lemma bounded_inv m e :
  bounded prec emax m e = true ->
  fexp64 (Zpos (digits2_pos m) + e) = e /\ (e <= 971)%Z.
Proof.
  unfold bounded, canonical_mantissa. intros H.
  apply andb_true_iff in H. destruct H as [H1 H2].
  apply Z.eqb_eq in H1. apply Z.leb_le in H2. split; [exact H1 | exact H2].
Qed.

Lemma bounded_intro m e :
  fexp64 (Zpos (digits2_pos m) + e) = e -> (e <= 971)%Z ->
  bounded prec emax m e = true.
Proof.
  intros H1 H2. unfold bounded, canonical_mantissa.
  apply andb_true_iff. split; [apply Z.eqb_eq; exact H1 | apply Z.leb_le; exact H2].
Qed.

Lemma bounded_range m e :
  bounded prec emax m e = true ->
  (-1074 <= e <= 971)%Z /\ (Zpos m < 2 ^ 53)%Z /\
  ((-1074 < e)%Z -> (2 ^ 52 <= Zpos m)%Z).
Proof.
  intros H. apply bounded_inv in H. destruct H as [H1 H2].
  rewrite fexp64_eq in H1.
  pose proof (digits2_pos_bounds m) as [Hlo Hhi].
  set (d := Zpos (digits2_pos m)) in *.
  assert (Hd : (0 < d)%Z) by (unfold d; lia).
  split; [lia |]. split.
  - assert (2 ^ d <= 2 ^ 53)%Z by (apply Z.pow_le_mono_r; lia). lia.
  - intros He. assert (d = 53)%Z by lia.
    replace 52%Z with (d - 1)%Z by lia. exact Hlo.
Qed.

Lemma F2R_pos m e : 0 < F2R (Zpos m) e.
Proof.
  unfold F2R. apply Rmult_lt_0_compat; [| apply bpow_gt_0].
  apply IZR_lt. lia.
Qed.

Lemma F2R_lt_exp m1 e1 m2 e2 :
  bounded prec emax m1 e1 = true -> bounded prec emax m2 e2 = true ->
  (e1 < e2)%Z -> F2R (Zpos m1) e1 < F2R (Zpos m2) e2.
Proof.
  intros B1 B2 He.
  apply bounded_range in B1, B2.
  destruct B1 as (R1 & U1 & _). destruct B2 as (R2 & _ & L2).
  specialize (L2 ltac:(lia)).
  unfold F2R.
  assert (H1 : IZR (Zpos m1) < bpow 53).
  { rewrite bpow_IZR by lia. apply IZR_lt. exact U1. }
  assert (H2 : bpow 52 <= IZR (Zpos m2)).
  { rewrite bpow_IZR by lia. apply IZR_le. exact L2. }
  assert (H3 : bpow (e1 + 1) <= bpow e2) by (apply bpow_le; lia).
  rewrite bpow_succ in H3.
  assert (H4 : bpow 53 = 2 * bpow 52).
  { change 53%Z with (52 + 1)%Z. apply bpow_succ. }
  pose proof (bpow_gt_0 e1). pose proof (bpow_gt_0 52).
  apply Rlt_le_trans with (bpow 53 * bpow e1).
  - apply Rmult_lt_compat_r; assumption.
  - apply Rle_trans with (bpow 52 * bpow e2).
    + rewrite H4. nra.
    + apply Rmult_le_compat_r; [apply Rlt_le, bpow_gt_0 | assumption].
Qed.

(** Comparison of non-negative numbers agrees with their values. *)
Lemma SFcompare_nonneg r1 v1 r2 v2 :
  nonneg_finite r1 v1 -> nonneg_finite r2 v2 ->
  match SFcompare r1 r2 with
  | Some Lt => v1 < v2
  | Some Eq => v1 = v2
  | Some Gt => v2 < v1
  | None => False
  end.
Proof.
  destruct r1 as [s1 | s1 | | [] m1 e1]; try contradiction;
  destruct r2 as [s2 | s2 | | [] m2 e2]; try contradiction; cbn [nonneg_finite].
  - intros -> ->. reflexivity.
  - intros -> [_ ->]. cbn. apply F2R_pos.
  - intros [_ ->] ->. cbn. apply F2R_pos.
  - intros [B1 ->] [B2 ->]. cbn [SFcompare].
    destruct (Z.compare_spec e1 e2) as [He | He | He].
    + subst e2. unfold F2R. pose proof (bpow_gt_0 e1).
      rewrite Pos.compare_cont_spec. cbn [Pos.switch_Eq].
      destruct (Pos.compare_spec m1 m2) as [Hm | Hm | Hm].
      * now subst.
      * apply Rmult_lt_compat_r; [assumption | apply IZR_lt; lia].
      * apply Rmult_lt_compat_r; [assumption | apply IZR_lt; lia].
    + now apply F2R_lt_exp.
    + now apply F2R_lt_exp.
Qed.

Lemma SFleb_nonneg r1 v1 r2 v2 :
  nonneg_finite r1 v1 -> nonneg_finite r2 v2 ->
  (SFleb r1 r2 = true <-> v1 <= v2).
Proof.
  intros H1 H2. pose proof (SFcompare_nonneg _ _ _ _ H1 H2) as H.
  unfold SFleb. destruct (SFcompare r1 r2) as [[] |]; try contradiction;
    split; intros; try lra; try reflexivity; try discriminate.
Qed.

Lemma SFltb_nonneg r1 v1 r2 v2 :
  nonneg_finite r1 v1 -> nonneg_finite r2 v2 ->
  (SFltb r1 r2 = true <-> v1 < v2).
Proof.
  intros H1 H2. pose proof (SFcompare_nonneg _ _ _ _ H1 H2) as H.
  unfold SFltb. destruct (SFcompare r1 r2) as [[] |]; try contradiction;
    split; intros; try lra; try reflexivity; try discriminate.
Qed.

Lemma nonneg_finite_nonneg r v : nonneg_finite r v -> 0 <= v.
Proof.
  destruct r as [s | s | | [] m e]; cbn [nonneg_finite]; try contradiction.
  - intros ->; lra.
  - intros [_ ->]. apply Rlt_le, F2R_pos.
Qed.

Lemma nonneg_finite_lt_top r v : nonneg_finite r v -> v < bpow 1024.
Proof.
  destruct r as [s | s | | [] m e]; cbn [nonneg_finite]; try contradiction.
  - intros ->. apply bpow_gt_0.
  - intros [B ->]. apply bounded_range in B. destruct B as (Re & U & _).
    unfold F2R.
    assert (IZR (Zpos m) < bpow 53).
    { rewrite bpow_IZR by lia. apply IZR_lt. exact U. }
    assert (bpow e <= bpow 971) by (apply bpow_le; lia).
    replace 1024%Z with (53 + 971)%Z by lia. rewrite bpow_add.
    pose proof (bpow_gt_0 e). pose proof (bpow_gt_0 53).
    apply Rlt_le_trans with (bpow 53 * bpow e).
    + apply Rmult_lt_compat_r; assumption.
    + apply Rmult_le_compat_l; lra.
Qed.

(** ** The rounded value *)

Lemma mag_scaled x g :
  mag_is x g ->
  bpow (g - 1 - fexp64 g) <= x * bpow (- fexp64 g) < bpow (g - fexp64 g).
Proof.
  intros [H1 H2]. pose proof (bpow_gt_0 (- fexp64 g)) as Hp.
  unfold Z.sub at 1 3. rewrite !bpow_add. split.
  - apply Rmult_le_compat_r; [lra | exact H1].
  - apply Rmult_lt_compat_r; assumption.
Qed.

Lemma rne_scaled_range x g N :
  mag_is x g -> rne_int (x * bpow (- fexp64 g)) N ->
  (0 <= N <= 2 ^ 53)%Z /\ ((-1074 < fexp64 g)%Z -> (2 ^ 52 <= N)%Z).
Proof.
  intros Hg HN. pose proof (mag_scaled x g Hg) as [Hlo Hhi].
  set (t := x * bpow (- fexp64 g)) in *.
  split; [split |].
  - apply (rne_int_ge t); [assumption |].
    pose proof (bpow_gt_0 (g - 1 - fexp64 g)). lra.
  - apply (rne_int_le t); [assumption |].
    rewrite <- bpow_IZR by lia.
    assert (bpow (g - fexp64 g) <= bpow 53)
      by (apply bpow_le; rewrite fexp64_eq; lia).
    lra.
  - intros HE. apply (rne_int_ge t); [assumption |].
    rewrite <- bpow_IZR by lia.
    assert (bpow 52 <= bpow (g - 1 - fexp64 g))
      by (apply bpow_le; rewrite fexp64_eq in *; lia).
    lra.
Qed.

Lemma IZR_pow2_succ k : (0 <= k)%Z -> IZR (2 ^ (k + 1)) = 2 * IZR (2 ^ k).
Proof.
  intros Hk. rewrite Z.pow_add_r by lia. rewrite mult_IZR.
  change (IZR (2 ^ 1)) with 2. ring.
Qed.

Lemma rounds_to_den x r :
  rounds_to x r ->
  exists v, rnd_val x v /\
            (nonneg_finite r v \/ (bpow 1024 <= v /\ r = S754_infinity false)).
Proof.
  intros (g & N & Hg & HN & ->).
  exists (IZR N * bpow (fexp64 g)). split; [exists g, N; auto |].
  destruct (rne_scaled_range x g N Hg HN) as [[HN0 HN1] Hnorm].
  set (E := fexp64 g) in *.
  assert (HE : (-1074 <= E)%Z) by (unfold E; rewrite fexp64_eq; lia).
  pose proof (bpow_gt_0 E) as HbE.
  destruct N as [| p | p]; [| | lia].
  - left. rewrite pack_zero by assumption. cbn [nonneg_finite]. lra.
  - destruct (Z.eq_dec (Zpos p) (2 ^ 53)) as [Heq | Hne].
    + rewrite Heq, pack_top by assumption.
      destruct (Z.leb_spec (E + 1) 971) as [Hle | Hgt].
      * left. cbn [nonneg_finite]. split.
        -- apply bounded_intro; [| assumption].
           change (Zpos (digits2_pos (2 ^ 52))) with 53%Z.
           rewrite fexp64_eq. lia.
        -- unfold F2R. rewrite bpow_succ.
           change (Zpos (2 ^ 52)) with (2 ^ 52)%Z.
           change (2 ^ 53)%Z with (2 ^ (52 + 1))%Z.
           rewrite IZR_pow2_succ by lia. ring.
      * right. split; [| reflexivity].
        rewrite <- bpow_IZR, <- bpow_add by lia. apply bpow_le. lia.
    + assert (Hp : (Zpos p < 2 ^ 53)%Z) by lia.
      rewrite pack_small by assumption.
      destruct (Z.leb_spec E 971) as [Hle | Hgt].
      * left. cbn [nonneg_finite]. split; [| reflexivity].
        apply bounded_intro; [| assumption].
        pose proof (digits2_pos_le p 53 ltac:(lia) Hp) as Hd.
        rewrite fexp64_eq.
        destruct (Z.eq_dec E (-1074)) as [HEm | HEm]; [lia |].
        specialize (Hnorm ltac:(lia)).
        pose proof (digits2_pos_ge p 52 Hnorm). lia.
      * right. split; [| reflexivity].
        specialize (Hnorm ltac:(lia)).
        assert (bpow 52 <= IZR (Zpos p)).
        { rewrite bpow_IZR by lia. now apply IZR_le. }
        assert (bpow 972 <= bpow E) by (apply bpow_le; lia).
        replace 1024%Z with (52 + 972)%Z by lia. rewrite bpow_add.
        pose proof (bpow_gt_0 52). pose proof (bpow_gt_0 972).
        apply Rle_trans with (bpow 52 * bpow E).
        -- apply Rmult_le_compat_l; lra.
        -- apply Rmult_le_compat_r; lra.
Qed.

Lemma rnd_val_nonneg x v : rnd_val x v -> 0 <= v.
Proof.
  intros (g & N & Hg & HN & ->).
  destruct (rne_scaled_range x g N Hg HN) as [[HN0 _] _].
  apply Rmult_le_pos; [apply IZR_le; lia | apply Rlt_le, bpow_gt_0].
Qed.

Lemma rnd_val_mono x y v w :
  rnd_val x v -> rnd_val y w -> x <= y -> v <= w.
Proof.
  intros (g & N & Hg & HN & ->) (g' & N' & Hg' & HN' & ->) Hxy.
  pose proof (mag_is_le _ _ _ _ Hg Hg' Hxy) as Hgg.
  destruct (rne_scaled_range x g N Hg HN) as [[HN0 HN1] _].
  destruct (rne_scaled_range y g' N' Hg' HN') as [[HN0' HN1'] Hnorm'].
  assert (HEE : (fexp64 g <= fexp64 g')%Z) by (rewrite !fexp64_eq; lia).
  destruct (Z.eq_dec (fexp64 g) (fexp64 g')) as [Heq | Hne].
  - rewrite <- Heq in *.
    pose proof (bpow_gt_0 (fexp64 g)). pose proof (bpow_gt_0 (- fexp64 g)).
    assert (N <= N')%Z.
    { apply (rne_int_mono _ _ _ _ HN HN').
      apply Rmult_le_compat_r; lra. }
    apply Rmult_le_compat_r; [lra | now apply IZR_le].
  - assert (HE : (fexp64 g + 1 <= fexp64 g')%Z) by lia.
    pose proof (fexp64_eq g) as Hfg. pose proof (fexp64_eq g') as Hfg'.
    specialize (Hnorm' ltac:(lia)).
    assert (H1 : IZR N <= bpow 53).
    { rewrite bpow_IZR by lia. now apply IZR_le. }
    assert (H2 : bpow 52 <= IZR N').
    { rewrite bpow_IZR by lia. now apply IZR_le. }
    assert (H3 : bpow (fexp64 g + 1) <= bpow (fexp64 g')) by now apply bpow_le.
    rewrite bpow_succ in H3.
    assert (H4 : bpow 53 = 2 * bpow 52).
    { change 53%Z with (52 + 1)%Z. apply bpow_succ. }
    pose proof (bpow_gt_0 (fexp64 g)). pose proof (bpow_gt_0 52).
    apply Rle_trans with (bpow 53 * bpow (fexp64 g)).
    + apply Rmult_le_compat_r; lra.
    + apply Rle_trans with (bpow 52 * bpow (fexp64 g')).
      * rewrite H4. nra.
      * apply Rmult_le_compat_r; [apply Rlt_le, bpow_gt_0 | assumption].
Qed.

Lemma rnd_val_unique x v w : rnd_val x v -> rnd_val x w -> v = w.
Proof.
  intros H1 H2.
  pose proof (rnd_val_mono _ _ _ _ H1 H2 (Rle_refl x)).
  pose proof (rnd_val_mono _ _ _ _ H2 H1 (Rle_refl x)). lra.
Qed.

(** A value on the grid of its own binade is its own rounding. *)
Lemma rnd_val_grid x g k v :
  mag_is x g -> x = IZR k * bpow (fexp64 g) -> rnd_val x v -> v = x.
Proof.
  intros Hg Hx (g' & N & Hg' & HN & ->).
  assert (g' = g) by (eapply mag_is_unique; eassumption). subst g'.
  assert (Ht : x * bpow (- fexp64 g) = IZR k).
  { rewrite Hx, Rmult_assoc, bpow_cancel. ring. }
  rewrite Ht in HN. apply rne_int_IZR in HN. now subst.
Qed.

Lemma rnd_val_error x g v :
  mag_is x g -> rnd_val x v ->
  v - bpow (fexp64 g) / 2 <= x <= v + bpow (fexp64 g) / 2.
Proof.
  intros Hg (g' & N & Hg' & HN & ->).
  assert (g' = g) by (eapply mag_is_unique; eassumption). subst g'.
  destruct HN as [[H1 H2] _].
  pose proof (bpow_gt_0 (fexp64 g)) as Hp.
  assert (Hx : x = x * bpow (- fexp64 g) * bpow (fexp64 g)).
  { rewrite Rmult_assoc, (Rmult_comm (bpow (- _))), bpow_cancel. ring. }
  set (t := x * bpow (- fexp64 g)) in *.
  rewrite Hx. nra.
Qed.

(** ** Valid numbers round to themselves *)

Lemma F2R_mag p e : mag_is (F2R (Zpos p) e) (Zpos (digits2_pos p) + e).
Proof.
  pose proof (digits2_pos_bounds p) as [Hlo Hhi].
  set (d := Zpos (digits2_pos p)) in *.
  assert (Hd : (0 < d)%Z) by (unfold d; lia).
  unfold mag_is, F2R.
  replace (d + e - 1)%Z with ((d - 1) + e)%Z by lia.
  rewrite !bpow_add. pose proof (bpow_gt_0 e).
  split.
  - apply Rmult_le_compat_r; [lra |].
    rewrite bpow_IZR by lia. now apply IZR_le.
  - apply Rmult_lt_compat_r; [assumption |].
    rewrite bpow_IZR by lia. now apply IZR_lt.
Qed.

Lemma rne_int_self m : rne_int (IZR m) m.
Proof. split; [lra |]. intros [? | ?]; lra. Qed.

Lemma rounds_to_float m e :
  bounded prec emax m e = true ->
  rounds_to (F2R (Zpos m) e) (S754_finite false m e).
Proof.
  intros B. pose proof (bounded_inv _ _ B) as [Hc He].
  pose proof (bounded_range _ _ B) as (Hr & Hm & _).
  exists (Zpos (digits2_pos m) + e)%Z, (Zpos m).
  split; [apply F2R_mag |]. rewrite Hc. split.
  - unfold F2R. rewrite Rmult_assoc, bpow_cancel, Rmult_1_r. apply rne_int_self.
  - rewrite pack_small by lia.
    destruct (Z.leb_spec e 971); [reflexivity | lia].
Qed.

Lemma rounds_to_float_inv m e r :
  bounded prec emax m e = true ->
  rounds_to (F2R (Zpos m) e) r -> r = S754_finite false m e.
Proof.
  intros B (g & N & Hg & HN & ->).
  pose proof (bounded_inv _ _ B) as [Hc He].
  pose proof (bounded_range _ _ B) as (Hr & Hm & _).
  assert (g = (Zpos (digits2_pos m) + e)%Z)
    by (eapply mag_is_unique; [eassumption | apply F2R_mag]).
  subst g. rewrite Hc in *.
  unfold F2R in HN. rewrite Rmult_assoc, bpow_cancel, Rmult_1_r in HN.
  apply rne_int_IZR in HN. subst N.
  rewrite pack_small by lia.
  destruct (Z.leb_spec e 971); [reflexivity | lia].
Qed.

Lemma rnd_val_float m e v :
  bounded prec emax m e = true -> rnd_val (F2R (Zpos m) e) v ->
  v = F2R (Zpos m) e.
Proof.
  intros B H. pose proof (bounded_inv _ _ B) as [Hc He].
  apply (rnd_val_grid _ (Zpos (digits2_pos m) + e) (Zpos m));
    [apply F2R_mag | now rewrite Hc | assumption].
Qed.

(** ** Alignment and [binary_round] *)

Lemma Pos_iter_xO m d : Zpos (Pos.iter xO m d) = (Zpos m * 2 ^ Zpos d)%Z.
Proof.
  induction d as [| d IH] using Pos.peano_ind.
  - cbn. lia.
  - rewrite Pos.iter_succ, Pos2Z.inj_xO, IH, Pos2Z.inj_succ, Z.pow_succ_r by lia.
    lia.
Qed.

Lemma F2R_shift m e k :
  (0 <= k)%Z -> F2R (m * 2 ^ k) (e - k) = F2R m e.
Proof.
  intros Hk. unfold F2R. rewrite mult_IZR, <- bpow_IZR by assumption.
  rewrite Rmult_assoc, <- bpow_add. f_equal. f_equal. lia.
Qed.

Lemma shl_align_spec mx ex ex' :
  let r := shl_align mx ex ex' in
  F2R (Zpos (fst r)) (snd r) = F2R (Zpos mx) ex /\
  snd r = Z.min ex ex'.
Proof.
  unfold shl_align. destruct (ex' - ex)%Z as [| d | d] eqn:Hd; cbn [fst snd].
  - split; [reflexivity | lia].
  - split; [reflexivity | lia].
  - split; [| lia].
    rewrite Pos_iter_xO.
    replace ex' with (ex - Zpos d)%Z by lia.
    apply F2R_shift. lia.
Qed.

Lemma F2R_scaled m e : F2R m e * bpow (- e) = IZR m.
Proof. unfold F2R. now rewrite Rmult_assoc, bpow_cancel, Rmult_1_r. Qed.

Lemma binary_round_rounds mx ex :
  rounds_to (F2R (Zpos mx) ex) (binary_round prec emax false mx ex).
Proof.
  unfold binary_round.
  pose proof (shl_align_spec mx ex (fexp64 (Zpos (digits2_pos mx) + ex)))
    as [Hv He].
  destruct (shl_align mx ex _) as [mz ez]. cbn [fst snd] in *.
  rewrite <- Hv.
  apply (binary_round_aux_rounds _ _ _ _ (Zpos (digits2_pos mx) + ex)).
  - lia.
  - cbn [located]. apply F2R_scaled.
  - rewrite Hv. apply F2R_mag.
  - lia.
Qed.

(** ** Addition and subtraction *)

Lemma shl_align_min_l mx ex ey :
  F2R (Zpos (fst (shl_align mx ex (Z.min ex ey)))) (Z.min ex ey)
  = F2R (Zpos mx) ex.
Proof.
  pose proof (shl_align_spec mx ex (Z.min ex ey)) as [Hv He].
  cbv zeta in *. rewrite <- Hv. f_equal. rewrite He. lia.
Qed.

Lemma shl_align_min_r my ex ey :
  F2R (Zpos (fst (shl_align my ey (Z.min ex ey)))) (Z.min ex ey)
  = F2R (Zpos my) ey.
Proof.
  pose proof (shl_align_spec my ey (Z.min ex ey)) as [Hv He].
  cbv zeta in *. rewrite <- Hv. f_equal. rewrite He. lia.
Qed.

Lemma F2R_plus a b e : F2R (a + b) e = F2R a e + F2R b e.
Proof. unfold F2R. rewrite plus_IZR. ring. Qed.

Lemma F2R_minus a b e : F2R (a - b) e = F2R a e - F2R b e.
Proof. unfold F2R. rewrite minus_IZR. ring. Qed.

Lemma SFadd_finite_rounds mx ex my ey :
  rounds_to (F2R (Zpos mx) ex + F2R (Zpos my) ey)
            (SFadd prec emax (S754_finite false mx ex) (S754_finite false my ey)).
Proof.
  cbn [SFadd cond_Zopp].
  rewrite <- (shl_align_min_l mx ex ey), <- (shl_align_min_r my ex ey).
  rewrite <- F2R_plus.
  set (ez := Z.min ex ey).
  destruct (fst (shl_align mx ex ez)) as [] eqn:?;
  destruct (fst (shl_align my ey ez)) as [] eqn:?;
  cbn [Z.add binary_normalize]; apply binary_round_rounds.
Qed.

(** Sum of two non-negative numbers, not both zero. *)
Lemma SFadd_nonneg_rounds a va b vb :
  nonneg_finite a va -> nonneg_finite b vb -> 0 < va + vb ->
  rounds_to (va + vb) (SFadd prec emax a b).
Proof.
  destruct a as [sa | sa | | [] ma ea]; try contradiction;
  destruct b as [sb | sb | | [] mb eb]; try contradiction;
  cbn [nonneg_finite].
  - intros -> ->. lra.
  - intros -> [B ->] _. rewrite Rplus_0_l. cbn [SFadd].
    now apply rounds_to_float.
  - intros [B ->] -> _. rewrite Rplus_0_r. cbn [SFadd].
    now apply rounds_to_float.
  - intros [Ba ->] [Bb ->] _. apply SFadd_finite_rounds.
Qed.

Lemma SFsub_finite_rounds mx ex my ey :
  F2R (Zpos my) ey < F2R (Zpos mx) ex ->
  rounds_to (F2R (Zpos mx) ex - F2R (Zpos my) ey)
            (SFsub prec emax (S754_finite false mx ex) (S754_finite false my ey)).
Proof.
  intros Hlt. cbn [SFsub cond_Zopp].
  rewrite <- (shl_align_min_l mx ex ey), <- (shl_align_min_r my ex ey) in *.
  rewrite <- F2R_minus.
  set (ez := Z.min ex ey) in *.
  set (a := fst (shl_align mx ex ez)) in *.
  set (b := fst (shl_align my ey ez)) in *.
  assert (Hab : (Zpos b < Zpos a)%Z).
  { unfold F2R in Hlt. pose proof (bpow_gt_0 ez).
    apply lt_IZR. nra. }
  destruct (Zpos a - Zpos b)%Z as [| k | k] eqn:Hk; try lia.
  cbn [binary_normalize]. apply binary_round_rounds.
Qed.

(** Difference of two non-negative numbers, the first one larger. *)
Lemma SFsub_nonneg_rounds a va b vb :
  nonneg_finite a va -> nonneg_finite b vb -> vb < va ->
  rounds_to (va - vb) (SFsub prec emax a b).
Proof.
  destruct a as [sa | sa | | [] ma ea]; try contradiction;
  destruct b as [sb | sb | | [] mb eb]; try contradiction;
  cbn [nonneg_finite].
  - intros -> ->. lra.
  - intros -> [B ->] H. pose proof (F2R_pos mb eb). lra.
  - intros [B ->] -> _. rewrite Rminus_0_r. cbn [SFsub].
    now apply rounds_to_float.
  - intros [Ba ->] [Bb ->] H. now apply SFsub_finite_rounds.
Qed.

(** ** Multiplication *)

Lemma F2R_mult a ea b eb : F2R (a * b) (ea + eb) = F2R a ea * F2R b eb.
Proof. unfold F2R. rewrite mult_IZR, bpow_add. ring. Qed.

Lemma digits2_pos_mul a b :
  (Zpos (digits2_pos a) + Zpos (digits2_pos b) - 1
   <= Zpos (digits2_pos (a * b)))%Z.
Proof.
  pose proof (digits2_pos_bounds a) as [Ha _].
  pose proof (digits2_pos_bounds b) as [Hb _].
  set (da := Zpos (digits2_pos a)) in *. set (db := Zpos (digits2_pos b)) in *.
  assert (0 < da)%Z by (unfold da; lia). assert (0 < db)%Z by (unfold db; lia).
  pose proof (digits2_pos_ge (a * b) (da + db - 2)) as H1.
  assert (H1' : (2 ^ (da + db - 2) <= Zpos (a * b))%Z).
  { replace (da + db - 2)%Z with ((da - 1) + (db - 1))%Z by lia.
    rewrite Z.pow_add_r, Pos2Z.inj_mul by lia.
    apply Z.mul_le_mono_nonneg; try lia;
      apply Z.pow_nonneg; lia. }
  specialize (H1 H1'). lia.
Qed.

Lemma SFmul_finite_rounds mx ex my ey :
  bounded prec emax mx ex = true -> bounded prec emax my ey = true ->
  rounds_to (F2R (Zpos mx) ex * F2R (Zpos my) ey)
            (SFmul prec emax (S754_finite false mx ex) (S754_finite false my ey)).
Proof.
  intros Bx By. cbn [SFmul xorb].
  rewrite <- F2R_mult. change (Zpos mx * Zpos my)%Z with (Zpos (mx * my)).
  apply (binary_round_aux_rounds _ _ _ _ (Zpos (digits2_pos (mx * my)) + (ex + ey))).
  - lia.
  - cbn [located]. apply F2R_scaled.
  - apply F2R_mag.
  - pose proof (digits2_pos_mul mx my).
    apply bounded_inv in Bx, By. destruct Bx as [Cx _]. destruct By as [Cy _].
    pose proof (digits2_pos_bounds mx). pose proof (digits2_pos_bounds my).
    rewrite fexp64_eq in *. lia.
Qed.

(** ** Division *)

Lemma new_location_located d q r :
  (0 < d)%Z -> (0 <= r < d)%Z ->
  located (IZR q + IZR r / IZR d) q (new_location d r).
Proof.
  intros Hd Hr.
  assert (HdR : 0 < IZR d) by (apply IZR_lt; lia).
  set (u := IZR r / IZR d).
  assert (Hu : u * IZR d = IZR r) by (unfold u; field; lra).
  assert (Hcmp : forall a b : Z, (a < b)%Z -> IZR a < IZR b) by (intros; now apply IZR_lt).
  unfold new_location.
  destruct (Z.even d) eqn:Hev.
  - unfold new_location_even.
    destruct (Z.eqb_spec r 0) as [-> | Hnz].
    + cbn [located]. unfold u. rewrite Rdiv_0_l. lra.
    + assert (0 < IZR r) by (apply IZR_lt; lia).
      destruct (Z.compare_spec (2 * r) d) as [He | He | He]; cbn [located].
      * assert (2 * IZR r = IZR d) by (rewrite <- He, mult_IZR; reflexivity).
        nra.
      * apply Hcmp in He. rewrite mult_IZR in He. nra.
      * apply Hcmp in He. rewrite mult_IZR in He.
        assert (IZR r < IZR d) by (apply IZR_lt; lia). nra.
  - unfold new_location_odd.
    destruct (Z.eqb_spec r 0) as [-> | Hnz].
    + cbn [located]. unfold u. rewrite Rdiv_0_l. lra.
    + assert (0 < IZR r) by (apply IZR_lt; lia).
      assert (Hodd : (2 * r <> d)%Z).
      { intros <-. rewrite Z.even_mul in Hev. discriminate. }
      destruct (Z.compare_spec (2 * r + 1) d) as [He | He | He]; cbn [located].
      * assert (Hlt : (2 * r < d)%Z) by lia.
        apply Hcmp in Hlt. rewrite mult_IZR in Hlt. nra.
      * assert (Hlt : (2 * r < d)%Z) by lia.
        apply Hcmp in Hlt. rewrite mult_IZR in Hlt. nra.
      * assert (Hlt : (d < 2 * r)%Z) by lia.
        apply Hcmp in Hlt. rewrite mult_IZR in Hlt.
        assert (IZR r < IZR d) by (apply IZR_lt; lia). nra.
Qed.

Lemma mag_is_div x gx y gy :
  mag_is x gx -> mag_is y gy ->
  mag_is (x / y) (gx - gy) \/ mag_is (x / y) (gx - gy + 1).
Proof.
  intros [Hx1 Hx2] [Hy1 Hy2].
  pose proof (bpow_gt_0 (gx - 1)). pose proof (bpow_gt_0 (gy - 1)).
  assert (Hy : 0 < y) by lra.
  assert (Hq : x / y * y = x) by (field; lra).
  set (q := x / y) in *.
  assert (Hgx : bpow gx = bpow (gx - gy) * bpow gy).
  { rewrite <- bpow_add. f_equal. lia. }
  assert (Hgx1 : bpow (gx - 1) = bpow (gx - gy) * bpow (gy - 1)).
  { rewrite <- bpow_add. f_equal. lia. }
  assert (H2 : bpow gy = 2 * bpow (gy - 1)).
  { rewrite <- bpow_succ. f_equal. lia. }
  assert (H3 : bpow (gx - gy + 1) = 2 * bpow (gx - gy)) by apply bpow_succ.
  assert (H4 : bpow (gx - gy) = 2 * bpow (gx - gy - 1)).
  { rewrite <- bpow_succ. f_equal. lia. }
  pose proof (bpow_gt_0 (gx - gy - 1)) as Hp.
  assert (Hlo : bpow (gx - gy - 1) < q).
  { destruct (Rlt_le_dec (bpow (gx - gy - 1)) q) as [| Hle]; [assumption |].
    exfalso. assert (q * y <= bpow (gx - gy - 1) * y)
      by (apply Rmult_le_compat_r; lra). nra. }
  assert (Hhi : q < bpow (gx - gy + 1)).
  { destruct (Rlt_le_dec q (bpow (gx - gy + 1))) as [| Hle]; [assumption |].
    exfalso. assert (bpow (gx - gy + 1) * y <= q * y)
      by (apply Rmult_le_compat_r; lra). nra. }
  unfold mag_is.
  destruct (Rlt_le_dec q (bpow (gx - gy))) as [Hc | Hc].
  - left. lra.
  - right. replace (gx - gy + 1 - 1)%Z with (gx - gy)%Z by lia. lra.
Qed.

Lemma SFdiv_finite_rounds mx ex my ey :
  rounds_to (F2R (Zpos mx) ex / F2R (Zpos my) ey)
            (SFdiv prec emax (S754_finite false mx ex) (S754_finite false my ey)).
Proof.
  cbn [SFdiv xorb]. unfold SFdiv_core_binary. cbn [Zdigits2].
  set (gx := (Zpos (digits2_pos mx) + ex)%Z).
  set (gy := (Zpos (digits2_pos my) + ey)%Z).
  set (e' := Z.min (fexp64 (gx - gy)) (ex - ey)).
  set (s := (ex - ey - e')%Z).
  assert (Hs : (0 <= s)%Z) by (unfold s, e'; lia).
  set (m' := match s with
             | 0%Z => Zpos mx
             | Zpos _ => Z.shiftl (Zpos mx) s
             | Zneg _ => 0%Z
             end).
  assert (Hm' : m' = (Zpos mx * 2 ^ s)%Z).
  { unfold m'. destruct s as [| p | p] eqn:Es; try lia.
    now rewrite Z.shiftl_mul_pow2 by lia. }
  pose proof (Z_div_mod m' (Zpos my) ltac:(lia)) as Hdm.
  destruct (Z.div_eucl m' (Zpos my)) as [q r]. destruct Hdm as [Hdiv Hr].
  assert (Hm'0 : (0 <= m')%Z).
  { rewrite Hm'. apply Z.mul_nonneg_nonneg; [lia | apply Z.pow_nonneg; lia]. }
  assert (Hq : (0 <= q)%Z) by nia.
  pose proof (F2R_pos mx ex) as Hxp. pose proof (F2R_pos my ey) as Hyp.
  assert (Hval : F2R (Zpos mx) ex / F2R (Zpos my) ey * bpow (- e')
                 = IZR q + IZR r / IZR (Zpos my)).
  { assert (IZR m' = IZR (Zpos my) * IZR q + IZR r)
      by (rewrite Hdiv, plus_IZR, mult_IZR; reflexivity).
    assert (IZR m' = IZR (Zpos mx) * bpow s)
      by (rewrite Hm', mult_IZR, bpow_IZR by assumption; reflexivity).
    assert (Hb : bpow ex = bpow s * bpow ey * bpow e').
    { rewrite <- !bpow_add. f_equal. unfold s. lia. }
    pose proof (bpow_cancel e') as Hc.
    pose proof (bpow_gt_0 ey). pose proof (bpow_gt_0 e'). pose proof (bpow_gt_0 s).
    assert (0 < IZR (Zpos my)) by (apply IZR_lt; lia).
    unfold F2R in *. rewrite Hb.
    replace (IZR (Zpos mx) * (bpow s * bpow ey * bpow e') /
             (IZR (Zpos my) * bpow ey) * bpow (- e'))
      with (IZR (Zpos mx) * bpow s / IZR (Zpos my) * (bpow e' * bpow (- e')))
      by (field; lra).
    rewrite Hc, <- H0, H. field. lra. }
  destruct (mag_is_div _ gx _ gy (F2R_mag mx ex) (F2R_mag my ey)) as [Hg | Hg].
  - apply (binary_round_aux_rounds _ _ _ _ (gx - gy)); try assumption.
    + rewrite Hval. apply new_location_located; lia.
    + unfold e'. lia.
  - apply (binary_round_aux_rounds _ _ _ _ (gx - gy + 1)); try assumption.
    + rewrite Hval. apply new_location_located; lia.
    + unfold e'. rewrite !fexp64_eq. lia.
Qed.

(** ** Square root *)

Lemma sqrt_bpow_double e : R_sqrt.sqrt (bpow (2 * e)) = bpow e.
Proof.
  replace (2 * e)%Z with (e + e)%Z by lia. rewrite bpow_add.
  apply sqrt_square. apply Rlt_le, bpow_gt_0.
Qed.

Lemma sqrtrem_located m q r :
  (0 <= r <= 2 * q)%Z -> (m = q * q + r)%Z ->
  located (R_sqrt.sqrt (IZR m)) q
          (if (r =? 0)%Z then loc_Exact
           else loc_Inexact (if (r <=? q)%Z then Lt else Gt)).
Proof.
  intros Hr Hm.
  assert (Hq : (0 <= q)%Z) by lia.
  assert (HqR : 0 <= IZR q) by (apply IZR_le; lia).
  assert (HmR : IZR m = IZR q * IZR q + IZR r)
    by (rewrite Hm, plus_IZR, mult_IZR; reflexivity).
  assert (HrR : 0 <= IZR r <= 2 * IZR q).
  { split; [apply IZR_le; lia |]. rewrite <- mult_IZR. apply IZR_le; lia. }
  assert (Hm0 : 0 <= IZR m) by nra.
  pose proof (sqrt_sqrt _ Hm0) as HS. pose proof (sqrt_pos (IZR m)) as HS0.
  set (S := R_sqrt.sqrt (IZR m)) in *.
  destruct (Z.eqb_spec r 0) as [-> | Hnz].
  - cbn [located]. nra.
  - assert (1 <= IZR r) by (apply IZR_le; lia).
    destruct (Z.leb_spec r q) as [Hle | Hgt]; cbn [located].
    + apply IZR_le in Hle. split; nra.
    + assert (IZR q + 1 <= IZR r)
        by (rewrite <- plus_IZR; apply IZR_le; lia).
      split; nra.
Qed.

Lemma mag_is_sqrt x g :
  mag_is x g -> mag_is (R_sqrt.sqrt x) (Z.div2 (g + 1)).
Proof.
  intros [H1 H2]. rewrite Z.div2_div.
  pose proof (Z.div_mod (g + 1) 2 ltac:(lia)) as Hd.
  pose proof (Z.mod_pos_bound (g + 1) 2 ltac:(lia)) as Hb.
  set (G := ((g + 1) / 2)%Z) in *.
  pose proof (bpow_gt_0 (g - 1)).
  unfold mag_is. split.
  - rewrite <- (sqrt_bpow_double (G - 1)).
    apply sqrt_le_1_alt.
    apply Rle_trans with (bpow (g - 1)); [apply bpow_le; lia | assumption].
  - rewrite <- (sqrt_bpow_double G).
    apply sqrt_lt_1_alt. split; [lra |].
    apply Rlt_le_trans with (bpow g); [assumption | apply bpow_le; lia].
Qed.

Lemma SFsqrt_finite_rounds mx ex :
  rounds_to (R_sqrt.sqrt (F2R (Zpos mx) ex))
            (SFsqrt prec emax (S754_finite false mx ex)).
Proof.
  cbn [SFsqrt]. unfold SFsqrt_core_binary. cbn [Zdigits2].
  set (g := (Zpos (digits2_pos mx) + ex)%Z).
  set (e' := Z.min (fexp64 (Z.div2 (g + 1))) (Z.div2 ex)).
  set (s := (ex - 2 * e')%Z).
  assert (Hs : (0 <= s)%Z).
  { unfold s, e'. rewrite (Z.div2_div ex).
    pose proof (Z.div_mod ex 2 ltac:(lia)).
    pose proof (Z.mod_pos_bound ex 2 ltac:(lia)). lia. }
  set (m' := match s with
             | 0%Z => Zpos mx
             | Zpos _ => Z.shiftl (Zpos mx) s
             | Zneg _ => 0%Z
             end).
  assert (Hm' : m' = (Zpos mx * 2 ^ s)%Z).
  { unfold m'. destruct s as [| p | p] eqn:Es; try lia.
    now rewrite Z.shiftl_mul_pow2 by lia. }
  assert (Hm'0 : (0 <= m')%Z).
  { rewrite Hm'. apply Z.mul_nonneg_nonneg; [lia | apply Z.pow_nonneg; lia]. }
  pose proof (Z.sqrtrem_spec m' Hm'0) as Hsq.
  destruct (Z.sqrtrem m') as [q r]. destruct Hsq as [Hqr Hr].
  assert (Hval : R_sqrt.sqrt (F2R (Zpos mx) ex) * bpow (- e') = R_sqrt.sqrt (IZR m')).
  { assert (Hx : F2R (Zpos mx) ex = IZR m' * bpow (2 * e')).
    { rewrite Hm', mult_IZR, <- bpow_IZR by assumption.
      unfold F2R. rewrite Rmult_assoc, <- bpow_add. f_equal. f_equal.
      unfold s. lia. }
    rewrite Hx, sqrt_mult_alt by (apply IZR_le; lia).
    rewrite sqrt_bpow_double, Rmult_assoc, bpow_cancel. ring. }
  apply (binary_round_aux_rounds _ _ _ _ (Z.div2 (g + 1))).
  - lia.
  - rewrite Hval. apply sqrtrem_located; [lia | lia].
  - apply mag_is_sqrt. apply F2R_mag.
  - unfold e'. lia.
Qed.

(** ** Results with overflow *)

Lemma result_of_nonneg w r : result_of w r -> 0 <= w.
Proof.
  intros [H | [H _]]; [eapply nonneg_finite_nonneg; eassumption |].
  pose proof (bpow_gt_0 1024). lra.
Qed.

Lemma result_of_le w r w' r' :
  result_of w r -> result_of w' r' -> w <= w' -> SFleb r r' = true.
Proof.
  intros [H | [H ->]] [H' | [H' ->]] Hle.
  - now apply (SFleb_nonneg r w r' w').
  - destruct r as [s | s | | [] m e]; try contradiction; reflexivity.
  - apply nonneg_finite_lt_top in H'. lra.
  - reflexivity.
Qed.

Lemma le_ext_SFleb r r' : le_ext r r' -> SFleb r r' = true.
Proof. intros (w & w' & H & H' & Hle). eapply result_of_le; eassumption. Qed.

Lemma rounds_to_result x r :
  rounds_to x r -> exists w, rnd_val x w /\ result_of w r.
Proof. apply rounds_to_den. Qed.

Lemma rounds_to_pos x r : rounds_to x r -> 0 < x.
Proof.
  intros (g & N & [Hg _] & _). pose proof (bpow_gt_0 (g - 1)). lra.
Qed.

Lemma rnd0_nonneg x v : rnd0 x v -> 0 <= v.
Proof.
  intros [[_ ->] | [_ H]]; [lra | eapply rnd_val_nonneg; eassumption].
Qed.

Lemma rnd0_mono x y v w : rnd0 x v -> rnd0 y w -> x <= y -> v <= w.
Proof.
  intros [[-> ->] | [Hx Hv]] Hy Hle.
  - eapply rnd0_nonneg; eassumption.
  - destruct Hy as [[-> ->] | [Hy Hw]]; [lra |].
    eapply rnd_val_mono; eassumption.
Qed.

(** A non-negative valid operand is worth its value; a comparison with zero
    on the left tells the operand is non-negative. *)
Lemma nonneg_cases a :
  valid_binary a = true -> SFleb (S754_zero false) a = true ->
  (exists v, nonneg_finite a v) \/ a = S754_infinity false.
Proof.
  intros Hv Hle.
  destruct a as [s | [] | | [] m e]; try discriminate.
  - left. exists 0. reflexivity.
  - now right.
  - left. exists (F2R (Zpos m) e). split; [exact Hv | reflexivity].
Qed.

Lemma SFleb_nonneg_right a v b :
  valid_binary b = true -> nonneg_finite a v -> SFleb a b = true ->
  (exists v', nonneg_finite b v') \/ b = S754_infinity false.
Proof.
  intros Hv Ha Hle.
  destruct b as [s | [] | | [] m e].
  - left. exists 0. reflexivity.
  - destruct a as [? | ? | | [] ? ?]; try contradiction; discriminate.
  - now right.
  - destruct a as [? | ? | | [] ? ?]; try contradiction; discriminate.
  - destruct a as [? | ? | | [] ? ?]; try contradiction; discriminate.
  - left. exists (F2R (Zpos m) e). split; [exact Hv | reflexivity].
Qed.

Lemma le_ext_intro a b :
  valid_binary a = true -> valid_binary b = true ->
  SFleb (S754_zero false) a = true -> SFleb a b = true -> le_ext a b.
Proof.
  intros Va Vb H0 Hab.
  destruct (nonneg_cases a Va H0) as [[v Hv] | ->].
  - destruct (SFleb_nonneg_right a v b Vb Hv Hab) as [[v' Hv'] | ->].
    + exists v, v'. repeat split; [now left | now left |].
      now apply (SFleb_nonneg a v b v').
    + exists v, (Rmax v (bpow 1024)). repeat split.
      * now left.
      * right. split; [apply Rmax_r | reflexivity].
      * apply Rmax_l.
  - destruct b as [s | [] | | [] m e]; try discriminate.
    exists (bpow 1024), (bpow 1024).
    repeat split; try (right; split; [lra | reflexivity]). lra.
Qed.

(** A monotone operation that rounds a monotone real function keeps the
    order, overflow included. *)
Lemma le_ext_lift (op : spec_float -> spec_float) (f : R -> R) :
  (forall a v, nonneg_finite a v ->
     exists u, rnd0 (f v) u /\ result_of u (op a)) ->
  (forall v v', 0 <= v -> v <= v' -> f v <= f v') ->
  op (S754_infinity false) = S754_infinity false ->
  forall a a', le_ext a a' -> le_ext (op a) (op a').
Proof.
  intros Hop Hf Hinf a a' (w & w' & [Ha | [Ha ->]] & [Ha' | [Ha' ->]] & Hle).
  - destruct (Hop a w Ha) as (u & Hu & Ru).
    destruct (Hop a' w' Ha') as (u' & Hu' & Ru').
    exists u, u'. repeat split; try assumption.
    apply (rnd0_mono _ _ _ _ Hu Hu'). apply Hf; [| assumption].
    eapply nonneg_finite_nonneg; eassumption.
  - destruct (Hop a w Ha) as (u & Hu & Ru).
    exists u, (Rmax u (bpow 1024)). rewrite Hinf. repeat split.
    + assumption.
    + right. split; [apply Rmax_r | reflexivity].
    + apply Rmax_l.
  - apply nonneg_finite_lt_top in Ha'. lra.
  - rewrite Hinf. exists (bpow 1024), (bpow 1024).
    repeat split; try (right; split; [lra | reflexivity]). lra.
Qed.

(** ** The stretch on binary64 *)

Lemma F2R_pow2 k e : (0 <= k)%Z -> F2R (2 ^ k) e = bpow (k + e).
Proof. intros Hk. unfold F2R. now rewrite <- bpow_IZR, <- bpow_add by assumption. Qed.

Lemma SF_one_value : nonneg_finite SF_one 1.
Proof.
  split; [reflexivity |].
  change (Zpos (2 ^ 52)) with (2 ^ 52)%Z. now rewrite F2R_pow2 by lia.
Qed.

Lemma add_one_rounds a v :
  nonneg_finite a v ->
  exists u, rnd0 (v + 1) u /\ result_of u (SFadd prec emax a SF_one).
Proof.
  intros Ha. pose proof (nonneg_finite_nonneg _ _ Ha) as Hv.
  pose proof (SFadd_nonneg_rounds a v SF_one 1 Ha SF_one_value ltac:(lra)) as Hr.
  destruct (rounds_to_result _ _ Hr) as (u & Hu & Ru).
  exists u. split; [right; split; [lra | assumption] | assumption].
Qed.

Lemma sqrt_rounds a v :
  nonneg_finite a v ->
  exists u, rnd0 (R_sqrt.sqrt v) u /\ result_of u (SFsqrt prec emax a).
Proof.
  destruct a as [s | s | | [] m e]; cbn [nonneg_finite]; try contradiction.
  - intros ->. exists 0. split.
    + left. split; [apply sqrt_0 | reflexivity].
    + left. reflexivity.
  - intros [B ->].
    pose proof (SFsqrt_finite_rounds m e) as Hr.
    destruct (rounds_to_result _ _ Hr) as (u & Hu & Ru).
    exists u. split; [| assumption].
    right. split; [| assumption]. apply sqrt_lt_R0, F2R_pos.
Qed.

Lemma SF_stretch_mono a a' :
  le_ext a a' -> le_ext (SF_stretch a) (SF_stretch a').
Proof.
  intros H. unfold SF_stretch.
  apply (le_ext_lift (SFsqrt prec emax) R_sqrt.sqrt).
  - apply sqrt_rounds.
  - intros v v' _ Hle. now apply sqrt_le_1_alt.
  - reflexivity.
  - apply (le_ext_lift (fun a => SFadd prec emax a SF_one) (fun v => v + 1)).
    + apply add_one_rounds.
    + intros; lra.
    + reflexivity.
    + assumption.
Qed.

Lemma Prim_stretch d :
  Prim2SF (PrimFloat.sqrt (PrimFloat.add d 1%float)) = SF_stretch (Prim2SF d).
Proof. now rewrite sqrt_spec, add_spec. Qed.

Lemma stretch_weakly_monotone d1 d2 :
  PrimFloat.leb 0%float d1 = true -> PrimFloat.leb d1 d2 = true ->
  PrimFloat.leb (PrimFloat.sqrt (PrimFloat.add d1 1%float))
                (PrimFloat.sqrt (PrimFloat.add d2 1%float)) = true.
Proof.
  rewrite !leb_spec, !Prim_stretch. intros H0 H12.
  apply le_ext_SFleb, SF_stretch_mono.
  apply le_ext_intro; try apply Prim2SF_valid; assumption.
Qed.

Lemma stretch_at_least_one d :
  PrimFloat.leb 0%float d = true ->
  PrimFloat.leb 1%float (PrimFloat.sqrt (PrimFloat.add d 1%float)) = true.
Proof.
  intros H.
  change 1%float with (PrimFloat.sqrt (PrimFloat.add 0%float 1%float)) at 1.
  apply stretch_weakly_monotone; [reflexivity | assumption].
Qed.

(** ** Relative error in the normal range *)

Lemma rnd_val_of_float m e :
  bounded prec emax m e = true -> rnd_val (F2R (Zpos m) e) (F2R (Zpos m) e).
Proof.
  intros B. destruct (rounds_to_result _ _ (rounds_to_float m e B)) as (w & Hw & _).
  pose proof (rnd_val_float m e w B Hw) as E. now subst w.
Qed.

Lemma rnd0_of_nonneg a v : nonneg_finite a v -> rnd0 v v.
Proof.
  destruct a as [s | s | | [] m e]; cbn [nonneg_finite]; try contradiction.
  - intros ->. now left.
  - intros [B ->]. right. split; [apply F2R_pos | now apply rnd_val_of_float].
Qed.

Lemma rnd_val_rel_error x v :
  bpow (-1022) <= x -> rnd_val x v ->
  x - x * bpow (-53) <= v <= x + x * bpow (-53).
Proof.
  intros Hx Hv. pose proof Hv as (g & N & Hg & _).
  pose proof (rnd_val_error x g v Hg Hv) as He.
  destruct Hg as [Hg1 Hg2].
  assert (Hgn : (-1022 < g)%Z) by (apply bpow_lt_inv; lra).
  assert (HE : fexp64 g = (g - 53)%Z) by (rewrite fexp64_eq; lia).
  rewrite HE in He.
  assert (Hb : bpow (g - 53) / 2 = bpow (g - 1) * bpow (-53)).
  { rewrite <- bpow_add. replace (g - 53)%Z with ((g - 1 + -53) + 1)%Z by lia.
    rewrite bpow_succ. field. }
  pose proof (bpow_gt_0 (-53)). pose proof (bpow_gt_0 (g - 1)).
  assert (bpow (g - 1) * bpow (-53) <= x * bpow (-53))
    by (apply Rmult_le_compat_r; lra).
  lra.
Qed.

Lemma bpow_m53_small : bpow (-53) <= / 8.
Proof.
  apply Rle_trans with (bpow (-3)); [apply bpow_le; lia |].
  unfold bpow. simpl. lra.
Qed.

(** ** Values on a grid *)

Lemma on_grid_0 : on_grid 0.
Proof. exists 0%Z. lra. Qed.

Lemma on_grid_gap w w' : on_grid w -> on_grid w' -> w < w' -> bpow (-589) <= w' - w.
Proof.
  intros [k ->] [k' ->] Hlt. pose proof (bpow_gt_0 (-589)) as Hp.
  assert (Hk : (k < k')%Z).
  { apply lt_IZR. nra. }
  assert (IZR k + 1 <= IZR k') by (rewrite <- plus_IZR; apply IZR_le; lia).
  nra.
Qed.

Lemma rnd_val_on_grid x v :
  bpow (-537) <= x -> rnd_val x v -> on_grid v.
Proof.
  intros Hx (g & N & [Hg1 Hg2] & HN & ->).
  assert (Hgn : (-537 < g)%Z) by (apply bpow_lt_inv; lra).
  assert (HE : (-589 <= fexp64 g)%Z) by (rewrite fexp64_eq; lia).
  exists (N * 2 ^ (fexp64 g + 589))%Z.
  rewrite mult_IZR, <- bpow_IZR by lia.
  rewrite Rmult_assoc, <- bpow_add. f_equal. f_equal. lia.
Qed.

Lemma sqrt_ge_bpow m e :
  (-1074 <= e)%Z -> bpow (-537) <= R_sqrt.sqrt (F2R (Zpos m) e).
Proof.
  intros He. rewrite <- (sqrt_bpow_double (-537)).
  apply sqrt_le_1_alt. unfold F2R.
  assert (1 <= IZR (Zpos m)) by (apply IZR_le; lia).
  assert (bpow (2 * -537) <= bpow e) by (apply bpow_le; lia).
  pose proof (bpow_gt_0 (2 * -537)). nra.
Qed.

(** What a binary64 square root can be. *)
Lemma SFsqrt_output y :
  valid_binary y = true ->
  SFsqrt prec emax y = S754_nan \/
  SFsqrt prec emax y = S754_infinity false \/
  exists w, nonneg_finite (SFsqrt prec emax y) w /\ on_grid w.
Proof.
  intros Hv. destruct y as [s | [] | | [] m e]; auto.
  - right; right. exists 0. split; [reflexivity | apply on_grid_0].
  - pose proof (SFsqrt_finite_rounds m e) as Hr.
    destruct (rounds_to_result _ _ Hr) as (u & Hu & [Ru | [_ Ru]]).
    + right; right. exists u. split; [assumption |].
      apply (rnd_val_on_grid (R_sqrt.sqrt (F2R (Zpos m) e))); [| assumption].
      apply sqrt_ge_bpow. cbn in Hv. apply bounded_range in Hv. lia.
    + right; left. assumption.
Qed.

(** ** The two interior levels *)

Lemma SF_two_value : F2R (Zpos (2 ^ 52)) (-51) = 2.
Proof.
  change (Zpos (2 ^ 52)) with (2 ^ 52)%Z. rewrite F2R_pow2 by lia. apply bpow_1.
Qed.

Lemma SF_three_value : F2R (Zpos (3 * 2 ^ 51)) (-51) = 3.
Proof.
  change (Zpos (3 * 2 ^ 51)) with (3 * 2 ^ 51)%Z.
  unfold F2R. rewrite mult_IZR, <- bpow_IZR, Rmult_assoc, bpow_cancel by lia. lra.
Qed.

Lemma rnd_val_rel8 x v :
  bpow (-1022) <= x -> rnd_val x v -> 7 / 8 * x <= v <= 9 / 8 * x.
Proof.
  intros Hx Hv. pose proof (rnd_val_rel_error x v Hx Hv) as He.
  pose proof bpow_m53_small. pose proof (bpow_gt_0 (-53)). pose proof (bpow_gt_0 (-1022)).
  assert (x * bpow (-53) <= x * / 8) by (apply Rmult_le_compat_l; lra).
  lra.
Qed.

Lemma result_of_finite w r : result_of w r -> w < bpow 1024 -> nonneg_finite r w.
Proof. intros [H | [H _]] Hlt; [assumption | lra]. Qed.

Lemma nonneg_finite_pos r w :
  nonneg_finite r w -> 0 < w ->
  exists m e, r = S754_finite false m e /\ bounded prec emax m e = true /\
              w = F2R (Zpos m) e.
Proof.
  destruct r as [s | s | | [] m e]; cbn [nonneg_finite]; try contradiction.
  - intros ->; lra.
  - intros [B ->] _. eauto.
Qed.

Lemma grid_normal : bpow (-1022) <= bpow (-589) / 16.
Proof.
  replace (bpow (-589) / 16) with (bpow (-593)).
  - apply bpow_le; lia.
  - replace (-589)%Z with (-593 + 1 + 1 + 1 + 1)%Z by lia.
    rewrite !bpow_succ. field.
Qed.

Lemma SF_levels_bounds mn vmin mx vmax :
  nonneg_finite mn vmin -> nonneg_finite mx vmax ->
  on_grid vmin -> on_grid vmax -> vmin < vmax ->
  let step := SFdiv prec emax (SFsub prec emax mx mn) SF_three in
  let l1 := SFadd prec emax (SFmul prec emax SF_one step) mn in
  let l2 := SFadd prec emax (SFmul prec emax SF_two step) mn in
  SFeqb step (S754_zero false) = false /\
  SFleb mn l1 = true /\ SFleb l1 l2 = true /\ SFleb l2 mx = true.
Proof.
  intros Hmn Hmx Gmn Gmx Hlt.
  pose proof (nonneg_finite_nonneg _ _ Hmn) as Hvmin.
  pose proof (nonneg_finite_lt_top _ _ Hmx) as Htop.
  pose proof (on_grid_gap _ _ Gmn Gmx Hlt) as HD.
  pose proof grid_normal as HB. pose proof (bpow_gt_0 (-1022)) as HB0.
  set (D := vmax - vmin) in *.
  assert (Hvmax : rnd0 vmax vmax) by (eapply rnd0_of_nonneg; eassumption).
  (* delta *)
  pose proof (SFsub_nonneg_rounds mx vmax mn vmin Hmx Hmn Hlt) as Rd.
  fold D in Rd.
  destruct (rounds_to_result _ _ Rd) as (dl & Hdl & Rdl).
  pose proof (rnd_val_rel8 D dl ltac:(lra) Hdl) as Edl.
  assert (Hdl_top : dl <= vmax).
  { apply (rnd0_mono D vmax); [right; split; [lra | assumption] | assumption |].
    unfold D; lra. }
  apply result_of_finite in Rdl; [| lra].
  destruct (nonneg_finite_pos _ _ Rdl ltac:(lra)) as (md & ed & Ed & Bd & Vd).
  rewrite Ed.
  (* step *)
  pose proof (SFdiv_finite_rounds md ed (3 * 2 ^ 51) (-51)) as Rs.
  rewrite SF_three_value, <- Vd in Rs. fold SF_three in Rs.
  destruct (rounds_to_result _ _ Rs) as (sg & Hsg & Rsg).
  pose proof (rnd_val_rel8 (dl / 3) sg ltac:(lra) Hsg) as Esg.
  assert (Hsg_D : sg <= D) by lra.
  apply result_of_finite in Rsg; [| unfold D in *; lra].
  destruct (nonneg_finite_pos _ _ Rsg ltac:(lra)) as (ms & es & Es & Bs & Vs).
  set (step := SFdiv prec emax (S754_finite false md ed) SF_three) in *.
  cbv zeta. rewrite Es.
  split; [reflexivity |].
  (* 1 * step is step *)
  assert (Hy1 : SFmul prec emax SF_one (S754_finite false ms es)
                = S754_finite false ms es).
  { apply rounds_to_float_inv; [assumption |].
    pose proof (SFmul_finite_rounds (2 ^ 52) (-52) ms es eq_refl Bs) as Rm.
    destruct SF_one_value as [_ <-] in Rm. now rewrite Rmult_1_l in Rm. }
  rewrite Hy1.
  (* 2 * step *)
  pose proof (SFmul_finite_rounds (2 ^ 52) (-51) ms es eq_refl Bs) as R2.
  rewrite SF_two_value, <- Vs in R2. fold SF_two in R2.
  destruct (rounds_to_result _ _ R2) as (p2 & Hp2 & Rp2).
  pose proof (rnd_val_rel8 (2 * sg) p2 ltac:(lra) Hp2) as Ep2.
  assert (Hp2_D : p2 <= D) by lra.
  apply result_of_finite in Rp2; [| unfold D in *; lra].
  (* the two sums *)
  rewrite Es in Rsg.
  pose proof (SFadd_nonneg_rounds _ sg mn vmin Rsg Hmn ltac:(lra)) as Ra1.
  destruct (rounds_to_result _ _ Ra1) as (l1 & Hl1 & Rl1).
  pose proof (SFadd_nonneg_rounds _ p2 mn vmin Rp2 Hmn ltac:(lra)) as Ra2.
  destruct (rounds_to_result _ _ Ra2) as (l2 & Hl2 & Rl2).
  assert (Hl1' : rnd0 (sg + vmin) l1) by (right; split; [lra | assumption]).
  assert (Hl2' : rnd0 (p2 + vmin) l2) by (right; split; [lra | assumption]).
  assert (H01 : vmin <= l1).
  { apply (rnd0_mono vmin (sg + vmin));
      [eapply rnd0_of_nonneg; eassumption | assumption | lra]. }
  assert (H12 : l1 <= l2) by (apply (rnd0_mono _ _ _ _ Hl1' Hl2'); lra).
  assert (H2m : l2 <= vmax).
  { apply (rnd0_mono _ _ _ _ Hl2' Hvmax). unfold D in *; lra. }
  apply result_of_finite in Rl1; [| lra].
  apply result_of_finite in Rl2; [| lra].
  repeat split.
  - now apply (SFleb_nonneg _ vmin _ l1).
  - now apply (SFleb_nonneg _ l1 _ l2).
  - now apply (SFleb_nonneg _ l2 _ vmax).
Qed.

(** The same bounds between two square roots, the larger possibly infinite. *)
Lemma SF_levels_bounds_sqrt y y' :
  valid_binary y = true -> valid_binary y' = true ->
  let mn := SFsqrt prec emax y in
  let mx := SFsqrt prec emax y' in
  SFltb mn mx = true ->
  let step := SFdiv prec emax (SFsub prec emax mx mn) SF_three in
  let l1 := SFadd prec emax (SFmul prec emax SF_one step) mn in
  let l2 := SFadd prec emax (SFmul prec emax SF_two step) mn in
  SFeqb step (S754_zero false) = false /\
  SFleb mn l1 = true /\ SFleb l1 l2 = true /\ SFleb l2 mx = true.
Proof.
  intros Vy Vy' mn mx.
  destruct (SFsqrt_output y Vy) as [Hn | [Hn | (vmin & Hmn & Gmn)]];
    fold mn in Hn || fold mn in Hmn.
  - rewrite Hn. discriminate.
  - rewrite Hn. destruct mx as [? | [] | | [] ? ?]; discriminate.
  - destruct (SFsqrt_output y' Vy') as [Hx | [Hx | (vmax & Hmx & Gmx)]];
      fold mx in Hx || fold mx in Hmx.
    + rewrite Hx. destruct mn as [? | ? | | ? ? ?]; discriminate.
    + intros _. rewrite Hx.
      destruct mn as [s | s | | [] m e]; try contradiction; cbv zeta;
        repeat split; reflexivity.
    + intros Hlt. apply (SFltb_nonneg _ _ _ _ Hmn Hmx) in Hlt.
      now apply (SF_levels_bounds mn vmin mx vmax).
Qed.

End B64Facts.

(** ** Selection of the isophote (claims C1, C4, C6, C8, C10) *)

(** C1.  For every fitted list and every pair of levels, the fit returns the
    semi-major axis of the first isophote whose intensity is strictly between
    the levels; on intensities [0.5, 1.5, 2.5, 3.5] with levels (1.0, 3.0) the
    second isophote is the one selected and its semi-major axis is returned. *)
Theorem C1_first_isophote_in_band_selected :
  (forall F np_cos np_sin data lower upper w,
     exists w',
       fit_and_plot_ellipse F np_cos np_sin data [lower; upper] w =
       Ok (option_map sma
             (find (strict_band lower upper) (F data (seed_geometry data)))) w')
  /\
  (forall np_cos np_sin data w s0 s1 s2 s3 c0 c1 c2 c3,
     let isolist := [mk_Isophote 0.5 s0 c0; mk_Isophote 1.5 s1 c1;
                     mk_Isophote 2.5 s2 c2; mk_Isophote 3.5 s3 c3] in
     find (strict_band 1 3) isolist = nth_error isolist 1 /\
     exists w',
       fit_and_plot_ellipse (fun _ _ => isolist) np_cos np_sin data [1; 3]%float w =
       Ok (Some s1) w').
Proof.
  split.
  - intros. rewrite fit_and_plot_ellipse_find.
    destruct (find _ _); eauto.
  - intros. split; [reflexivity |].
    rewrite fit_and_plot_ellipse_find.
    subst isolist; cbn [find strict_band intens].
    replace (strict_band 1 3 (mk_Isophote 0.5 s0 c0)) with false by reflexivity.
    replace (strict_band 1 3 (mk_Isophote 1.5 s1 c1)) with true by reflexivity.
    eauto.
Qed.

(** C4.  When no fitted isophote is strictly inside the band, the fit returns
    [None] without drawing, and the run prints exactly the failure sentence. *)
Theorem C4_no_isophote_in_band_reports_failure
    S V F np_cos np_sin w sqrt_data contours lower upper w1 :
  main_before_fit S V w = Ok (sqrt_data, contours) w1 ->
  levels contours = [lower; upper] ->
  (forall iso, In iso (F sqrt_data (seed_geometry sqrt_data)) ->
               strict_band lower upper iso = false) ->
  fit_and_plot_ellipse F np_cos np_sin sqrt_data (levels contours) w1 = Ok None w1
  /\ exists w',
       main S V F np_cos np_sin w = Ok tt w' /\
       console w' = (console w ++ ["Could not determine the ellipse radius."])%list.
Proof.
  intros Hb Hl Hnone.
  assert (Hfit : fit_and_plot_ellipse F np_cos np_sin sqrt_data (levels contours) w1
                 = Ok None w1).
  { rewrite Hl, fit_and_plot_ellipse_find.
    destruct (find _ _) as [iso |] eqn:Hf; [| reflexivity].
    apply find_some in Hf. destruct Hf as [Hin Hband].
    rewrite (Hnone iso Hin) in Hband. discriminate. }
  split; [exact Hfit |].
  eexists. split; [apply (main_report _ _ _ _ _ _ _ _ _ _ _ Hb Hfit) |].
  cbn. apply main_before_fit_inv in Hb. destruct Hb as [Hc _]. now rewrite Hc.
Qed.

Lemma radius_line_not_failure r : radius_line r <> failure_message.
Proof. unfold radius_line, failure_message. cbn. discriminate. Qed.

(** C6.  The report tests the truth value of the returned radius, not whether
    an isophote was selected.  Whatever the fit returns, the one line printed
    is the radius line when a float different from zero came back, and the
    failure sentence when [None] or a zero came back.  A selected isophote of
    semi-major axis 0.0 is drawn and returned as 0.0, and the run still
    prints the failure sentence; a selected isophote of non-zero semi-major
    axis gets the radius line, which is never the failure sentence. *)
Theorem C6_report_tests_truthiness
    S V F np_cos np_sin w sqrt_data contours lower upper w1 :
  main_before_fit S V w = Ok (sqrt_data, contours) w1 ->
  levels contours = [lower; upper] ->
  (forall radius w2,
     fit_and_plot_ellipse F np_cos np_sin sqrt_data (levels contours) w1
       = Ok radius w2 ->
     exists w',
       main S V F np_cos np_sin w = Ok tt w' /\
       console w' =
       (console w ++
        [ match radius with
          | Some r =>
              if (r =? 0)%float
              then "Could not determine the ellipse radius."
              else ("Radius of the ellipse in the blue region: "
                      ++ format_2f r ++ " pixels")%string
          | None => "Could not determine the ellipse radius."
          end ])%list)
  /\
  (forall iso,
     find (strict_band lower upper) (F sqrt_data (seed_geometry sqrt_data))
       = Some iso ->
     sma iso = 0%float ->
     fit_and_plot_ellipse F np_cos np_sin sqrt_data (levels contours) w1
       = Ok (Some 0%float) (drawn w1 (ellipse_artists np_cos np_sin sqrt_data iso))
     /\ exists w',
          main S V F np_cos np_sin w = Ok tt w' /\
          console w' =
          (console w ++ ["Could not determine the ellipse radius."])%list)
  /\
  (forall iso,
     find (strict_band lower upper) (F sqrt_data (seed_geometry sqrt_data))
       = Some iso ->
     (sma iso =? 0)%float = false ->
     exists w',
       main S V F np_cos np_sin w = Ok tt w' /\
       console w' =
       (console w ++
        [ ("Radius of the ellipse in the blue region: "
             ++ format_2f (sma iso) ++ " pixels")%string ])%list)
  /\
  (forall r,
     "Radius of the ellipse in the blue region: " ++ format_2f r ++ " pixels"
     <> "Could not determine the ellipse radius.").
Proof.
  intros Hb Hl.
  pose proof (main_before_fit_inv _ _ _ _ _ _ Hb) as [Hc _].
  assert (Hrep : forall radius w2,
             fit_and_plot_ellipse F np_cos np_sin sqrt_data (levels contours) w1
               = Ok radius w2 ->
             exists w',
               main S V F np_cos np_sin w = Ok tt w' /\
               console w' =
               (console w ++
                [ match radius with
                  | Some r =>
                      if (r =? 0)%float
                      then "Could not determine the ellipse radius."
                      else ("Radius of the ellipse in the blue region: "
                              ++ format_2f r ++ " pixels")%string
                  | None => "Could not determine the ellipse radius."
                  end ])%list).
  { intros radius w2 Hfit.
    assert (Hw2 : console w2 = console w1).
    { rewrite Hl, fit_and_plot_ellipse_find in Hfit.
      destruct (find _ _); inversion Hfit; reflexivity. }
    eexists. split; [apply (main_report _ _ _ _ _ _ _ _ _ _ _ Hb Hfit) |].
    cbn [printed drawn console]. rewrite Hw2, Hc.
    destruct radius as [r |]; [| reflexivity].
    unfold float_truthy. destruct (r =? 0)%float; reflexivity. }
  split; [exact Hrep |]. split; [| split].
  - intros iso Hfind Hsma.
    assert (Hfit : fit_and_plot_ellipse F np_cos np_sin sqrt_data (levels contours) w1
                   = Ok (Some 0%float)
                        (drawn w1 (ellipse_artists np_cos np_sin sqrt_data iso))).
    { rewrite Hl, fit_and_plot_ellipse_find, Hfind, Hsma. reflexivity. }
    split; [exact Hfit |]. exact (Hrep _ _ Hfit).
  - intros iso Hfind Hsma.
    assert (Hfit : fit_and_plot_ellipse F np_cos np_sin sqrt_data (levels contours) w1
                   = Ok (Some (sma iso))
                        (drawn w1 (ellipse_artists np_cos np_sin sqrt_data iso))).
    { rewrite Hl, fit_and_plot_ellipse_find, Hfind. reflexivity. }
    destruct (Hrep _ _ Hfit) as (w' & Hm & Hcons).
    rewrite Hsma in Hcons. eauto.
  - intros r. apply radius_line_not_failure.
Qed.




(** C10.  On a successful selection the ray end point is
    [center + sma * (cos a, sin a)] with [a = deg2rad(50)]; the segment drawn
    starts at the unmodified centre and ends 1.5 px short of the ray end in
    each axis; the radius returned is the isophote's semi-major axis. *)
Theorem C10_semi_major_axis_segment
    F np_cos np_sin data lower upper w iso :
  find (strict_band lower upper) (F data (seed_geometry data)) = Some iso ->
  let cx := ncols data / 2 in
  let cy := nrows data / 2 in
  let angle := (50 * (0x1.921fb54442d18p+1 / 180))%float in
  let end_x := (np.float_of_Z cx + sma iso * np_cos angle)%float in
  let end_y := (np.float_of_Z cy + sma iso * np_sin angle)%float in
  angle = 0x1.becde5da115a9p-1%float /\
  fit_and_plot_ellipse F np_cos np_sin data [lower; upper] w =
  Ok (Some (sma iso))
     (drawn w
        [ Plot (map FloatS (fst (sampled_coordinates iso)))
               (map FloatS (snd (sampled_coordinates iso))) "blue" None;
          Scatter (IntS cx) (IntS cy) "red" 10 "Ellipse Center";
          Plot [IntS cx; FloatS (end_x - 1.5)%float]
               [IntS cy; FloatS (end_y - 1.5)%float]
               "white" (Some "Semi-major Axis") ]).
Proof.
  intros Hfind cx cy angle end_x end_y.
  split; [reflexivity |].
  rewrite fit_and_plot_ellipse_find, Hfind. reflexivity.
Qed.

(** ** The two service wrappers (claim C9) *)

(** C9.  Each wrapper reads the first element only: the first RA/Dec strings
    of the catalog table, the first HDU of the first returned image.  A
    catalog answer without rows, or without the column, and an empty image
    list raise IndexError (KeyError for the column), which nothing catches:
    the run ends there with nothing drawn and nothing printed. *)
Theorem C9_wrappers_use_first_element_and_propagate_failure :
  (forall S name w ra ras dec decs,
     lookup_column (S name) "RA" = Some (ra :: ras) ->
     lookup_column (S name) "DEC" = Some (dec :: decs) ->
     get_object_coordinates S name w =
     Ok (mk_SkyCoord (ra ++ " " ++ dec) (hourangle, deg)) w)
  /\
  (forall V coords survey radius w hdu hdus others,
     V coords survey radius = (hdu :: hdus) :: others ->
     get_image_data V coords survey radius w =
     Ok (hdu_data hdu, mk_WCS (hdu_header hdu)) w)
  /\
  (forall S V F np_cos np_sin w,
     lookup_column (S "M88") "RA" = Some [] ->
     get_object_coordinates S "M88" w = Raised IndexError w /\
     main S V F np_cos np_sin w = Raised IndexError w)
  /\
  (forall S V F np_cos np_sin w,
     lookup_column (S "M88") "RA" = None ->
     get_object_coordinates S "M88" w = Raised KeyError w /\
     main S V F np_cos np_sin w = Raised KeyError w)
  /\
  (forall S V F np_cos np_sin w coords,
     get_object_coordinates S "M88" w = Ok coords w ->
     V coords "DSS" (mk_Quantity 5 arcmin) = [] ->
     get_image_data V coords "DSS" (mk_Quantity 5 arcmin) w = Raised IndexError w /\
     main S V F np_cos np_sin w = Raised IndexError w).
Proof.
  repeat split.
  - intros S name w ra ras dec decs Hra Hdec.
    unfold get_object_coordinates, bind, getcolumn. now rewrite Hra, Hdec.
  - intros V coords survey radius w hdu hdus others HV.
    unfold get_image_data, bind. now rewrite HV.
  - unfold get_object_coordinates, bind, getcolumn. now rewrite H.
  - rewrite main_split. unfold main_before_fit, bind at 1.
    unfold get_object_coordinates, bind, getcolumn. now rewrite H.
  - unfold get_object_coordinates, bind, getcolumn. now rewrite H.
  - rewrite main_split. unfold main_before_fit, bind at 1.
    unfold get_object_coordinates, bind, getcolumn. now rewrite H.
  - unfold get_image_data, bind. now rewrite H0.
  - rewrite main_split. unfold main_before_fit, bind at 1. rewrite H.
    unfold bind at 1. unfold get_image_data, bind. now rewrite H0.
Qed.
(** ** Order and special values of binary64 numbers *)

Lemma SFltb_asym a b : SFltb a b = true -> SFltb b a = false.
Proof.
  unfold SFltb. destruct a as [[] | [] | | [] m1 e1], b as [[] | [] | | [] m2 e2];
    cbn; try discriminate; try reflexivity;
    rewrite (Z.compare_antisym e1 e2);
    destruct (e1 ?= e2)%Z; cbn; try discriminate; try reflexivity;
    rewrite !Pos.compare_cont_spec, (Pos.compare_antisym m1 m2); cbn;
    destruct (m1 ?= m2)%positive; cbn; try discriminate; reflexivity.
Qed.

Lemma ltb_asym a b : (a <? b)%float = true -> (b <? a)%float = false.
Proof. rewrite !ltb_spec. apply SFltb_asym. Qed.

Lemma SFltb_SFleb a b : SFltb a b = true -> SFleb a b = true.
Proof.
  unfold SFltb, SFleb. destruct (SFcompare a b) as [[] |]; congruence.
Qed.

Lemma SFltb_trans a b c :
  SFltb a b = true -> SFltb b c = true -> SFltb a c = true.
Proof.
  unfold SFltb.
  destruct a as [[] | [] | | [] m1 e1], b as [[] | [] | | [] m2 e2],
           c as [[] | [] | | [] m3 e3];
    cbn; try discriminate; try reflexivity;
    rewrite ?Pos.compare_cont_spec; cbn [Pos.switch_Eq];
    destruct (Z.compare_spec e1 e2), (Z.compare_spec e2 e3), (Z.compare_spec e1 e3);
    cbn; try discriminate; try reflexivity; try lia;
    destruct (Pos.compare_spec m1 m2), (Pos.compare_spec m2 m3),
             (Pos.compare_spec m1 m3);
    cbn; try discriminate; try reflexivity; lia.
Qed.

Lemma SFleb_not_ltb a b : SFleb b a = true -> SFltb a b = false.
Proof.
  unfold SFleb, SFltb.
  destruct a as [[] | [] | | [] m1 e1], b as [[] | [] | | [] m2 e2];
    cbn; try discriminate; try reflexivity;
    rewrite (Z.compare_antisym e1 e2);
    destruct (e1 ?= e2)%Z; cbn; try discriminate; try reflexivity;
    rewrite !Pos.compare_cont_spec, (Pos.compare_antisym m1 m2); cbn;
    destruct (m1 ?= m2)%positive; cbn; try discriminate; reflexivity.
Qed.

Lemma SFleb_trans a b c :
  SFleb a b = true -> SFleb b c = true -> SFleb a c = true.
Proof.
  unfold SFleb.
  destruct a as [[] | [] | | [] m1 e1], b as [[] | [] | | [] m2 e2],
           c as [[] | [] | | [] m3 e3];
    cbn; try discriminate; try reflexivity;
    rewrite ?Pos.compare_cont_spec; cbn [Pos.switch_Eq];
    destruct (Z.compare_spec e1 e2), (Z.compare_spec e2 e3), (Z.compare_spec e1 e3);
    cbn; try discriminate; try reflexivity; try lia;
    destruct (Pos.compare_spec m1 m2), (Pos.compare_spec m2 m3),
             (Pos.compare_spec m1 m3);
    cbn; try discriminate; try reflexivity; lia.
Qed.

Lemma SFleb_ltb_trans a b c :
  SFleb a b = true -> SFltb b c = true -> SFltb a c = true.
Proof.
  unfold SFleb, SFltb.
  destruct a as [[] | [] | | [] m1 e1], b as [[] | [] | | [] m2 e2],
           c as [[] | [] | | [] m3 e3];
    cbn; try discriminate; try reflexivity;
    rewrite ?Pos.compare_cont_spec; cbn [Pos.switch_Eq];
    destruct (Z.compare_spec e1 e2), (Z.compare_spec e2 e3), (Z.compare_spec e1 e3);
    cbn; try discriminate; try reflexivity; try lia;
    destruct (Pos.compare_spec m1 m2), (Pos.compare_spec m2 m3),
             (Pos.compare_spec m1 m3);
    cbn; try discriminate; try reflexivity; lia.
Qed.

Lemma SFltb_leb_trans a b c :
  SFltb a b = true -> SFleb b c = true -> SFltb a c = true.
Proof.
  unfold SFleb, SFltb.
  destruct a as [[] | [] | | [] m1 e1], b as [[] | [] | | [] m2 e2],
           c as [[] | [] | | [] m3 e3];
    cbn; try discriminate; try reflexivity;
    rewrite ?Pos.compare_cont_spec; cbn [Pos.switch_Eq];
    destruct (Z.compare_spec e1 e2), (Z.compare_spec e2 e3), (Z.compare_spec e1 e3);
    cbn; try discriminate; try reflexivity; try lia;
    destruct (Pos.compare_spec m1 m2), (Pos.compare_spec m2 m3),
             (Pos.compare_spec m1 m3);
    cbn; try discriminate; try reflexivity; lia.
Qed.

Lemma SFeqb_refl x : SF_is_finite x = true -> SFeqb x x = true.
Proof.
  destruct x as [s | s | | [] m e]; try discriminate; intros _;
    unfold SFeqb; cbn; try reflexivity;
    rewrite Z.compare_refl, Pos.compare_cont_spec, Pos.compare_refl; reflexivity.
Qed.

Lemma is_finite_SF x : PrimFloat.is_finite x = true -> SF_is_finite (Prim2SF x) = true.
Proof.
  unfold PrimFloat.is_finite, is_nan, is_infinity.
  rewrite !eqb_spec, abs_spec.
  destruct (Prim2SF x) as [s | [] | | s m e]; try reflexivity;
    intros H; vm_compute in H; discriminate H.
Qed.

Lemma SFsub_self a :
  SFsub prec emax a a =
  if SF_is_finite a then S754_zero false else S754_nan.
Proof.
  destruct a as [[] | [] | | s m e]; try reflexivity.
  cbn [SFsub SF_is_finite]. now rewrite Z.sub_diag.
Qed.

Lemma sub_self c :
  (c - c)%float = if SF_is_finite (Prim2SF c) then 0%float else nan.
Proof.
  rewrite <- (SF2Prim_Prim2SF (c - c)), sub_spec, SFsub_self.
  destruct (SF_is_finite (Prim2SF c)); reflexivity.
Qed.

Lemma isnan_SF x : np.isnan x = true <-> Prim2SF x = S754_nan.
Proof.
  unfold np.isnan. rewrite eqb_spec. unfold SFeqb.
  destruct (Prim2SF x) as [[] | [] | | [] m e]; cbn;
    rewrite ?Z.compare_refl, ?Pos.compare_cont_spec, ?Pos.compare_refl; cbn;
    split; intros H; try discriminate H; reflexivity.
Qed.

Lemma isnan_eq x : np.isnan x = true <-> x = nan.
Proof.
  rewrite isnan_SF. split.
  - intros H. rewrite <- (SF2Prim_Prim2SF x), H. reflexivity.
  - intros ->. reflexivity.
Qed.

Lemma minimum_nan_r a : np.minimum a nan = nan.
Proof.
  unfold np.minimum. destruct (np.isnan a) eqn:Hn; [now apply isnan_eq |].
  rewrite ltb_spec. unfold SFltb.
  destruct (Prim2SF a) as [? | ? | | ? ? ?]; reflexivity.
Qed.

Lemma maximum_nan_r a : np.maximum a nan = nan.
Proof.
  unfold np.maximum. destruct (np.isnan a) eqn:Hn; [now apply isnan_eq |].
  rewrite ltb_spec. unfold SFltb. reflexivity.
Qed.

Lemma fold_minimum_nan rest : forall acc,
  acc = nan \/ In nan rest -> fold_left np.minimum rest acc = nan.
Proof.
  induction rest as [| y rest IH]; intros acc [H | H]; cbn [fold_left].
  - exact H.
  - destruct H.
  - subst acc. apply IH. now left.
  - destruct H as [-> | H].
    + apply IH. left. apply minimum_nan_r.
    + apply IH. now right.
Qed.

Lemma fold_maximum_nan rest : forall acc,
  acc = nan \/ In nan rest -> fold_left np.maximum rest acc = nan.
Proof.
  induction rest as [| y rest IH]; intros acc [H | H]; cbn [fold_left].
  - exact H.
  - destruct H.
  - subst acc. apply IH. now left.
  - destruct H as [-> | H].
    + apply IH. left. apply maximum_nan_r.
    + apply IH. now right.
Qed.

Lemma before_fit_from_services S V w coords data wcs :
  get_object_coordinates S "M88" w = Ok coords w ->
  get_image_data V coords "DSS" (mk_Quantity 5 arcmin) w = Ok (data, wcs) w ->
  main_before_fit S V w =
  plot_image_and_contours data
    (drawn w [ Subplots (10, 10) wcs;
               SetMajorFormatter "ra" "hh:mm:ss";
               SetMajorFormatter "dec" "dd:mm:ss";
               SetXLabel "RA"; SetYLabel "DEC" ]).
Proof.
  intros Hc Hi. unfold main_before_fit, bind. rewrite Hc, Hi.
  unfold setup_plot, bind. rewrite !draw_eq, !drawn_drawn. reflexivity.
Qed.

Lemma SFleb_refl a : a <> S754_nan -> SFleb a a = true.
Proof.
  unfold SFleb. destruct a as [[] | [] | | [] m e]; cbn; try congruence;
    intros _; rewrite Z.compare_refl, Pos.compare_cont_spec, Pos.compare_refl;
    reflexivity.
Qed.

Lemma SFleb_total a b :
  a <> S754_nan -> b <> S754_nan -> SFltb a b = false -> SFleb b a = true.
Proof.
  unfold SFleb, SFltb.
  destruct a as [[] | [] | | [] m1 e1], b as [[] | [] | | [] m2 e2];
    cbn; try congruence; intros _ _;
    rewrite (Z.compare_antisym e1 e2);
    destruct (e1 ?= e2)%Z; cbn; try congruence;
    rewrite !Pos.compare_cont_spec, (Pos.compare_antisym m1 m2); cbn;
    destruct (m1 ?= m2)%positive; cbn; congruence.
Qed.

Lemma SFleb_antisym a b :
  SFleb a b = true -> SFleb b a = true -> SFeqb a b = true.
Proof.
  unfold SFleb, SFeqb.
  destruct a as [[] | [] | | [] m1 e1], b as [[] | [] | | [] m2 e2];
    cbn; try congruence;
    rewrite (Z.compare_antisym e1 e2);
    destruct (e1 ?= e2)%Z; cbn; try congruence;
    rewrite !Pos.compare_cont_spec, (Pos.compare_antisym m1 m2); cbn;
    destruct (m1 ?= m2)%positive; cbn; congruence.
Qed.

Lemma SFeqb_SFleb a b : SFeqb a b = true -> SFleb a b = true.
Proof.
  unfold SFleb, SFeqb. destruct (SFcompare a b) as [[] |]; congruence.
Qed.

Lemma SFeqb_sym a b : SFeqb a b = true -> SFeqb b a = true.
Proof.
  unfold SFeqb.
  destruct a as [[] | [] | | [] m1 e1], b as [[] | [] | | [] m2 e2];
    cbn; try congruence;
    rewrite (Z.compare_antisym e1 e2);
    destruct (e1 ?= e2)%Z; cbn; try congruence;
    rewrite !Pos.compare_cont_spec, (Pos.compare_antisym m1 m2); cbn;
    destruct (m1 ?= m2)%positive; cbn; congruence.
Qed.

Lemma SFleb_not_nan_l a b : SFleb a b = true -> a <> S754_nan.
Proof. intros H ->. discriminate H. Qed.

Lemma SFleb_not_nan_r a b : SFleb a b = true -> b <> S754_nan.
Proof. intros H ->. destruct a as [? | ? | | ? ? ?]; discriminate H. Qed.

(** Equal numbers are the same datum, up to the sign of zero. *)
Lemma SFeqb_inv a b :
  SFeqb a b = true ->
  (exists s s', a = S754_zero s /\ b = S754_zero s') \/
  (a = b /\ a <> S754_nan).
Proof.
  unfold SFeqb.
  destruct a as [s1 | [] | | [] m1 e1], b as [s2 | [] | | [] m2 e2];
    cbn; try congruence; try (left; eauto; fail);
    try (intros _; right; split; [reflexivity | discriminate]);
    destruct (Z.compare_spec e1 e2); cbn; try congruence;
    rewrite Pos.compare_cont_spec;
    destruct (Pos.compare_spec m1 m2); cbn; try congruence;
    intros _; subst; right; split; (reflexivity || discriminate).
Qed.

Lemma SFeqb_finite a b :
  SFeqb a b = true -> SF_is_finite b = true -> SF_is_finite a = true.
Proof.
  intros H. destruct (SFeqb_inv _ _ H) as [(s & s' & -> & ->) | [-> _]]; auto.
Qed.

(** The difference of two equal numbers is a zero, or NaN for infinities. *)
Lemma SFsub_equal a b :
  SFeqb a b = true ->
  if SF_is_finite a then exists s, SFsub prec emax b a = S754_zero s
  else SFsub prec emax b a = S754_nan.
Proof.
  intros H. destruct (SFeqb_inv _ _ H) as [(s & s' & -> & ->) | [<- Hn]].
  - cbn. destruct s', s; eauto.
  - rewrite SFsub_self. destruct (SF_is_finite a); eauto.
Qed.

(** Ordered finite numbers whose difference is positive are strictly
    ordered. *)
Lemma SFsub_positive_strict lo hi :
  SF_is_finite lo = true -> SF_is_finite hi = true ->
  SFleb lo hi = true ->
  SFleb (SFsub prec emax hi lo) (S754_zero false) = false ->
  SFltb lo hi = true.
Proof.
  intros Flo Fhi Hle Hpos.
  destruct (SFltb lo hi) eqn:Hlt; [reflexivity |].
  assert (Heq : SFeqb lo hi = true).
  { apply SFleb_antisym; [assumption |].
    apply SFleb_total; [eapply SFleb_not_nan_l | eapply SFleb_not_nan_r |];
      eassumption. }
  pose proof (SFsub_equal _ _ Heq) as Hs. rewrite Flo in Hs.
  destruct Hs as [s Hs]. rewrite Hs in Hpos. destruct s; discriminate Hpos.
Qed.

(** Between a finite lower bound and a finite upper bound everything is
    finite. *)
Lemma SFleb_between_finite mn x mx :
  SF_is_finite mn = true -> SF_is_finite mx = true ->
  SFleb mn x = true -> SFleb x mx = true -> SF_is_finite x = true.
Proof.
  destruct x as [s | [] | | s m e]; try reflexivity; intros Fmn Fmx H1 H2.
  - destruct mn as [? | ? | | [] ? ?]; discriminate.
  - destruct mx as [? | ? | | [] ? ?]; discriminate.
  - destruct mn as [? | ? | | ? ? ?]; discriminate.
Qed.

Lemma is_finite_SF_eq x : PrimFloat.is_finite x = SF_is_finite (Prim2SF x).
Proof.
  unfold PrimFloat.is_finite, is_nan, is_infinity.
  rewrite !eqb_spec, abs_spec.
  destruct (Prim2SF x) as [s | [] | | s m e]; try reflexivity.
  cbn [SFabs SF_is_finite].
  unfold SFeqb at 1. cbn [SFcompare].
  destruct s; rewrite Z.compare_refl, Pos.compare_cont_spec, Pos.compare_refl;
    reflexivity.
Qed.

(** ** Minimum and maximum of an array *)

Lemma isnan_false_SF x : np.isnan x = false <-> Prim2SF x <> S754_nan.
Proof.
  split.
  - intros H E. apply isnan_SF in E. congruence.
  - intros H. destruct (np.isnan x) eqn:E; [| reflexivity].
    apply isnan_SF in E. contradiction.
Qed.

Lemma leb_isnan_l a b : (a <=? b)%float = true -> np.isnan a = false.
Proof.
  rewrite leb_spec. intros H. apply isnan_false_SF. eapply SFleb_not_nan_l, H.
Qed.

Lemma leb_isnan_r a b : (a <=? b)%float = true -> np.isnan b = false.
Proof.
  rewrite leb_spec. intros H. apply isnan_false_SF. eapply SFleb_not_nan_r, H.
Qed.

Lemma leb_refl a : np.isnan a = false -> (a <=? a)%float = true.
Proof. intros H. rewrite leb_spec. apply SFleb_refl. now apply isnan_false_SF. Qed.

Lemma leb_trans a b c :
  (a <=? b)%float = true -> (b <=? c)%float = true -> (a <=? c)%float = true.
Proof. rewrite !leb_spec. apply SFleb_trans. Qed.

Lemma minimum_le a b :
  np.isnan (np.minimum a b) = false ->
  (np.minimum a b <=? a)%float = true /\ (np.minimum a b <=? b)%float = true.
Proof.
  unfold np.minimum. destruct (np.isnan a) eqn:Ha; [congruence |].
  destruct (a <? b)%float eqn:Hlt; intros Hn.
  - split; [now apply leb_refl |].
    rewrite leb_spec. rewrite ltb_spec in Hlt. now apply SFltb_SFleb.
  - split; [| now apply leb_refl].
    rewrite leb_spec. rewrite ltb_spec in Hlt.
    apply SFleb_total; [now apply isnan_false_SF .. | assumption].
Qed.

Lemma maximum_ge a b :
  np.isnan (np.maximum a b) = false ->
  (a <=? np.maximum a b)%float = true /\ (b <=? np.maximum a b)%float = true.
Proof.
  unfold np.maximum. destruct (np.isnan a) eqn:Ha; [congruence |].
  destruct (b <? a)%float eqn:Hlt; intros Hn.
  - split; [now apply leb_refl |].
    rewrite leb_spec. rewrite ltb_spec in Hlt. now apply SFltb_SFleb.
  - split; [| now apply leb_refl].
    rewrite leb_spec. rewrite ltb_spec in Hlt.
    apply SFleb_total; [now apply isnan_false_SF .. | assumption].
Qed.

(** The reduction of [np.min], when it is a number, is below every element. *)
Lemma fold_minimum_le rest : forall x,
  np.isnan (fold_left np.minimum rest x) = false ->
  forall p, In p (x :: rest) -> (fold_left np.minimum rest x <=? p)%float = true.
Proof.
  induction rest as [| y rest IH]; intros x Hn p Hin; cbn [fold_left] in *.
  - destruct Hin as [<- | []]. now apply leb_refl.
  - pose proof (IH _ Hn) as Hall.
    pose proof (Hall _ (or_introl eq_refl)) as Hm.
    destruct (minimum_le x y (leb_isnan_r _ _ Hm)) as [Hx Hy].
    destruct Hin as [<- | [<- | Hin]].
    + eapply leb_trans; eassumption.
    + eapply leb_trans; eassumption.
    + apply Hall. now right.
Qed.

Lemma fold_maximum_ge rest : forall x,
  np.isnan (fold_left np.maximum rest x) = false ->
  forall p, In p (x :: rest) -> (p <=? fold_left np.maximum rest x)%float = true.
Proof.
  induction rest as [| y rest IH]; intros x Hn p Hin; cbn [fold_left] in *.
  - destruct Hin as [<- | []]. now apply leb_refl.
  - pose proof (IH _ Hn) as Hall.
    pose proof (Hall _ (or_introl eq_refl)) as Hm.
    destruct (maximum_ge x y (leb_isnan_l _ _ Hm)) as [Hx Hy].
    destruct Hin as [<- | [<- | Hin]].
    + eapply leb_trans; eassumption.
    + eapply leb_trans; eassumption.
    + apply Hall. now right.
Qed.

(** ** numpy's helpers on concrete and symbolic floats *)

Lemma linspace_4_eq start stop :
  np.linspace start stop 4 =
  if ((stop - start) / 3 =? 0)%float
  then [ (0 / 3 * (stop - start) + start)%float;
         (1 / 3 * (stop - start) + start)%float;
         (2 / 3 * (stop - start) + start)%float; stop ]
  else [ (0 * ((stop - start) / 3) + start)%float;
         (1 * ((stop - start) / 3) + start)%float;
         (2 * ((stop - start) / 3) + start)%float; stop ].
Proof.
  unfold np.linspace.
  change (np.arange 4) with [0; 1; 2; 3]%float.
  change (np.float_of_Z (Z.of_nat (4 - 1))) with 3%float.
  cbn [Nat.sub Nat.ltb Nat.leb].
  destruct ((stop - start) / 3 =? 0)%float; reflexivity.
Qed.

Lemma minimum_cases a b : np.minimum a b = a \/ np.minimum a b = b.
Proof.
  unfold np.minimum. destruct (np.isnan a); [now left |].
  destruct (a <? b)%float; [now left | now right].
Qed.

Lemma maximum_cases a b : np.maximum a b = a \/ np.maximum a b = b.
Proof.
  unfold np.maximum. destruct (np.isnan a); [now left |].
  destruct (b <? a)%float; [now left | now right].
Qed.

Lemma fold_minimum_in rest : forall x, In (fold_left np.minimum rest x) (x :: rest).
Proof.
  induction rest as [| y rest IH]; intros x; cbn [fold_left].
  - now left.
  - destruct (minimum_cases x y) as [-> | ->].
    + destruct (IH x) as [H | H]; [now left | right; now right].
    + right. apply IH.
Qed.

Lemma fold_maximum_in rest : forall x, In (fold_left np.maximum rest x) (x :: rest).
Proof.
  induction rest as [| y rest IH]; intros x; cbn [fold_left].
  - now left.
  - destruct (maximum_cases x y) as [-> | ->].
    + destruct (IH x) as [H | H]; [now left | right; now right].
    + right. apply IH.
Qed.

(** ** Comparisons of binary64 numbers *)

Lemma strict_band_empty L iso : strict_band L L iso = false.
Proof.
  unfold strict_band. destruct (L <? intens iso)%float eqn:H; [| reflexivity].
  now rewrite (ltb_asym _ _ H).
Qed.

(** ** The stretch (claim C5) *)

(** C5 as stated does not hold on binary64: [0 < 2^-53], yet both stretch to
    exactly [1.0], because [2^-53 + 1] rounds to [1]. *)
Lemma C5_counterexample :
  ~ (forall d1 d2 : float,
       (0 <=? d1)%float = true -> (0 <=? d2)%float = true ->
       (d1 <? d2)%float = true ->
       (np.sqrt (d1 + 1) <? np.sqrt (d2 + 1))%float = true).
Proof.
  intros H. specialize (H 0%float 0x1p-53%float eq_refl eq_refl eq_refl).
  discriminate H.
Qed.

(** C5, amended.  On non-negative binary64 inputs the stretch is at least 1
    and weakly monotonic: [d1 < d2] implies [sqrt(d1+1) <= sqrt(d2+1)]. *)
Theorem C5_stretch_domain_safe_and_weakly_monotone :
  (forall d : float,
     (0 <=? d)%float = true -> (1 <=? np.sqrt (d + 1))%float = true)
  /\
  (forall d1 d2 : float,
     (0 <=? d1)%float = true -> (0 <=? d2)%float = true ->
     (d1 <? d2)%float = true ->
     (np.sqrt (d1 + 1) <=? np.sqrt (d2 + 1))%float = true).
Proof.
  split.
  - intros d Hd. now apply B64Facts.stretch_at_least_one.
  - intros d1 d2 H1 _ Hlt. apply B64Facts.stretch_weakly_monotone; [assumption |].
    rewrite leb_spec. rewrite ltb_spec in Hlt. now apply SFltb_SFleb.
Qed.

(** ** Contour levels (claims C2, C3, C7) *)

Lemma interior_linspace_nonzero start stop :
  ((stop - start) / 3 =? 0)%float = false ->
  np.interior (np.linspace start stop 4) =
  [ (1 * ((stop - start) / 3) + start)%float;
    (2 * ((stop - start) / 3) + start)%float ].
Proof. intros H. rewrite linspace_4_eq, H. reflexivity. Qed.

(** Between two stretched intensities [mn < mx], the two levels are ordered
    and stay within [[mn, mx]]. *)
Lemma stretched_levels_bounds a b :
  (np.sqrt a <? np.sqrt b)%float = true ->
  exists lo hi,
    np.interior (np.linspace (np.sqrt a) (np.sqrt b) 4) = [lo; hi] /\
    (np.sqrt a <=? lo)%float = true /\ (lo <=? hi)%float = true /\
    (hi <=? np.sqrt b)%float = true.
Proof.
  intros Hlt. unfold np.sqrt in *.
  set (mn := PrimFloat.sqrt a) in *. set (mx := PrimFloat.sqrt b) in *.
  rewrite ltb_spec in Hlt. unfold mn, mx in Hlt. rewrite !sqrt_spec in Hlt.
  pose proof (B64Facts.SF_levels_bounds_sqrt (Prim2SF a) (Prim2SF b)
                (Prim2SF_valid a) (Prim2SF_valid b) Hlt) as (Hz & H1 & H2 & H3).
  assert (Emn : Prim2SF mn = SFsqrt prec emax (Prim2SF a)) by apply sqrt_spec.
  assert (Emx : Prim2SF mx = SFsqrt prec emax (Prim2SF b)) by apply sqrt_spec.
  rewrite <- Emn, <- Emx in Hz, H1, H2, H3.
  assert (Estep : Prim2SF ((mx - mn) / 3)%float =
                  SFdiv prec emax (SFsub prec emax (Prim2SF mx) (Prim2SF mn))
                        B64.SF_three).
  { now rewrite div_spec, sub_spec. }
  rewrite <- Estep in Hz, H1, H2, H3.
  exists (1 * ((mx - mn) / 3) + mn)%float, (2 * ((mx - mn) / 3) + mn)%float.
  split; [| split; [| split]].
  - apply interior_linspace_nonzero. now rewrite eqb_spec.
  - now rewrite leb_spec, add_spec, mul_spec.
  - now rewrite leb_spec, !add_spec, !mul_spec.
  - now rewrite leb_spec, add_spec, mul_spec.
Qed.

Lemma in_stretched_inv x (l : list float) :
  In x (map (fun d => np.sqrt (d + 1)%float) l) ->
  exists d, x = np.sqrt (d + 1)%float.
Proof. intros H. apply in_map_iff in H. destruct H as (d & <- & _). eauto. Qed.

(** *** Minimum and maximum of the stretched data *)

(** [np.min] and [np.max] of a non-empty array: elements of the array; bounds
    of it when no element is NaN; NaN as soon as one element is. *)
Lemma extremes_spec x rest :
  let mn := fold_left np.minimum rest x in
  let mx := fold_left np.maximum rest x in
  In mn (x :: rest) /\ In mx (x :: rest) /\
  ((forall p, In p (x :: rest) -> (p =? p)%float = true) ->
   forall p, In p (x :: rest) ->
     (mn <=? p)%float = true /\ (p <=? mx)%float = true) /\
  ((exists p, In p (x :: rest) /\ (p =? p)%float = false) ->
   (mn =? mn)%float = false /\ (mx =? mx)%float = false).
Proof.
  cbv zeta.
  pose proof (fold_minimum_in rest x) as Imin.
  pose proof (fold_maximum_in rest x) as Imax.
  split; [exact Imin |]. split; [exact Imax |]. split.
  - intros Hall p Hp. split.
    + apply fold_minimum_le; [| exact Hp].
      unfold np.isnan. now rewrite (Hall _ Imin).
    + apply fold_maximum_ge; [| exact Hp].
      unfold np.isnan. now rewrite (Hall _ Imax).
  - intros (p & Hp & Hn).
    assert (Ep : p = nan).
    { apply isnan_eq. unfold np.isnan. now rewrite Hn. }
    subst p.
    assert (Hor : x = nan \/ In nan rest)
      by (destruct Hp as [-> | Hp]; [now left | now right]).
    rewrite (fold_minimum_nan rest x Hor), (fold_maximum_nan rest x Hor).
    split; reflexivity.
Qed.

(** When the minimum equals the maximum, every element equals them. *)
Lemma extremes_equal x rest p :
  (fold_left np.minimum rest x =? fold_left np.maximum rest x)%float = true ->
  In p (x :: rest) ->
  (p =? fold_left np.minimum rest x)%float = true.
Proof.
  intros Heq Hp.
  pose proof (fold_minimum_in rest x) as Imin.
  set (mn := fold_left np.minimum rest x) in *.
  set (mx := fold_left np.maximum rest x) in *.
  rewrite eqb_spec in Heq.
  assert (Hmn : np.isnan mn = false).
  { apply isnan_false_SF. eapply SFleb_not_nan_l, SFeqb_SFleb, Heq. }
  assert (Hmx : np.isnan mx = false).
  { apply isnan_false_SF. eapply SFleb_not_nan_r, SFeqb_SFleb, Heq. }
  pose proof (fold_minimum_le rest x Hmn p Hp) as H1.
  pose proof (fold_maximum_ge rest x Hmx p Hp) as H2.
  fold mn in H1. fold mx in H2.
  rewrite leb_spec in H1, H2. rewrite eqb_spec.
  apply SFleb_antisym; [| assumption].
  eapply SFleb_trans; [eassumption |].
  apply SFeqb_SFleb, SFeqb_sym, Heq.
Qed.

(** *** Order of the two levels *)

Lemma sqrt_below_finite a b :
  (np.sqrt a <? b)%float = true ->
  SF_is_finite (Prim2SF (np.sqrt a)) = true.
Proof.
  unfold np.sqrt. rewrite ltb_spec. intros Hlt.
  assert (E : Prim2SF (PrimFloat.sqrt a) = SFsqrt prec emax (Prim2SF a))
    by apply sqrt_spec.
  rewrite E in *. clear E.
  destruct (B64Facts.SFsqrt_output (Prim2SF a) (Prim2SF_valid a))
    as [Hn | [Hi | (v & Hv & _)]].
  - rewrite Hn in Hlt. discriminate Hlt.
  - rewrite Hi in Hlt.
    destruct (Prim2SF b) as [? | [] | | ? ? ?]; discriminate Hlt.
  - destruct (SFsqrt prec emax (Prim2SF a)) as [? | ? | | [] ? ?];
      try reflexivity; destruct Hv.
Qed.

(** Two levels that [ax.contour] accepted, between finite bounds, are
    strictly increasing. *)
Lemma accepted_levels_strict mn lo hi mx :
  SF_is_finite (Prim2SF mn) = true -> PrimFloat.is_finite mx = true ->
  (mn <=? lo)%float = true -> (lo <=? hi)%float = true ->
  (hi <=? mx)%float = true ->
  (hi - lo <=? 0)%float = false ->
  (lo <? hi)%float = true.
Proof.
  rewrite is_finite_SF_eq, !leb_spec, ltb_spec, sub_spec.
  intros Fmn Fmx H1 H2 H3 Hacc.
  apply SFsub_positive_strict; try assumption.
  - apply (SFleb_between_finite (Prim2SF mn) _ (Prim2SF mx)); try assumption.
    eapply SFleb_trans; eassumption.
  - apply (SFleb_between_finite (Prim2SF mn) _ (Prim2SF mx)); try assumption.
    eapply SFleb_trans; eassumption.
Qed.

(** C3 as stated does not hold on binary64.  On the 2 x 2 image
    [[0, 2^-51], [0, 2^-51]] the stretched data has
    [min = 1 < max = 1 + 2^-52]; the call returns the levels
    [1, 1 + 2^-52], the two end points of the range: the lower level is not
    strictly above the minimum. *)
Lemma C3_counterexample :
  ~ (forall data w sqrt_data contours w' min_val max_val,
       plot_image_and_contours data w = Ok (sqrt_data, contours) w' ->
       np.min (pixels sqrt_data) w = Ok min_val w ->
       np.max (pixels sqrt_data) w = Ok max_val w ->
       (min_val <? max_val)%float = true ->
       exists level_low level_high,
         levels contours = [level_low; level_high] /\
         (level_low <? level_high)%float = true /\
         (min_val <? level_low)%float = true /\
         (level_high <? max_val)%float = true).
Proof.
  intros H.
  assert (Hp : plot_image_and_contours
                 (mk_ndarray 2 2 [0; 0x1p-51; 0; 0x1p-51]%float) empty_world
               = Ok (mk_ndarray 2 2 [1; 0x1.0000000000001p+0;
                                     1; 0x1.0000000000001p+0]%float,
                     mk_ContourSet [1; 0x1.0000000000001p+0]%float)
                    (drawn empty_world
                       [Imshow (mk_ndarray 2 2 [1; 0x1.0000000000001p+0;
                                                1; 0x1.0000000000001p+0]%float)
                               "gist_heat" "lower" "auto";
                        Contour (mk_ndarray 2 2 [1; 0x1.0000000000001p+0;
                                                 1; 0x1.0000000000001p+0]%float)
                                [1; 0x1.0000000000001p+0]%float
                                ["yellow"; "cyan"]]))
    by (rewrite plot_image_and_contours_eq; reflexivity).
  destruct (H _ _ _ _ _ 1%float 0x1.0000000000001p+0%float Hp eq_refl eq_refl eq_refl)
    as (lo & hi & Hl & _ & Hlo & _).
  cbn [levels] in Hl. inversion Hl; subst lo hi. discriminate Hlo.
Qed.

(** C3, amended.  Whenever the call returns on stretched float64 data with
    [min < max] (the true extremes: every stretched pixel lies between them),
    the level set has exactly two values, both in the closed interval
    [[min, max]], with [low <= high]; they are strictly increasing when the
    maximum is finite. *)
Theorem C3_levels_increasing_within_closed_range
    data w sqrt_data contours w' min_val max_val :
  plot_image_and_contours data w = Ok (sqrt_data, contours) w' ->
  np.min (pixels sqrt_data) w = Ok min_val w ->
  np.max (pixels sqrt_data) w = Ok max_val w ->
  (min_val <? max_val)%float = true ->
  (forall p, In p (pixels sqrt_data) ->
     (min_val <=? p)%float = true /\ (p <=? max_val)%float = true) /\
  exists level_low level_high,
    levels contours = [level_low; level_high] /\
    (min_val <=? level_low)%float = true /\
    (level_low <=? level_high)%float = true /\
    (level_high <=? max_val)%float = true /\
    (PrimFloat.is_finite max_val = true ->
     (level_low <? level_high)%float = true).
Proof.
  intros Hplot Hmin Hmax Hlt.
  apply plot_image_and_contours_ok in Hplot.
  destruct Hplot as (x & rest & e0 & lo & hi & Hs & -> & Hlin & -> & _ & Hacc & _).
  cbn [pixels levels] in *. unfold np.min, np.max, ret in Hmin, Hmax.
  inversion Hmin as [Emin]; inversion Hmax as [Emax]; clear Hmin Hmax.
  pose proof (fold_minimum_in rest x) as Imin.
  pose proof (fold_maximum_in rest x) as Imax.
  rewrite Emin in *. rewrite Emax in *.
  assert (Hnn : np.isnan min_val = false /\ np.isnan max_val = false).
  { rewrite ltb_spec in Hlt. split; apply isnan_false_SF.
    - eapply SFleb_not_nan_l, SFltb_SFleb, Hlt.
    - eapply SFleb_not_nan_r, SFltb_SFleb, Hlt. }
  destruct Hnn as [Nmin Nmax].
  split.
  - intros p Hp. split.
    + rewrite <- Emin. apply fold_minimum_le; [now rewrite Emin | exact Hp].
    + rewrite <- Emax. apply fold_maximum_ge; [now rewrite Emax | exact Hp].
  - rewrite <- Hs in Imin, Imax.
    apply in_stretched_inv in Imin, Imax.
    destruct Imin as [a Ea]. destruct Imax as [b Eb].
    assert (Hfin : SF_is_finite (Prim2SF min_val) = true).
    { rewrite Ea. apply (sqrt_below_finite (a + 1) max_val). now rewrite <- Ea. }
    rewrite Ea, Eb in Hlt.
    destruct (stretched_levels_bounds _ _ Hlt) as (lo' & hi' & Hint & H1 & H2 & H3).
    rewrite <- Ea, <- Eb in Hint. rewrite <- Ea in H1. rewrite <- Eb in H3.
    rewrite Hlin in Hint. cbn [np.interior tl removelast] in Hint.
    inversion Hint; subst lo' hi'.
    exists lo, hi. repeat split; try assumption.
    intros Fmax. now apply (accepted_levels_strict min_val lo hi max_val).
Qed.

(** *** The four samples *)

Lemma SFdiv_three_finite x :
  SF_is_finite (SFdiv prec emax x B64.SF_three) = true -> SF_is_finite x = true.
Proof. destruct x as [s | s | | s m e]; try reflexivity; cbn; discriminate. Qed.

Lemma SFsub_finite_right a b :
  SF_is_finite (SFsub prec emax b a) = true -> SF_is_finite a = true.
Proof.
  destruct a as [sa | [] | | sa ma ea]; try reflexivity;
    destruct b as [sb | [] | | sb mb eb]; cbn; discriminate.
Qed.

Lemma SFadd_zero_times s x a :
  SF_is_finite x = true -> SF_is_finite a = true ->
  SFeqb (SFadd prec emax (SFmul prec emax (S754_zero s) x) a) a = true.
Proof.
  destruct x as [sx | sx | | sx mx ex]; try discriminate; intros _;
    destruct a as [sa | sa | | sa ma ea]; try discriminate; intros _;
    cbn [SFmul SFadd];
    try (destruct (xorb s sx), sa; reflexivity);
    apply SFeqb_refl; reflexivity.
Qed.

Lemma first_sample_is_start start stop e0 e1 e2 e3 :
  np.linspace start stop 4 = [e0; e1; e2; e3] ->
  PrimFloat.is_finite ((stop - start) / 3)%float = true ->
  (e0 =? start)%float = true.
Proof.
  intros Hl Hfin. apply is_finite_SF in Hfin.
  rewrite div_spec, sub_spec in Hfin.
  change (Prim2SF 3) with B64.SF_three in Hfin.
  pose proof (SFdiv_three_finite _ Hfin) as Hdelta.
  pose proof (SFsub_finite_right _ _ Hdelta) as Hstart.
  rewrite linspace_4_eq in Hl.
  destruct ((stop - start) / 3 =? 0)%float; inversion Hl; subst; clear Hl;
    rewrite eqb_spec, add_spec, mul_spec.
  - rewrite sub_spec. now apply (SFadd_zero_times false).
  - rewrite div_spec, sub_spec. now apply (SFadd_zero_times false).
Qed.

(** When the spacing is infinite or NaN, so is the first sample. *)
Lemma first_sample_nan start stop e0 e1 e2 e3 :
  np.linspace start stop 4 = [e0; e1; e2; e3] ->
  PrimFloat.is_finite ((stop - start) / 3)%float = false ->
  (e0 =? e0)%float = false.
Proof.
  intros Hl Hfin. rewrite is_finite_SF_eq in Hfin.
  rewrite linspace_4_eq in Hl.
  set (step := ((stop - start) / 3)%float) in *.
  assert (Hz : (step =? 0)%float = false).
  { rewrite eqb_spec.
    destruct (Prim2SF step) as [? | [] | | ? ? ?];
      try discriminate Hfin; reflexivity. }
  rewrite Hz in Hl. inversion Hl as [[E0 E1 E2 E3]].
  rewrite eqb_spec, add_spec, mul_spec.
  destruct (Prim2SF step) as [? | [] | | ? ? ?];
    try discriminate Hfin; reflexivity.
Qed.

(** C2 as stated does not hold for every image: with an infinite pixel the
    stretched data [[1, inf], [1, inf]] has minimum 1 and maximum [inf], and
    the four samples are [nan, inf, inf, inf]: the sample that is discarded
    first is not the minimum. *)
Lemma C2_counterexample :
  ~ (forall data min_val max_val w,
       np.min (map (fun d => np.sqrt (d + 1)%float) (pixels data)) w
         = Ok min_val w ->
       np.max (map (fun d => np.sqrt (d + 1)%float) (pixels data)) w
         = Ok max_val w ->
       exists e0 e1 e2 e3,
         np.linspace min_val max_val 4 = [e0; e1; e2; e3] /\
         np.interior (np.linspace min_val max_val 4) = [e1; e2] /\
         (e0 =? min_val)%float = true /\ (e3 =? max_val)%float = true).
Proof.
  intros H.
  destruct (H (mk_ndarray 2 2 [0; infinity; 0; infinity]%float)
              1%float infinity empty_world eq_refl eq_refl)
    as (e0 & e1 & e2 & e3 & Hl & _ & H0 & _).
  assert (E : np.linspace 1 infinity 4 = [nan; infinity; infinity; infinity])
    by reflexivity.
  rewrite E in Hl. inversion Hl; subst. discriminate H0.
Qed.

(** C2, amended.  On a non-empty float64 image, the stretched data is
    [sqrt(data + 1)]; [min] and [max] are its extremes (elements of it, bounds
    of it, NaN as soon as a pixel is NaN); the contour levels are the second
    and third of the four samples of [np.linspace(min, max, 4)], whose
    formulas are given; the last sample, discarded, is the maximum; the
    first, discarded, equals the minimum when the spacing is finite and is
    NaN otherwise.  These two levels are what [ax.contour] is given: the call
    raises TypeError below 2 x 2, ValueError when the levels are not
    increasing, and otherwise returns them with the stretched array. *)
Theorem C2_levels_are_interior_linspace data :
  pixels data <> [] ->
  let stretched := map (fun d => PrimFloat.sqrt (d + 1)) (pixels data) in
  let sqrt_data := mk_ndarray (nrows data) (ncols data) stretched in
  exists min_val max_val e0 e1 e2,
    (In min_val stretched /\ In max_val stretched /\
     ((forall p, In p stretched -> (p =? p)%float = true) ->
      forall p, In p stretched ->
        (min_val <=? p)%float = true /\ (p <=? max_val)%float = true) /\
     ((exists p, In p stretched /\ (p =? p)%float = false) ->
      (min_val =? min_val)%float = false /\
      (max_val =? max_val)%float = false)) /\
    np.linspace min_val max_val 4 = [e0; e1; e2; max_val] /\
    (let step := ((max_val - min_val) / 3)%float in
     [e0; e1; e2] =
     if (step =? 0)%float
     then [ (0 / 3 * (max_val - min_val) + min_val)%float;
            (1 / 3 * (max_val - min_val) + min_val)%float;
            (2 / 3 * (max_val - min_val) + min_val)%float ]
     else [ (0 * step + min_val)%float; (1 * step + min_val)%float;
            (2 * step + min_val)%float ]) /\
    (PrimFloat.is_finite ((max_val - min_val) / 3)%float = true ->
     (e0 =? min_val)%float = true) /\
    (PrimFloat.is_finite ((max_val - min_val) / 3)%float = false ->
     (e0 =? e0)%float = false) /\
    forall w,
      plot_image_and_contours data w =
      if ((nrows data <? 2) || (ncols data <? 2))%Z
      then Raised TypeError
             (drawn w [Imshow sqrt_data "gist_heat" "lower" "auto"])
      else if (e2 - e1 <=? 0)%float
      then Raised ValueError
             (drawn w [Imshow sqrt_data "gist_heat" "lower" "auto"])
      else Ok (sqrt_data, mk_ContourSet [e1; e2])
              (drawn w [Imshow sqrt_data "gist_heat" "lower" "auto";
                        Contour sqrt_data [e1; e2] ["yellow"; "cyan"]]).
Proof.
  intros Hne stretched sqrt_data.
  assert (Hs : exists x rest, stretched = x :: rest).
  { unfold stretched. destruct (pixels data) as [| p ps]; [congruence |].
    cbn [map]. eauto. }
  destruct Hs as (x & rest & Hs).
  set (mn := fold_left np.minimum rest x). set (mx := fold_left np.maximum rest x).
  destruct (linspace_4 mn mx) as (e0 & e1 & e2 & He).
  exists mn, mx, e0, e1, e2.
  split; [rewrite Hs; apply extremes_spec |].
  split; [exact He |]. split; [| split; [| split]].
  - cbv zeta. rewrite linspace_4_eq in He.
    destruct ((mx - mn) / 3 =? 0)%float; inversion He; reflexivity.
  - intros Hfin. eapply first_sample_is_start; eassumption.
  - intros Hfin. eapply first_sample_nan; eassumption.
  - intros w. rewrite plot_image_and_contours_eq. cbv zeta.
    change (map (fun d => np.sqrt (d + 1)%float) (pixels data)) with stretched.
    fold sqrt_data. clearbody sqrt_data. rewrite Hs. fold mn mx. rewrite He.
    reflexivity.
Qed.

(** *** A constant image *)

(** The samples between two equal numbers: three times the same number, which
    equals them when they are finite, and is then refused by [ax.contour] as
    a pair of levels. *)
Lemma linspace_equal mn mx :
  (mn =? mx)%float = true ->
  exists L,
    np.linspace mn mx 4 = [L; L; L; mx] /\
    (PrimFloat.is_finite mn = true ->
     (L =? mn)%float = true /\ (L - L <=? 0)%float = true).
Proof.
  intros Heq. rewrite eqb_spec in Heq.
  pose proof (SFsub_equal _ _ Heq) as Hd. rewrite <- sub_spec in Hd.
  rewrite linspace_4_eq.
  destruct (SF_is_finite (Prim2SF mn)) eqn:Hfin.
  - destruct Hd as [s Hd].
    assert (Hstep : ((mx - mn) / 3 =? 0)%float = true).
    { rewrite eqb_spec, div_spec, Hd. destruct s; reflexivity. }
    rewrite Hstep.
    assert (Hprod : forall c,
               Prim2SF c = S754_zero false \/
               (exists m e, Prim2SF c = S754_finite false m e) ->
               (c * (mx - mn))%float = SF2Prim (S754_zero s)).
    { intros c Hc. rewrite <- (SF2Prim_Prim2SF (c * (mx - mn))), mul_spec, Hd.
      destruct Hc as [-> | (m & e & ->)]; destruct s; reflexivity. }
    rewrite (Hprod (0 / 3)%float), (Hprod (1 / 3)%float), (Hprod (2 / 3)%float);
      try (left; reflexivity); try (right; eexists; eexists; reflexivity).
    exists (SF2Prim (S754_zero s) + mn)%float. split; [reflexivity |].
    intros _.
    assert (HL : (SF2Prim (S754_zero s) + mn =? mn)%float = true).
    { rewrite eqb_spec, add_spec.
      replace (Prim2SF (SF2Prim (S754_zero s)))
        with (SFmul prec emax (S754_zero s) (S754_zero false))
        by (destruct s; reflexivity).
      now apply SFadd_zero_times. }
    split; [exact HL |].
    rewrite sub_self. rewrite eqb_spec in HL.
    now rewrite (SFeqb_finite _ _ HL Hfin).
  - assert (Hstep : ((mx - mn) / 3 =? 0)%float = false).
    { rewrite eqb_spec, div_spec, Hd. reflexivity. }
    rewrite Hstep.
    assert (Hprod : forall c, (c * ((mx - mn) / 3))%float = nan).
    { intros c. rewrite <- (SF2Prim_Prim2SF (c * _)), mul_spec, div_spec, Hd.
      destruct (Prim2SF c) as [? | ? | | ? ? ?]; reflexivity. }
    rewrite !Hprod. exists (nan + mn)%float. split; [reflexivity |].
    rewrite is_finite_SF_eq. congruence.
Qed.

(** C7 as stated does not hold: on the constant 2 x 2 image of value 8 the
    two levels are equal, [ax.contour] refuses them with ValueError, and the
    run ends there: no failure sentence is printed, nothing is. *)
Lemma C7_counterexample :
  ~ (forall S V F np_cos np_sin w coords data wcs min_val max_val,
       get_object_coordinates S "M88" w = Ok coords w ->
       get_image_data V coords "DSS" (mk_Quantity 5 arcmin) w = Ok (data, wcs) w ->
       np.min (map (fun d => np.sqrt (d + 1)%float) (pixels data)) w
         = Ok min_val w ->
       np.max (map (fun d => np.sqrt (d + 1)%float) (pixels data)) w
         = Ok max_val w ->
       (min_val =? max_val)%float = true ->
       exists w',
         main S V F np_cos np_sin w = Ok tt w' /\
         console w' = (console w ++ [failure_message])%list).
Proof.
  intros H.
  destruct (H Sample.catalog Sample.flat_survey Sample.fit_hit
              Sample.cos50 Sample.sin50 empty_world
              (mk_SkyCoord "12 31 59.216 +14 25 13.48" (hourangle, deg))
              Sample.flat (mk_WCS [("SURVEY", "DSS")]) 3%float 3%float
              eq_refl eq_refl eq_refl eq_refl eq_refl) as (w' & Hm & _).
  assert (E : main Sample.catalog Sample.flat_survey Sample.fit_hit
                   Sample.cos50 Sample.sin50 empty_world
              = Raised ValueError Sample.flat_world) by reflexivity.
  rewrite E in Hm. discriminate Hm.
Qed.

(** C7, amended.  On a float64 image whose stretched minimum equals its
    maximum, every stretched pixel equals them; the level computation does
    not fail: the four samples are three identical numbers and the maximum,
    the two kept levels are identical, the strict band is empty and the fit
    returns [None] on them without drawing.  When the constant is finite the
    levels equal it and the run does not get that far: [ax.contour] refuses
    the pair with ValueError (TypeError for an image below 2 x 2), [main]
    does not catch it, and nothing is printed. *)
Theorem C7_constant_image_stops_at_contour data w0 min_val max_val :
  let sqrt_data :=
    mk_ndarray (nrows data) (ncols data)
               (map (fun d => PrimFloat.sqrt (d + 1)) (pixels data)) in
  np.min (pixels sqrt_data) w0 = Ok min_val w0 ->
  np.max (pixels sqrt_data) w0 = Ok max_val w0 ->
  (min_val =? max_val)%float = true ->
  (forall p, In p (pixels sqrt_data) -> (p =? min_val)%float = true) /\
  exists L,
    np.linspace min_val max_val 4 = [L; L; L; max_val] /\
    np.interior (np.linspace min_val max_val 4) = [L; L] /\
    (forall iso, strict_band L L iso = false) /\
    (forall F np_cos np_sin sd w,
       fit_and_plot_ellipse F np_cos np_sin sd [L; L] w = Ok None w) /\
    (PrimFloat.is_finite min_val = true ->
     (L =? min_val)%float = true /\
     let e := if ((nrows data <? 2) || (ncols data <? 2))%Z
              then TypeError else ValueError in
     (forall w,
        plot_image_and_contours data w =
        Raised e (drawn w [Imshow sqrt_data "gist_heat" "lower" "auto"])) /\
     (forall S V F np_cos np_sin w coords wcs,
        get_object_coordinates S "M88" w = Ok coords w ->
        get_image_data V coords "DSS" (mk_Quantity 5 arcmin) w
          = Ok (data, wcs) w ->
        exists w',
          main S V F np_cos np_sin w = Raised e w' /\
          console w' = console w)).
Proof.
  intros sqrt_data Hmin Hmax Heq. cbn [pixels] in *.
  destruct (map (fun d => PrimFloat.sqrt (d + 1)) (pixels data))
    as [| x rest] eqn:Hs; [discriminate |].
  change (Ok (fold_left np.minimum rest x) w0 = Ok min_val w0) in Hmin.
  change (Ok (fold_left np.maximum rest x) w0 = Ok max_val w0) in Hmax.
  assert (Emin : fold_left np.minimum rest x = min_val) by congruence.
  assert (Emax : fold_left np.maximum rest x = max_val) by congruence.
  clear Hmin Hmax.
  split.
  - intros p Hp. rewrite <- Emin. apply extremes_equal; [| exact Hp].
    now rewrite Emin, Emax.
  - destruct (linspace_equal min_val max_val Heq) as (L & HL & Hfin).
    assert (Hfit : forall F np_cos np_sin sd w,
               fit_and_plot_ellipse F np_cos np_sin sd [L; L] w = Ok None w).
    { intros. rewrite fit_and_plot_ellipse_find.
      destruct (find _ _) as [iso |] eqn:Hf; [| reflexivity].
      apply find_some in Hf. destruct Hf as [_ Hb].
      now rewrite strict_band_empty in Hb. }
    exists L. split; [exact HL |]. split; [now rewrite HL |].
    split; [apply strict_band_empty |]. split; [exact Hfit |].
    intros Hf. destruct (Hfin Hf) as [HLm Hrej]. split; [exact HLm |].
    cbv zeta.
    assert (Hp : forall w,
               plot_image_and_contours data w =
               Raised (if ((nrows data <? 2) || (ncols data <? 2))%Z
                       then TypeError else ValueError)
                      (drawn w [Imshow sqrt_data "gist_heat" "lower" "auto"])).
    { intros w. rewrite plot_image_and_contours_eq. cbv zeta.
      change (map (fun d => np.sqrt (d + 1)%float) (pixels data))
        with (map (fun d => PrimFloat.sqrt (d + 1)) (pixels data)).
      unfold sqrt_data. rewrite Hs, Emin, Emax, HL.
      cbn [np.interior tl removelast].
      rewrite contour_levels_rejected_two, Hrej.
      destruct ((nrows data <? 2) || (ncols data <? 2))%Z; reflexivity. }
    split; [exact Hp |].
    intros S V F np_cos np_sin w coords wcs Hc Hi.
    eexists. split.
    + rewrite main_split, (before_fit_from_services _ _ _ _ _ _ Hc Hi), Hp.
      reflexivity.
    + reflexivity.
Qed.

(** * Further properties of the script *)

(** ** The band test with fewer than two levels *)

Section ShortLevels.

Variable np_cos np_sin : float -> float.

Lemma scan_isolist_no_level center isolist w :
  scan_isolist np_cos np_sin center [] isolist w =
  match isolist with
  | [] => Ok None w
  | _ :: _ => Raised IndexError w
  end.
Proof. destruct isolist; reflexivity. Qed.

Lemma scan_isolist_one_level center l isolist w :
  scan_isolist np_cos np_sin center [l] isolist w =
  if existsb (fun iso => PrimFloat.ltb l (intens iso)) isolist
  then Raised IndexError w else Ok None w.
Proof.
  induction isolist as [| iso isos IH]; [reflexivity |].
  cbn [scan_isolist existsb]. unfold bind at 1.
  unfold in_band, bind, getitem; cbn [nth_error]. unfold ret.
  destruct (PrimFloat.ltb l (intens iso)); cbn [orb]; [reflexivity | exact IH].
Qed.

End ShortLevels.

(** X1.  With fewer than two contour levels the second index is only reached
    by an isophote brighter than the first level: an empty level list raises
    IndexError as soon as there is an isophote to test; a single level [l]
    raises IndexError exactly when some isophote has [l < intens], and gives
    [None] otherwise; nothing is drawn in either case. *)
Theorem X1_fewer_than_two_levels F np_cos np_sin data w :
  fit_and_plot_ellipse F np_cos np_sin data [] w =
    match F data (seed_geometry data) with
    | [] => Ok None w
    | _ :: _ => Raised IndexError w
    end
  /\ forall l,
       fit_and_plot_ellipse F np_cos np_sin data [l] w =
       if existsb (fun iso => PrimFloat.ltb l (intens iso))
                  (F data (seed_geometry data))
       then Raised IndexError w else Ok None w.
Proof.
  split; [| intros l]; unfold fit_and_plot_ellipse; cbn [fst snd].
  - apply scan_isolist_no_level.
  - apply scan_isolist_one_level.
Qed.

(** What [fit_and_plot_ellipse] can do to the world, for any list of
    levels. *)
Lemma fit_and_plot_ellipse_frame F np_cos np_sin data contour_levels w :
  match fit_and_plot_ellipse F np_cos np_sin data contour_levels w with
  | Ok None w' => w' = w
  | Ok (Some radius) w' =>
      exists iso, In iso (F data (seed_geometry data)) /\ radius = sma iso /\
                  w' = drawn w (ellipse_artists np_cos np_sin data iso)
  | Raised e w' => e = IndexError /\ w' = w /\ (List.length contour_levels < 2)%nat
  end.
Proof.
  destruct contour_levels as [| l [| u rest]].
  - unfold fit_and_plot_ellipse; cbn [fst snd]. rewrite scan_isolist_no_level.
    destruct (F data _); cbn; auto.
  - unfold fit_and_plot_ellipse; cbn [fst snd]. rewrite scan_isolist_one_level.
    destruct (existsb _ _); cbn; auto.
  - rewrite fit_and_plot_ellipse_find.
    destruct (find _ _) as [iso |] eqn:Hf; [| reflexivity].
    apply find_some in Hf. exists iso. tauto.
Qed.

(** X2.  Whatever the levels, the fit never prints, draws either nothing or
    the three artists of one single isophote of the fitted list (whose
    semi-major axis it then returns), and can only raise IndexError, which
    needs fewer than two levels and leaves the world untouched. *)
Theorem X2_fit_draws_at_most_one_ellipse F np_cos np_sin data contour_levels w :
  match fit_and_plot_ellipse F np_cos np_sin data contour_levels w with
  | Ok radius w' =>
      console w' = console w /\
      match radius with
      | None => canvas w' = canvas w
      | Some r =>
          exists iso, In iso (F data (seed_geometry data)) /\ r = sma iso /\
                      canvas w' =
                      (canvas w ++ ellipse_artists np_cos np_sin data iso)%list
      end
  | Raised e w' =>
      e = IndexError /\ w' = w /\ (List.length contour_levels < 2)%nat
  end.
Proof.
  pose proof (fit_and_plot_ellipse_frame F np_cos np_sin data contour_levels w) as H.
  destruct (fit_and_plot_ellipse F np_cos np_sin data contour_levels w)
    as [[r |] w' | e w']; [| subst; auto | exact H].
  destruct H as (iso & Hin & Hr & ->). split; [reflexivity |].
  exists iso. auto.
Qed.

(** ** Order of binary64 numbers *)

Lemma strict_band_reversed lower upper iso :
  (upper <=? lower)%float = true -> strict_band lower upper iso = false.
Proof.
  intros Hle. unfold strict_band.
  destruct (lower <? intens iso)%float eqn:H1; [| reflexivity].
  destruct (intens iso <? upper)%float eqn:H2; [| reflexivity].
  rewrite ltb_spec in H1, H2. rewrite leb_spec in Hle.
  pose proof (SFltb_trans _ _ _ H1 H2) as H.
  now rewrite (SFleb_not_ltb _ _ Hle) in H.
Qed.

(** X3.  Levels that are not in increasing order select nothing: when
    [upper <= lower] no intensity is strictly between them, so the fit
    returns [None] and draws nothing, whatever the fitted list. *)
Theorem X3_reversed_levels_select_nothing
    F np_cos np_sin data lower upper w :
  (upper <=? lower)%float = true ->
  fit_and_plot_ellipse F np_cos np_sin data [lower; upper] w = Ok None w.
Proof.
  intros Hle. rewrite fit_and_plot_ellipse_find.
  destruct (find _ _) as [iso |] eqn:Hf; [| reflexivity].
  apply find_some in Hf. destruct Hf as [_ Hb].
  now rewrite (strict_band_reversed _ _ _ Hle) in Hb.
Qed.

(** ** NaN intensities *)

Lemma strict_band_nan_intens lower upper iso :
  np.isnan (intens iso) = true -> strict_band lower upper iso = false.
Proof.
  intros H. apply isnan_SF in H. unfold strict_band.
  rewrite !ltb_spec, H. unfold SFltb.
  destruct (Prim2SF lower) as [? | ? | | ? ? ?]; reflexivity.
Qed.

Lemma find_filter {A} (p q : A -> bool) (l : list A) :
  (forall x, p x = true -> q x = true) ->
  find p (filter q l) = find p l.
Proof.
  intros Hpq. induction l as [| x l IH]; [reflexivity |].
  cbn [filter find]. destruct (q x) eqn:Hq.
  - cbn [find]. now rewrite IH.
  - destruct (p x) eqn:Hp; [| exact IH].
    rewrite (Hpq x Hp) in Hq. discriminate.
Qed.

(** X4.  An isophote whose mean intensity is NaN is never selected: the fit
    behaves as if those isophotes were absent from the fitted list. *)
Theorem X4_nan_intensities_are_skipped F np_cos np_sin data lower upper w :
  fit_and_plot_ellipse F np_cos np_sin data [lower; upper] w =
  fit_and_plot_ellipse
    (fun d g => filter (fun iso => negb (np.isnan (intens iso))) (F d g))
    np_cos np_sin data [lower; upper] w.
Proof.
  rewrite !fit_and_plot_ellipse_find, find_filter; [reflexivity |].
  intros iso Hb. destruct (np.isnan (intens iso)) eqn:Hn; [| reflexivity].
  now rewrite (strict_band_nan_intens _ _ _ Hn) in Hb.
Qed.

(** ** The two service wrappers, case by case *)

(** X5.  [get_object_coordinates] looks at the RA column first and the DEC
    column second: a missing column raises KeyError, an empty one IndexError,
    and a failure on RA hides whatever is wrong with DEC; otherwise the
    coordinate text is the first RA and the first DEC joined by one space,
    read as (hourangle, deg); the world is never touched. *)
Theorem X5_coordinates_lookup_order S name w :
  get_object_coordinates S name w =
  match lookup_column (S name) "RA" with
  | None => Raised KeyError w
  | Some [] => Raised IndexError w
  | Some (ra :: _) =>
      match lookup_column (S name) "DEC" with
      | None => Raised KeyError w
      | Some [] => Raised IndexError w
      | Some (dec :: _) => Ok (mk_SkyCoord (ra ++ " " ++ dec) (hourangle, deg)) w
      end
  end.
Proof.
  unfold get_object_coordinates, bind, getcolumn.
  destruct (lookup_column (S name) "RA") as [[| ra ras] |]; try reflexivity.
  cbn. destruct (lookup_column (S name) "DEC") as [[| dec decs] |]; reflexivity.
Qed.

(** X6.  [get_image_data] needs a first image with a first HDU: an empty
    list, or a first image without HDUs (whatever follows it), raises
    IndexError; otherwise the pixel array and the WCS both come from that one
    HDU; the world is never touched. *)
Theorem X6_image_data_first_hdu V coords survey radius w :
  get_image_data V coords survey radius w =
  match V coords survey radius with
  | [] => Raised IndexError w
  | [] :: _ => Raised IndexError w
  | (hdu :: _) :: _ => Ok (hdu_data hdu, mk_WCS (hdu_header hdu)) w
  end.
Proof.
  unfold get_image_data, bind.
  destruct (V coords survey radius) as [| [| hdu hdus] others]; reflexivity.
Qed.

(** ** Images without usable pixels *)

(** X7.  An image without pixels stops the run: the empty raster is still
    sent to the backend, then the minimum of nothing raises ValueError, which
    [main] does not catch; nothing is printed. *)
Theorem X7_empty_image_raises data :
  pixels data = [] ->
  (forall w,
     plot_image_and_contours data w =
     Raised ValueError
       (drawn w [Imshow (mk_ndarray (nrows data) (ncols data) [])
                        "gist_heat" "lower" "auto"]))
  /\
  (forall S V F np_cos np_sin w coords wcs,
     get_object_coordinates S "M88" w = Ok coords w ->
     get_image_data V coords "DSS" (mk_Quantity 5 arcmin) w = Ok (data, wcs) w ->
     main S V F np_cos np_sin w =
     Raised ValueError
       (drawn w [ Subplots (10, 10) wcs;
                  SetMajorFormatter "ra" "hh:mm:ss";
                  SetMajorFormatter "dec" "dd:mm:ss";
                  SetXLabel "RA"; SetYLabel "DEC";
                  Imshow (mk_ndarray (nrows data) (ncols data) [])
                         "gist_heat" "lower" "auto" ])).
Proof.
  intros He.
  assert (Hp : forall w,
             plot_image_and_contours data w =
             Raised ValueError
               (drawn w [Imshow (mk_ndarray (nrows data) (ncols data) [])
                                "gist_heat" "lower" "auto"])).
  { intros w. rewrite plot_image_and_contours_eq. cbv zeta. now rewrite He. }
  split; [exact Hp |].
  intros S V F np_cos np_sin w coords wcs Hc Hi.
  rewrite main_split, (before_fit_from_services _ _ _ _ _ _ Hc Hi), Hp, drawn_drawn.
  reflexivity.
Qed.

(** X8.  On a float64 image of at least 2 x 2 pixels, one NaN pixel is
    enough to lose the radius: the stretched minimum and maximum are both
    NaN, so are the two levels, which [ax.contour] lets through (their
    difference is NaN, not a number below zero); no isophote is selected
    whatever the fit returns, and the run prints the failure sentence. *)
Theorem X8_nan_pixel_reports_failure data d :
  2 <= nrows data -> 2 <= ncols data ->
  In d (pixels data) -> (d =? d)%float = false ->
  let sqrt_data :=
    mk_ndarray (nrows data) (ncols data)
               (map (fun d => PrimFloat.sqrt (d + 1)) (pixels data)) in
  (forall w,
     plot_image_and_contours data w =
     Ok (sqrt_data, mk_ContourSet [nan; nan])
        (drawn w [Imshow sqrt_data "gist_heat" "lower" "auto";
                  Contour sqrt_data [nan; nan] ["yellow"; "cyan"]]))
  /\
  (forall F np_cos np_sin w,
     fit_and_plot_ellipse F np_cos np_sin sqrt_data [nan; nan] w = Ok None w)
  /\
  (forall S V F np_cos np_sin w coords wcs,
     get_object_coordinates S "M88" w = Ok coords w ->
     get_image_data V coords "DSS" (mk_Quantity 5 arcmin) w = Ok (data, wcs) w ->
     exists w',
       main S V F np_cos np_sin w = Ok tt w' /\
       console w' = (console w ++ ["Could not determine the ellipse radius."])%list).
Proof.
  intros Hr Hc Hin Hnan sqrt_data.
  assert (Hd : d = nan) by (apply isnan_eq; unfold np.isnan; now rewrite Hnan).
  subst d.
  assert (Hs : In nan (map (fun d => np.sqrt (d + 1)%float) (pixels data))).
  { change nan with ((fun d => np.sqrt (d + 1)%float) nan). now apply in_map. }
  assert (Hfit : forall F np_cos np_sin sd w,
             fit_and_plot_ellipse F np_cos np_sin sd [nan; nan] w = Ok None w).
  { intros. rewrite fit_and_plot_ellipse_find.
    destruct (find _ _) as [iso |] eqn:Hf; [| reflexivity].
    apply find_some in Hf. destruct Hf as [_ Hb].
    now rewrite strict_band_empty in Hb. }
  assert (Hshape : ((nrows data <? 2) || (ncols data <? 2))%Z = false).
  { apply orb_false_iff. split; apply Z.ltb_ge; assumption. }
  assert (Hp : forall w,
             plot_image_and_contours data w =
             Ok (sqrt_data, mk_ContourSet [nan; nan])
                (drawn w [Imshow sqrt_data "gist_heat" "lower" "auto";
                          Contour sqrt_data [nan; nan] ["yellow"; "cyan"]])).
  { intros w. rewrite plot_image_and_contours_eq. cbv zeta.
    change (map (fun d => PrimFloat.sqrt (d + 1)) (pixels data))
      with (map (fun d => np.sqrt (d + 1)%float) (pixels data)) in sqrt_data.
    fold sqrt_data. rewrite Hshape.
    destruct (map _ (pixels data)) as [| x rest] eqn:Hm; [destruct Hs |].
    assert (Hmin : fold_left np.minimum rest x = nan).
    { apply fold_minimum_nan. destruct Hs as [<- | Hs]; [now left | now right]. }
    assert (Hmax : fold_left np.maximum rest x = nan).
    { apply fold_maximum_nan. destruct Hs as [<- | Hs]; [now left | now right]. }
    rewrite Hmin, Hmax. reflexivity. }
  split; [exact Hp |]. split; [intros; apply Hfit |].
  intros S V F np_cos np_sin w coords wcs Hco Hi.
  eexists. split.
  - eapply main_report.
    + rewrite (before_fit_from_services _ _ _ _ _ _ Hco Hi). apply Hp.
    + apply Hfit.
  - reflexivity.
Qed.

(** ** The whole run *)


(** X10.  End to end.  When the catalog has a first RA/Dec row, the survey a
    first HDU, and the stretch-and-contour step returns, [main] returns
    normally.  The backend receives, in order: the canvas set-up, the
    stretched raster, the two contours, the three artists of the first
    isophote strictly inside the band (if there is one), the legend and the
    show call.  The console receives one line: the radius line of that
    isophote when its semi-major axis is not zero, the failure sentence
    otherwise. *)
Theorem X10_main_end_to_end
    S V F np_cos np_sin w coords data wcs sqrt_data lower upper w1 :
  get_object_coordinates S "M88" w = Ok coords w ->
  get_image_data V coords "DSS" (mk_Quantity 5 arcmin) w = Ok (data, wcs) w ->
  plot_image_and_contours data
    (drawn w [ Subplots (10, 10) wcs;
               SetMajorFormatter "ra" "hh:mm:ss";
               SetMajorFormatter "dec" "dd:mm:ss";
               SetXLabel "RA"; SetYLabel "DEC" ])
    = Ok (sqrt_data, mk_ContourSet [lower; upper]) w1 ->
  let selected :=
    find (strict_band lower upper) (F sqrt_data (seed_geometry sqrt_data)) in
  main S V F np_cos np_sin w =
  Ok tt
     (mk_World
        (canvas w ++
         [ Subplots (10, 10) wcs;
           SetMajorFormatter "ra" "hh:mm:ss";
           SetMajorFormatter "dec" "dd:mm:ss";
           SetXLabel "RA"; SetYLabel "DEC";
           Imshow sqrt_data "gist_heat" "lower" "auto";
           Contour sqrt_data [lower; upper] ["yellow"; "cyan"] ] ++
         match selected with
         | Some iso => ellipse_artists np_cos np_sin sqrt_data iso
         | None => []
         end ++
         [Legend; Show])%list
        (console w ++
         [ match selected with
           | Some iso =>
               if (sma iso =? 0)%float
               then "Could not determine the ellipse radius."
               else ("Radius of the ellipse in the blue region: "
                       ++ format_2f (sma iso) ++ " pixels")%string
           | None => "Could not determine the ellipse radius."
           end ])%list).
Proof.
  intros Hc Hi Hp selected.
  pose proof (before_fit_from_services _ _ _ _ _ _ Hc Hi) as Hb.
  rewrite Hp in Hb.
  apply plot_image_and_contours_ok in Hp.
  destruct Hp as (x & rest & e0 & lo & hi & _ & Hsd & _ & Hcs & _ & _ & Hw1).
  injection Hcs as <- <-. rewrite drawn_drawn in Hw1. subst w1.
  pose proof (fit_and_plot_ellipse_find F np_cos np_sin sqrt_data lower upper []
                (drawn w
                   ([ Subplots (10, 10) wcs;
                      SetMajorFormatter "ra" "hh:mm:ss";
                      SetMajorFormatter "dec" "dd:mm:ss";
                      SetXLabel "RA"; SetYLabel "DEC" ] ++
                    [ Imshow sqrt_data "gist_heat" "lower" "auto";
                      Contour sqrt_data [lower; upper] ["yellow"; "cyan"] ]))) as Hf.
  fold selected in Hf.
  destruct selected as [iso |].
  - rewrite (main_report _ _ _ _ _ _ _ _ _ _ _ Hb Hf).
    rewrite !drawn_drawn. unfold printed, drawn, float_truthy, radius_line.
    cbn [canvas console]. rewrite <- !app_assoc.
    destruct (sma iso =? 0)%float; reflexivity.
  - rewrite (main_report _ _ _ _ _ _ _ _ _ _ _ Hb Hf).
    rewrite !drawn_drawn. unfold printed, drawn. cbn [canvas console].
    rewrite <- !app_assoc. reflexivity.
Qed.

Lemma get_object_coordinates_outcome S name w :
  match get_object_coordinates S name w with
  | Ok _ w' => w' = w
  | Raised e w' => w' = w /\ (e = IndexError \/ e = KeyError)
  end.
Proof.
  unfold get_object_coordinates, bind, getcolumn.
  destruct (lookup_column (S name) "RA") as [[| ra ras] |]; cbn; auto.
  destruct (lookup_column (S name) "DEC") as [[| dec decs] |]; cbn; auto.
Qed.

Lemma get_image_data_outcome V coords survey radius w :
  match get_image_data V coords survey radius w with
  | Ok _ w' => w' = w
  | Raised e w' => w' = w /\ e = IndexError
  end.
Proof.
  unfold get_image_data, bind.
  destruct (V coords survey radius) as [| [| hdu hdus] others]; cbn; auto.
Qed.

Lemma main_before_fit_outcome S V w :
  match main_before_fit S V w with
  | Ok (_, contours) w' =>
      console w' = console w /\ exists lower upper, levels contours = [lower; upper]
  | Raised e w' => console w' = console w
  end.
Proof.
  destruct (main_before_fit S V w) as [[sd cs] w' | e w'] eqn:H.
  - eapply main_before_fit_inv; eassumption.
  - revert H. unfold main_before_fit, bind.
    pose proof (get_object_coordinates_outcome S "M88" w) as Hc.
    destruct (get_object_coordinates S "M88" w) as [coords w0 | e0 w0].
    + subst w0.
      pose proof (get_image_data_outcome V coords "DSS" (mk_Quantity 5 arcmin) w) as Hi.
      destruct (get_image_data V coords "DSS" (mk_Quantity 5 arcmin) w)
        as [[data wcs] w1 | e1 w1].
      * subst w1. unfold setup_plot, bind. rewrite !draw_eq.
        rewrite plot_image_and_contours_eq. cbv zeta.
        destruct (map _ (pixels data)); [intros H; inversion H; reflexivity |].
        destruct (_ || _)%bool; [intros H; inversion H; reflexivity |].
        destruct (contour_levels_rejected _); intros H; inversion H; reflexivity.
      * destruct Hi as [-> ->]. intros H; inversion H; subst. reflexivity.
    + destruct Hc as [-> He]. intros H; inversion H; subst. reflexivity.
Qed.

(** X11.  [main] prints at most once and only at the very end: when it
    returns, the console has gained exactly one line, which is either the
    failure sentence or the radius line of a radius different from zero; when
    it raises, whatever the exception, the console is as it was. *)
Theorem X11_main_outcomes S V F np_cos np_sin w :
  match main S V F np_cos np_sin w with
  | Ok _ w' =>
      exists line,
        console w' = (console w ++ [line])%list /\
        (line = "Could not determine the ellipse radius." \/
         exists r, (r =? 0)%float = false /\
                   line = "Radius of the ellipse in the blue region: "
                            ++ format_2f r ++ " pixels")
  | Raised e w' => console w' = console w
  end.
Proof.
  rewrite main_split.
  pose proof (main_before_fit_outcome S V w) as Hb.
  destruct (main_before_fit S V w) as [[sd cs] w1 | e w1]; [| exact Hb].
  destruct Hb as (Hc & lo & hi & Hl). rewrite Hl, fit_and_plot_ellipse_find.
  destruct (find _ _) as [iso |]; cbn [truthy].
  - unfold float_truthy. destruct (sma iso =? 0)%float eqn:Hz; cbn; rewrite Hc.
    + eexists. split; [reflexivity | now left].
    + eexists. split; [reflexivity |]. right. exists (sma iso). auto.
  - cbn. rewrite Hc. eexists. split; [reflexivity | now left].
Qed.

(** ** Levels, stretch and selection together *)

(** The levels of a successful call, with the minimum and maximum they were
    computed from. *)
Lemma plot_levels_bounds data w sqrt_data contours w' min_val max_val :
  plot_image_and_contours data w = Ok (sqrt_data, contours) w' ->
  np.min (pixels sqrt_data) w = Ok min_val w ->
  np.max (pixels sqrt_data) w = Ok max_val w ->
  (min_val <? max_val)%float = true ->
  (exists d, In d (pixels data) /\ min_val = np.sqrt (d + 1)%float) /\
  exists lower upper,
    levels contours = [lower; upper] /\
    (min_val <=? lower)%float = true /\
    (lower <=? upper)%float = true /\
    (upper <=? max_val)%float = true.
Proof.
  intros Hplot Hmin Hmax Hlt.
  apply plot_image_and_contours_ok in Hplot.
  destruct Hplot as (x & rest & e0 & lo & hi & Hs & -> & Hlin & -> & _ & _ & _).
  cbn [pixels levels] in *. unfold np.min, np.max, ret in Hmin, Hmax.
  inversion Hmin as [Emin]; inversion Hmax as [Emax]; clear Hmin Hmax.
  pose proof (fold_minimum_in rest x) as Imin.
  pose proof (fold_maximum_in rest x) as Imax.
  rewrite Emin in *. rewrite Emax in *. rewrite <- Hs in Imin, Imax.
  split.
  - apply in_map_iff in Imin. destruct Imin as (d & Hd & Hin). eauto.
  - apply in_stretched_inv in Imin, Imax.
    destruct Imin as [a Ea]. destruct Imax as [b Eb].
    rewrite Ea, Eb in Hlt.
    destruct (stretched_levels_bounds _ _ Hlt) as (lo' & hi' & Hint & H1 & H2 & H3).
    rewrite <- Ea, <- Eb in Hint. rewrite <- Ea in H1. rewrite <- Eb in H3.
    rewrite Hlin in Hint. cbn [np.interior tl removelast] in Hint.
    inversion Hint; subst lo' hi'. exists lo, hi. auto.
Qed.

(** X12.  The band never reaches outside the image: whenever the stretched
    data has [min < max], every isophote that passes the band test has a mean
    intensity strictly between the stretched minimum and maximum. *)
Theorem X12_band_inside_stretched_range
    data w sqrt_data contours w' min_val max_val lower upper iso :
  plot_image_and_contours data w = Ok (sqrt_data, contours) w' ->
  np.min (pixels sqrt_data) w = Ok min_val w ->
  np.max (pixels sqrt_data) w = Ok max_val w ->
  (min_val <? max_val)%float = true ->
  levels contours = [lower; upper] ->
  strict_band lower upper iso = true ->
  (min_val <? intens iso)%float = true /\ (intens iso <? max_val)%float = true.
Proof.
  intros Hplot Hmin Hmax Hlt Hl Hb.
  destruct (plot_levels_bounds _ _ _ _ _ _ _ Hplot Hmin Hmax Hlt)
    as (_ & lo & hi & Hl' & H1 & _ & H3).
  rewrite Hl in Hl'. inversion Hl'; subst lo hi.
  unfold strict_band in Hb. apply andb_true_iff in Hb. destruct Hb as [Hb1 Hb2].
  rewrite ltb_spec in Hb1, Hb2. rewrite leb_spec in H1, H3. rewrite !ltb_spec.
  split.
  - eapply SFleb_ltb_trans; eassumption.
  - eapply SFltb_leb_trans; eassumption.
Qed.

(** X13.  On a float64 image without negative pixels whose stretched data
    has [min < max], and on which the call returns, the stretched minimum and
    both contour levels are at least 1. *)
Theorem X13_levels_at_least_one
    data w sqrt_data contours w' min_val max_val :
  (forall d, In d (pixels data) -> (0 <=? d)%float = true) ->
  plot_image_and_contours data w = Ok (sqrt_data, contours) w' ->
  np.min (pixels sqrt_data) w = Ok min_val w ->
  np.max (pixels sqrt_data) w = Ok max_val w ->
  (min_val <? max_val)%float = true ->
  (1 <=? min_val)%float = true /\
  exists lower upper,
    levels contours = [lower; upper] /\
    (1 <=? lower)%float = true /\ (1 <=? upper)%float = true.
Proof.
  intros Hpos Hplot Hmin Hmax Hlt.
  destruct (plot_levels_bounds _ _ _ _ _ _ _ Hplot Hmin Hmax Hlt)
    as ((d & Hin & Hd) & lo & hi & Hl & H1 & H2 & _).
  assert (H0 : (1 <=? min_val)%float = true).
  { rewrite Hd. apply B64Facts.stretch_at_least_one. now apply Hpos. }
  split; [exact H0 |]. exists lo, hi. split; [exact Hl |].
  rewrite leb_spec in H0, H1, H2. rewrite !leb_spec.
  assert (Hlo : SFleb (Prim2SF 1) (Prim2SF lo) = true)
    by (eapply SFleb_trans; eassumption).
  split; [exact Hlo |]. eapply SFleb_trans; eassumption.
Qed.

(** ** The two decimals of the radius line *)

Lemma div_half_even_spec n d :
  0 <= n -> 0 < d ->
  0 <= div_half_even n d /\
  2 * Z.abs (div_half_even n d * d - n) <= d /\
  (2 * Z.abs (div_half_even n d * d - n) = d ->
   Z.even (div_half_even n d) = true).
Proof.
  intros Hn Hd. unfold div_half_even.
  pose proof (Z.div_mod n d ltac:(lia)) as E.
  pose proof (Z.mod_pos_bound n d Hd) as B.
  pose proof (Z.div_pos n d Hn Hd) as Q.
  set (q := n / d) in *. set (r := n mod d) in *.
  destruct (Z.compare_spec (2 * r) d) as [Heq | Hlt | Hgt].
  - destruct (Z.even q) eqn:Hev.
    + split; [lia |]. split; [nia | intros _; exact Hev].
    + split; [lia |]. split; [nia |]. intros _.
      rewrite Z.even_add, Hev. reflexivity.
  - split; [lia |]. split; [nia | nia].
  - split; [lia |]. split; [nia | nia].
Qed.

Lemma hundredths_digits h :
  0 <= h ->
  0 <= h / 100 /\
  0 <= h mod 100 / 10 <= 9 /\ 0 <= h mod 10 <= 9 /\
  100 * (h / 100) + 10 * (h mod 100 / 10) + h mod 10 = h /\
  Z.even (h mod 10) = Z.even h.
Proof.
  intros Hh.
  assert (E : h = 10 * (h / 10) + h mod 10) by (apply Z.div_mod; lia).
  split; [| split; [| split; [| split]]];
    try (Z.to_euclidean_division_equations; lia).
  rewrite E at 2. rewrite Z.even_add, Z.even_mul. cbn.
  now destruct (Z.even (h mod 10)).
Qed.

(** X14.  The two-decimal rendering used in the radius line.  For a finite
    non-zero float64 of magnitude [v], the text is an optional minus sign,
    the decimal integer part, a point and two decimal digits; the number
    written is the multiple of 0.01 nearest to [v], and when [v] is exactly
    half-way between two of them the one with an even last digit.  The two
    zeros give 0.00 with their sign, and the special values give nan, inf
    and -inf. *)
Theorem X14_format_2f_nearest_hundredth :
  (forall x s m e,
     Prim2SF x = S754_finite s m e ->
     exists ip d1 d2,
       format_2f x =
       (if s then "-" else "")
         ++ NilZero.string_of_uint (N.to_uint (Z.to_N ip)) ++ "."
         ++ NilZero.string_of_uint (N.to_uint (Z.to_N d1))
         ++ NilZero.string_of_uint (N.to_uint (Z.to_N d2)) /\
       0 <= ip /\ 0 <= d1 <= 9 /\ 0 <= d2 <= 9 /\
       (Rabs (IZR (100 * ip + 10 * d1 + d2) - 100 * B64.F2R (Zpos m) e)
        <= 1 / 2)%R /\
       (Rabs (IZR (100 * ip + 10 * d1 + d2) - 100 * B64.F2R (Zpos m) e)
        = (1 / 2)%R -> Z.even d2 = true))
  /\
  (forall x s, Prim2SF x = S754_zero s ->
               format_2f x = (if s then "-" else "") ++ "0.00")
  /\
  format_2f nan = "nan" /\ format_2f infinity = "inf"
  /\ format_2f neg_infinity = "-inf".
Proof.
  split; [| split; [| repeat split]].
  - intros x s m e Hx. unfold format_2f. rewrite Hx.
    set (h := if (0 <=? e)%Z then Z.pos m * 2 ^ e * 100
              else div_half_even (Z.pos m * 100) (2 ^ (- e))).
    assert (Hh : 0 <= h /\
                 (Rabs (IZR h - 100 * B64.F2R (Zpos m) e) <= 1 / 2)%R /\
                 (Rabs (IZR h - 100 * B64.F2R (Zpos m) e) = (1 / 2)%R ->
                  Z.even h = true)).
    { unfold h, B64.F2R. destruct (Z.leb_spec 0 e) as [He | He].
      - assert (Hp : 0 < 2 ^ e) by (apply Z.pow_pos_nonneg; lia).
        split; [nia |].
        rewrite (B64Facts.bpow_IZR e He), !mult_IZR.
        replace (IZR (Z.pos m) * IZR (2 ^ e) * 100
                 - 100 * (IZR (Z.pos m) * IZR (2 ^ e)))%R with 0%R by ring.
        rewrite Rabs_R0. split; [lra | intros; lra].
      - set (d := 2 ^ (- e)).
        assert (Hd : 0 < d) by (apply Z.pow_pos_nonneg; lia).
        destruct (div_half_even_spec (Z.pos m * 100) d ltac:(lia) Hd)
          as (H0 & Hle & Hev).
        set (k := div_half_even (Z.pos m * 100) d) in *.
        split; [exact H0 |].
        assert (Hb : B64.bpow e = (/ IZR d)%R).
        { replace e with (- - e) at 1 by lia.
          rewrite B64Facts.bpow_opp, (B64Facts.bpow_IZR (- e)) by lia.
          reflexivity. }
        assert (HdR : (0 < IZR d)%R) by (apply IZR_lt; exact Hd).
        assert (Ediff : (IZR k - 100 * (IZR (Z.pos m) * B64.bpow e)
                         = IZR (k * d - Z.pos m * 100) / IZR d)%R).
        { rewrite Hb, minus_IZR, !mult_IZR. field. lra. }
        rewrite Ediff. unfold Rdiv.
        rewrite Rabs_mult, (Rabs_pos_eq (/ IZR d))
          by (left; now apply Rinv_0_lt_compat).
        rewrite <- abs_IZR.
        assert (Hc : forall a : Z,
                   ((IZR a * / IZR d <= 1 / 2)%R <-> 2 * a <= d) /\
                   ((IZR a * / IZR d = 1 / 2)%R <-> 2 * a = d)).
        { intros a. split; split; intros H.
          - apply le_IZR. rewrite mult_IZR.
            apply (Rmult_le_compat_r (IZR d)) in H; [| lra].
            rewrite Rmult_assoc, Rinv_l in H by lra. lra.
          - apply IZR_le in H. rewrite mult_IZR in H.
            apply (Rmult_le_reg_r (IZR d)); [lra |].
            rewrite Rmult_assoc, Rinv_l by lra. lra.
          - apply eq_IZR. rewrite mult_IZR.
            apply (f_equal (fun t => (t * IZR d)%R)) in H.
            rewrite Rmult_assoc, Rinv_l in H by lra. lra.
          - apply (f_equal IZR) in H. rewrite mult_IZR in H.
            apply (Rmult_eq_reg_r (IZR d)); [| lra].
            rewrite Rmult_assoc, Rinv_l by lra. lra. }
        split.
        + apply (proj1 (Hc _)). exact Hle.
        + intros Ht. apply Hev. apply (proj1 (proj2 (Hc _))). exact Ht. }
    destruct Hh as (H0 & Hle & Hev).
    destruct (hundredths_digits h H0) as (Hip & Hd1 & Hd2 & Hsum & Heven).
    exists (h / 100), (h mod 100 / 10), (h mod 10).
    rewrite Hsum.
    split; [reflexivity |]. split; [exact Hip |]. split; [exact Hd1 |].
    split; [exact Hd2 |]. split; [exact Hle |].
    intros Ht. rewrite Heven. now apply Hev.
  - intros x s Hx. unfold format_2f. rewrite Hx. destruct s; reflexivity.
Qed.

(** ** The statements above on the sample run *)

Lemma sample_before_fit :
  main_before_fit Sample.catalog Sample.survey empty_world =
  Ok (Sample.stretched, mk_ContourSet [2; 3]%float) Sample.before_fit_world.
Proof. reflexivity. Qed.

Lemma C4_witness :
  fit_and_plot_ellipse Sample.fit_miss Sample.cos50 Sample.sin50
    Sample.stretched [2; 3]%float Sample.before_fit_world
  = Ok None Sample.before_fit_world
  /\ exists w',
       main Sample.catalog Sample.survey Sample.fit_miss Sample.cos50 Sample.sin50
            empty_world = Ok tt w' /\
       console w' = [failure_message].
Proof.
  apply (C4_no_isophote_in_band_reports_failure
           Sample.catalog Sample.survey Sample.fit_miss Sample.cos50 Sample.sin50
           empty_world Sample.stretched (mk_ContourSet [2; 3]%float) 2%float 3%float
           Sample.before_fit_world).
  - reflexivity.
  - reflexivity.
  - intros iso [<- | [<- | [<- | []]]]; reflexivity.
Defined.

Lemma C6_witness :
  (fit_and_plot_ellipse Sample.fit_zero Sample.cos50 Sample.sin50
     Sample.stretched [2; 3]%float Sample.before_fit_world
   = Ok (Some 0%float)
        (drawn Sample.before_fit_world
           (ellipse_artists Sample.cos50 Sample.sin50 Sample.stretched
                            (Sample.iso 2.5 0)))
   /\ exists w',
        main Sample.catalog Sample.survey Sample.fit_zero Sample.cos50 Sample.sin50
             empty_world = Ok tt w' /\
        console w' = ["Could not determine the ellipse radius."])
  /\
  (exists w',
     main Sample.catalog Sample.survey Sample.fit_hit Sample.cos50 Sample.sin50
          empty_world = Ok tt w' /\
     console w' = ["Radius of the ellipse in the blue region: 7.00 pixels"]).
Proof.
  split.
  - refine (proj1 (proj2 (C6_report_tests_truthiness
             Sample.catalog Sample.survey Sample.fit_zero Sample.cos50 Sample.sin50
             empty_world Sample.stretched (mk_ContourSet [2; 3]%float)
             2%float 3%float Sample.before_fit_world _ _))
           (Sample.iso 2.5 0) _ _); reflexivity.
  - refine (proj1 (proj2 (proj2 (C6_report_tests_truthiness
             Sample.catalog Sample.survey Sample.fit_hit Sample.cos50 Sample.sin50
             empty_world Sample.stretched (mk_ContourSet [2; 3]%float)
             2%float 3%float Sample.before_fit_world _ _)))
           (Sample.iso 2.5 7) _ _); reflexivity.
Defined.


Lemma C9_witness :
  get_object_coordinates Sample.catalog "M88" empty_world =
  Ok (mk_SkyCoord "12 31 59.216 +14 25 13.48" (hourangle, deg)) empty_world
  /\ (get_object_coordinates (fun _ => [("RA", []); ("DEC", [])]) "M88" empty_world
        = Raised IndexError empty_world /\
      main (fun _ => [("RA", []); ("DEC", [])]) Sample.survey Sample.fit_hit
           Sample.cos50 Sample.sin50 empty_world = Raised IndexError empty_world)
  /\ (get_image_data (fun _ _ _ => [])
                     (mk_SkyCoord "12 31 59.216 +14 25 13.48" (hourangle, deg))
                     "DSS" (mk_Quantity 5 arcmin) empty_world
        = Raised IndexError empty_world /\
      main Sample.catalog (fun _ _ _ => []) Sample.fit_hit
           Sample.cos50 Sample.sin50 empty_world = Raised IndexError empty_world).
Proof.
  destruct C9_wrappers_use_first_element_and_propagate_failure
    as (Hcoord & _ & Hnomatch & _ & Hnoimage).
  split; [| split].
  - apply (Hcoord Sample.catalog "M88" empty_world
                  "12 31 59.216" [] "+14 25 13.48" []); reflexivity.
  - apply Hnomatch. reflexivity.
  - apply Hnoimage; reflexivity.
Defined.

Lemma C10_witness :
  fit_and_plot_ellipse Sample.fit_hit Sample.cos50 Sample.sin50
    Sample.stretched [2; 3]%float Sample.before_fit_world =
  Ok (Some 7%float)
     (drawn Sample.before_fit_world
        [ Plot [] [] "blue" None;
          Scatter (IntS 1) (IntS 1) "red" 10 "Ellipse Center";
          Plot [IntS 1; FloatS 0x1.fff00cfe926b2p+1%float]
               [IntS 1; FloatS 0x1.37301ae756632p+2%float]
               "white" (Some "Semi-major Axis") ]).
Proof.
  exact (proj2 (C10_semi_major_axis_segment
                  Sample.fit_hit Sample.cos50 Sample.sin50 Sample.stretched
                  2%float 3%float Sample.before_fit_world (Sample.iso 2.5 7)
                  eq_refl)).
Defined.

Lemma C2_witness :
  plot_image_and_contours (mk_ndarray 2 2 [3; 0; 15; 8]%float) empty_world =
  Ok (mk_ndarray 2 2 [2; 1; 4; 3]%float, mk_ContourSet [2; 3]%float)
     (drawn empty_world
        [Imshow (mk_ndarray 2 2 [2; 1; 4; 3]%float) "gist_heat" "lower" "auto";
         Contour (mk_ndarray 2 2 [2; 1; 4; 3]%float) [2; 3]%float
                 ["yellow"; "cyan"]]).
Proof.
  destruct (C2_levels_are_interior_linspace (mk_ndarray 2 2 [3; 0; 15; 8]%float))
    as (mn & mx & e0 & e1 & e2 & (Imn & Imx & Hb & _) & _ & Hform & _ & _ & Hplot).
  - discriminate.
  - cbn [pixels map] in Imn, Imx, Hb.
    change (PrimFloat.sqrt (3 + 1)) with 2%float in Imn, Imx, Hb.
    change (PrimFloat.sqrt (0 + 1)) with 1%float in Imn, Imx, Hb.
    change (PrimFloat.sqrt (15 + 1)) with 4%float in Imn, Imx, Hb.
    change (PrimFloat.sqrt (8 + 1)) with 3%float in Imn, Imx, Hb.
    assert (Hall : forall p, In p [2; 1; 4; 3]%float -> (p =? p)%float = true)
      by (intros p [<- | [<- | [<- | [<- | []]]]]; reflexivity).
    specialize (Hb Hall).
    assert (Emn : mn = 1%float).
    { pose proof (proj1 (Hb 1%float (or_intror (or_introl eq_refl)))) as H1.
      destruct Imn as [<- | [<- | [<- | [<- | []]]]];
        try reflexivity; discriminate H1. }
    assert (Emx : mx = 4%float).
    { pose proof (proj2 (Hb 4%float (or_intror (or_intror (or_introl eq_refl))))) as H4.
      destruct Imx as [<- | [<- | [<- | [<- | []]]]];
        try reflexivity; discriminate H4. }
    subst mn mx. cbv zeta in Hform.
    change ((4 - 1) / 3 =? 0)%float with false in Hform.
    injection Hform as _ E1 E2. subst e1 e2.
    exact (Hplot empty_world).
Defined.

Lemma C3_witness :
  (forall p, In p [1; 2; 3; 4]%float ->
     (1 <=? p)%float = true /\ (p <=? 4)%float = true) /\
  exists level_low level_high,
    levels (mk_ContourSet [2; 3]%float) = [level_low; level_high] /\
    (1 <=? level_low)%float = true /\
    (level_low <=? level_high)%float = true /\
    (level_high <=? 4)%float = true /\
    (PrimFloat.is_finite 4 = true -> (level_low <? level_high)%float = true).
Proof.
  apply (C3_levels_increasing_within_closed_range
           Sample.cutout empty_world Sample.stretched
           (mk_ContourSet [2; 3]%float)
           (drawn empty_world
              [Imshow Sample.stretched "gist_heat" "lower" "auto";
               Contour Sample.stretched [2; 3]%float ["yellow"; "cyan"]])
           1%float 4%float); reflexivity.
Defined.

Lemma C5_witness :
  (1 <=? np.sqrt (3 + 1))%float = true /\
  (np.sqrt (0 + 1) <=? np.sqrt (3 + 1))%float = true.
Proof.
  split.
  - apply (proj1 C5_stretch_domain_safe_and_weakly_monotone 3%float). reflexivity.
  - apply (proj2 C5_stretch_domain_safe_and_weakly_monotone 0%float 3%float);
      reflexivity.
Defined.

Lemma C7_witness :
  (forall p, In p [3; 3; 3; 3]%float -> (p =? 3)%float = true) /\
  exists L,
    np.linspace 3 3 4 = [L; L; L; 3%float] /\
    (L =? 3)%float = true /\
    exists w',
      main Sample.catalog Sample.flat_survey Sample.fit_hit Sample.cos50 Sample.sin50
           empty_world = Raised ValueError w' /\
      console w' = [].
Proof.
  destruct (C7_constant_image_stops_at_contour Sample.flat empty_world
              3%float 3%float eq_refl eq_refl eq_refl)
    as (Hall & L & HL & _ & _ & _ & Hfin).
  split; [exact Hall |].
  destruct (Hfin eq_refl) as (HLc & _ & Hmain).
  exists L. split; [exact HL |]. split; [exact HLc |].
  apply (Hmain Sample.catalog Sample.flat_survey Sample.fit_hit
               Sample.cos50 Sample.sin50 empty_world
               (mk_SkyCoord "12 31 59.216 +14 25 13.48" (hourangle, deg))
               (mk_WCS [("SURVEY", "DSS")])); reflexivity.
Defined.

(** ** The further properties on sample runs *)

Lemma X3_witness :
  fit_and_plot_ellipse Sample.fit_hit Sample.cos50 Sample.sin50
    Sample.stretched [3; 2]%float empty_world = Ok None empty_world.
Proof.
  apply (X3_reversed_levels_select_nothing
           Sample.fit_hit Sample.cos50 Sample.sin50 Sample.stretched
           3%float 2%float empty_world).
  reflexivity.
Defined.

Lemma X7_witness :
  plot_image_and_contours (mk_ndarray 0 0 []) empty_world =
  Raised ValueError
    (drawn empty_world [Imshow (mk_ndarray 0 0 []) "gist_heat" "lower" "auto"]).
Proof.
  exact (proj1 (X7_empty_image_raises (mk_ndarray 0 0 []) eq_refl) empty_world).
Defined.

Lemma X8_witness :
  exists w',
    main Sample.catalog
         (fun _ _ _ => [[mk_HDU (mk_ndarray 2 2 [3; nan; 3; 3]%float) []]])
         Sample.fit_hit Sample.cos50 Sample.sin50 empty_world = Ok tt w' /\
    console w' = ["Could not determine the ellipse radius."].
Proof.
  refine (proj2 (proj2 (X8_nan_pixel_reports_failure
                          (mk_ndarray 2 2 [3; nan; 3; 3]%float) nan _ _ _ _))
                Sample.catalog
                (fun _ _ _ => [[mk_HDU (mk_ndarray 2 2 [3; nan; 3; 3]%float) []]])
                Sample.fit_hit Sample.cos50 Sample.sin50 empty_world
                (mk_SkyCoord "12 31 59.216 +14 25 13.48" (hourangle, deg))
                (mk_WCS []) _ _).
  - cbn. lia.
  - cbn. lia.
  - right. left. reflexivity.
  - reflexivity.
  - reflexivity.
  - reflexivity.
Defined.


Lemma X10_witness :
  exists w',
    main Sample.catalog Sample.survey Sample.fit_hit Sample.cos50 Sample.sin50
         empty_world = Ok tt w' /\
    console w' = ["Radius of the ellipse in the blue region: 7.00 pixels"].
Proof.
  eexists. split.
  - apply (X10_main_end_to_end
             Sample.catalog Sample.survey Sample.fit_hit Sample.cos50 Sample.sin50
             empty_world
             (mk_SkyCoord "12 31 59.216 +14 25 13.48" (hourangle, deg))
             Sample.cutout (mk_WCS [("SURVEY", "DSS")])
             Sample.stretched 2%float 3%float Sample.before_fit_world);
      reflexivity.
  - reflexivity.
Defined.

Lemma X12_witness :
  (1 <? 2.5)%float = true /\ (2.5 <? 4)%float = true.
Proof.
  apply (X12_band_inside_stretched_range
           Sample.cutout empty_world Sample.stretched
           (mk_ContourSet [2; 3]%float)
           (drawn empty_world
              [Imshow Sample.stretched "gist_heat" "lower" "auto";
               Contour Sample.stretched [2; 3]%float ["yellow"; "cyan"]])
           1%float 4%float 2%float 3%float (Sample.iso 2.5 7)); reflexivity.
Defined.

Lemma X13_witness :
  (1 <=? 1)%float = true /\
  exists lower upper,
    levels (mk_ContourSet [2; 3]%float) = [lower; upper] /\
    (1 <=? lower)%float = true /\ (1 <=? upper)%float = true.
Proof.
  apply (X13_levels_at_least_one
           Sample.cutout empty_world Sample.stretched
           (mk_ContourSet [2; 3]%float)
           (drawn empty_world
              [Imshow Sample.stretched "gist_heat" "lower" "auto";
               Contour Sample.stretched [2; 3]%float ["yellow"; "cyan"]])
           1%float 4%float); try reflexivity.
  intros d [<- | [<- | [<- | [<- | []]]]]; reflexivity.
Defined.

Lemma X14_witness : format_2f 0.125 = "0.12".
Proof.
  destruct (proj1 X14_format_2f_nearest_hundredth
              0.125%float false 4503599627370496%positive (-55) eq_refl)
    as (ip & d1 & d2 & Hf & Hip & Hd1 & Hd2 & Hle & Hev).
  assert (EV : B64.F2R (Z.pos 4503599627370496) (-55) = (/ 8)%R).
  { change (Z.pos 4503599627370496) with (2 ^ 52).
    rewrite B64Facts.F2R_pow2 by lia.
    change (52 + -55) with (-3). unfold B64.bpow. cbn.
    change (Pos.to_nat 3) with 3%nat. simpl. lra. }
  rewrite EV in Hle, Hev.
  set (n := 100 * ip + 10 * d1 + d2) in *.
  assert (Hn : 12 <= n <= 13).
  { unfold Rabs in Hle. destruct (Rcase_abs _) in Hle; split; apply le_IZR; lra. }
  assert (Hcase : n = 12 \/ n = 13) by lia.
  destruct Hcase as [E | E].
  - assert (ip = 0 /\ d1 = 1 /\ d2 = 2) as (-> & -> & ->) by lia.
    exact Hf.
  - assert (d2 = 3) by lia. subst d2.
    assert (Ht : Rabs (IZR n - 100 * / 8) = (1 / 2)%R).
    { rewrite E, Rabs_pos_eq; lra. }
    specialize (Hev Ht). discriminate Hev.
Defined.
